(** * Submariner operator: globalnet registry and deployment diagnostics

    A shallow embedding of two parts of the operator's [subctl] tool:

    - package [broker]: the globalnet ConfigMap that records, per cluster,
      the global CIDRs it has been allocated ([NewGlobalnetConfigMap],
      [CreateGlobalnetConfigMap], [UpdateGlobalnetConfigMap]);
    - package [cmd]: the [diagnose deployment] command
      ([validateSubmarinerDeployment], [checkPods],
      [checkOverlappingCIDRs]).

    Go strings are [string], slices are [list], [map[string]string] is a
    [gmap string string], [(T, error)] results are [error + T], and the
    process-wide status reporter is threaded as explicit state. *)

From Stdlib Require Import ZArith Lia Ascii DecimalString DecimalPos DecimalN.
From stdpp Require Import base option strings list gmap.

Local Open Scope string_scope.
Local Open Scope list_scope.

(** ** Errors and formatted messages *)

(** [metav1.StatusReason], as far as the code inspects it. *)
Inductive StatusReason :=
| StatusReasonAlreadyExists
| StatusReasonNotFound
| StatusReasonUnknown.

(** Go [error] values: API status errors carry a reason, [fmt.Errorf]
    with a [%s] operand builds a new error around the text of its cause,
    anything else is a plain text. *)
Inductive error :=
| StatusError (reason : StatusReason) (text : string)
| Errorf (format : string) (cause : error)
| errorString (text : string).

(** [errors.IsAlreadyExists] of k8s.io/apimachinery: the error is an API
    status whose reason is AlreadyExists. An error built by [fmt.Errorf]
    with [%s] does not wrap its cause. *)
Definition IsAlreadyExists (err : error) : bool :=
  match err with
  | StatusError StatusReasonAlreadyExists _ => true
  | _ => false
  end.

(** Operands of the formatting verbs the code uses ([%q] and [%s] on
    strings and errors, [%v] on a string slice, [%d] on integers). *)
Inductive arg :=
| ArgString (s : string)
| ArgStrings (l : list string)
| ArgError (e : error)
| ArgInt (z : Z).

(** The result of [fmt.Sprintf format args...], kept symbolic: the format
    together with its operands, in order. *)
Record message := Sprintf { format_of : string; args_of : list arg }.

(** A literal message. *)
Definition literal (s : string) : message := Sprintf s [].

(** ** Package broker: the globalnet ConfigMap *)

Module Broker.

Definition GlobalCIDRConfigMapName : string := "submariner-globalnet-info".
Definition GlobalnetStatusKey : string := "globalnetEnabled".
Definition ClusterInfoKey : string := "clusterinfo".
Definition GlobalnetCidrRange : string := "globalnetCidrRange".
Definition GlobalnetClusterSize : string := "globalnetClusterSize".

Record ClusterInfo := {
  ClusterID : string;
  GlobalCidr : list string
}.

Record ObjectMeta := {
  Name : string;
  Namespace : string;
  Labels : gmap string string
}.

Record ConfigMap := {
  metadata : ObjectMeta;
  Data : gmap string string
}.

(** The backing store, as far as this package touches it: the ConfigMaps
    of the API server, keyed by namespace and name. *)
Abbreviation Store := (gmap (string * string) ConfigMap).

(** [ConfigMapInterface] of client-go for one namespace. Each call may
    change the store and may fail. *)
Record ConfigMapInterface := {
  Create : ConfigMap -> Store -> (error + ConfigMap) * Store;
  Update : ConfigMap -> Store -> (error + ConfigMap) * Store;
  Get : string -> Store -> error + ConfigMap
}.

(** [kubernetes.Clientset], reduced to [CoreV1().ConfigMaps(namespace)]. *)
Record Clientset := {
  ConfigMaps : string -> ConfigMapInterface
}.

(** [fmt.Sprint] of a [uint]: its decimal digits. *)
Definition Sprint_uint (n : N) : string :=
  NilZero.string_of_uint (N.to_uint n).

(** The merge loop of [UpdateGlobalnetConfigMap], lines 109-115:
    [for k, value := range clusterInfo], with [k] the index, [todo] the
    elements still to visit and [clusterInfo] the slice being written. *)
Fixpoint merge_loop (newCluster : ClusterInfo) (k : nat) (todo : list ClusterInfo)
    (clusterInfo : list ClusterInfo) (exists_ : bool) : list ClusterInfo * bool :=
  match todo with
  | [] => (clusterInfo, exists_)
  | value :: todo' =>
    if String.eqb (ClusterID value) (ClusterID newCluster)
    then merge_loop newCluster (S k) todo'
           (alter (fun e => {| ClusterID := ClusterID e;
                               GlobalCidr := GlobalCidr newCluster |}) k clusterInfo)
           true
    else merge_loop newCluster (S k) todo' clusterInfo exists_
  end.

(** The test of the loop body, and what the body makes of one entry. *)
Definition same_cluster (newCluster e : ClusterInfo) : bool :=
  String.eqb (ClusterID e) (ClusterID newCluster).

Definition merge_entry (newCluster e : ClusterInfo) : ClusterInfo :=
  if same_cluster newCluster e
  then {| ClusterID := ClusterID e; GlobalCidr := GlobalCidr newCluster |}
  else e.

(** The merge of [UpdateGlobalnetConfigMap], lines 109-122, on the decoded
    list: the loop, then the append when no entry matched. *)
Definition upsert (clusterInfo : list ClusterInfo) (newCluster : ClusterInfo)
    : list ClusterInfo :=
  let '(clusterInfo', exists_) := merge_loop newCluster 0 clusterInfo clusterInfo false in
  if exists_ then clusterInfo'
  else clusterInfo' ++ [ {| ClusterID := ClusterID newCluster;
                            GlobalCidr := GlobalCidr newCluster |} ].

Section WithEnvironment.

(** [rest.Config] is opaque here. *)
Context {RestConfig : Type}.

(** [kubernetes.NewForConfig]. *)
Variable NewForConfig : RestConfig -> error + Clientset.

(** [json.Marshal] at a Go string. *)
Variable json_Marshal : string -> error + string.

(** [json.Unmarshal] into a [[]ClusterInfo], and [json.MarshalIndent] of
    one with the indentation the code passes. *)
Variable json_Unmarshal : string -> error + list ClusterInfo.
Variable json_MarshalIndent : list ClusterInfo -> error + string.

Definition NewGlobalnetConfigMap (globalnetEnabled : bool)
    (defaultGlobalCidrRange : string) (defaultGlobalClusterSize : N)
    (namespace : string) : error + ConfigMap :=
  let labels : gmap string string := {[ "component" := "submariner-globalnet" ]} in
  match json_Marshal defaultGlobalCidrRange with
  | inl err => inl err
  | inr cidrRange =>
    let data : gmap string string :=
      if globalnetEnabled then
        list_to_map [ (GlobalnetStatusKey, "true");
                      (GlobalnetCidrRange, cidrRange);
                      (GlobalnetClusterSize, Sprint_uint defaultGlobalClusterSize);
                      (ClusterInfoKey, "[]") ]
      else
        list_to_map [ (GlobalnetStatusKey, "false");
                      (ClusterInfoKey, "[]") ] in
    inr {| metadata := {| Name := GlobalCIDRConfigMapName;
                          Namespace := namespace;
                          Labels := labels |};
           Data := data |}
  end.

(** Returns [None] for Go's [nil] error. *)
Definition CreateGlobalnetConfigMap (config : RestConfig) (globalnetEnabled : bool)
    (defaultGlobalCidrRange : string) (defaultGlobalClusterSize : N)
    (namespace : string) (store : Store) : option error * Store :=
  match NewForConfig config with
  | inl err =>
    (Some (Errorf "error creating the core kubernetes clientset: %s" err), store)
  | inr clientset =>
    match NewGlobalnetConfigMap globalnetEnabled defaultGlobalCidrRange
            defaultGlobalClusterSize namespace with
    | inl err => (Some (Errorf "error creating config map: %s" err), store)
    | inr gnConfigMap =>
      match Create (ConfigMaps clientset namespace) gnConfigMap store with
      | (inr _, store') => (None, store')
      | (inl err, store') =>
        if IsAlreadyExists err then (None, store') else (Some err, store')
      end
    end
  end.

(** The caller's [configMap] is a pointer: the function writes its
    [Data[ClusterInfoKey]], so the written ConfigMap is returned next to
    the error. A missing key reads as the empty string. *)
Definition UpdateGlobalnetConfigMap (k8sClientset : Clientset) (namespace : string)
    (configMap : ConfigMap) (newCluster : ClusterInfo) (store : Store)
    : option error * ConfigMap * Store :=
  match json_Unmarshal (default "" (Data configMap !! ClusterInfoKey)) with
  | inl err => (Some err, configMap, store)
  | inr clusterInfo =>
    match json_MarshalIndent (upsert clusterInfo newCluster) with
    | inl err => (Some err, configMap, store)
    | inr data =>
      let configMap' := {| metadata := metadata configMap;
                           Data := <[ClusterInfoKey := data]> (Data configMap) |} in
      match Update (ConfigMaps k8sClientset namespace) configMap' store with
      | (inl err, store') => (Some err, configMap', store')
      | (inr _, store') => (None, configMap', store')
      end
    end
  end.

Definition GetGlobalnetConfigMap (k8sClientset : Clientset) (namespace : string)
    (store : Store) : error + ConfigMap :=
  match Get (ConfigMaps k8sClientset namespace) GlobalCIDRConfigMapName store with
  | inl err => inl err
  | inr cm => inr cm
  end.

End WithEnvironment.

(** Modelled from the spec: the Registry Store of section 4.1, which the
    sources reach only through client-go. A create at a key that already
    holds a record fails with AlreadyExists and leaves the record as it
    is, otherwise it stores the record; an update replaces the record
    wholesale, with no compare-and-swap (sections 4.1 and 5), and fails
    with NotFound when there is none; a fetch fails with NotFound when
    the record is absent. Resource versions are not part of the model: it
    serves one writer that reads before it writes, and says nothing about
    writers that interleave. *)
Definition storeConfigMaps (namespace : string) : ConfigMapInterface := {|
  Create := fun cm store =>
    match store !! (namespace, Name (metadata cm)) with
    | Some _ => (inl (StatusError StatusReasonAlreadyExists (Name (metadata cm))), store)
    | None => (inr cm, <[(namespace, Name (metadata cm)) := cm]> store)
    end;
  Update := fun cm store =>
    match store !! (namespace, Name (metadata cm)) with
    | Some _ => (inr cm, <[(namespace, Name (metadata cm)) := cm]> store)
    | None => (inl (StatusError StatusReasonNotFound (Name (metadata cm))), store)
    end;
  Get := fun name store =>
    match store !! (namespace, name) with
    | Some cm => inr cm
    | None => inl (StatusError StatusReasonNotFound name)
    end
|}.

Definition storeClientset : Clientset := {| ConfigMaps := storeConfigMaps |}.

End Broker.

(** ** CIDR prefixes and their intersection test *)

Module Cidr.

Inductive Family := IPv4 | IPv6.

Global Instance Family_eq_dec : EqDecision Family.
Proof. solve_decision. Defined.

(** Address width in bits. *)
Definition bits (f : Family) : Z :=
  match f with IPv4 => 32 | IPv6 => 128 end.

(** An address: its family and its value as an unsigned integer of
    [bits] bits, most significant byte first. *)
Record IPAddr := { fam : Family; val : Z }.

(** A parsed prefix: an address and a prefix length ([net.IPNet], with
    the mask given by its number of leading ones). *)
Record IPNet := { IP : IPAddr; ones : Z }.

(** [net.CIDRMask ones bits]: [ones] one-bits followed by zeros. *)
Definition CIDRMask (ones bits : Z) : Z :=
  Z.shiftl (Z.ones ones) (bits - ones).

Definition Mask (n : IPNet) : Z := CIDRMask (ones n) (bits (fam (IP n))).

(** An IPv4-mapped IPv6 address, [::ffff:a.b.c.d]: the first ten bytes
    are zero and the next two are [0xff]. *)
Definition mapped (ip : IPAddr) : bool :=
  match fam ip with
  | IPv4 => false
  | IPv6 => (Z.shiftr (val ip) 32 =? 65535)%Z
  end.

(** [ip.To4()] of Go's package net: a 4-byte address is returned as it
    is, an IPv4-mapped 16-byte address gives its last four bytes, and any
    other address gives [nil]. *)
Definition To4 (ip : IPAddr) : option IPAddr :=
  match fam ip with
  | IPv4 => Some ip
  | IPv6 =>
    if mapped ip then Some {| fam := IPv4; val := Z.land (val ip) (Z.ones 32) |}
    else None
  end.

(** [networkNumberAndMask(n)] of package net: the network number, through
    [To4] when that applies, and the mask, cut to its last four bytes
    ([m[12:]]) when the number has four bytes and the mask sixteen. The
    mask of a network that [net.ParseCIDR] returns is as long as its
    address, so the [nil] results of the Go function do not arise. *)
Definition networkNumberAndMask (n : IPNet) : IPAddr * Z :=
  match To4 (IP n) with
  | Some ip =>
    (ip, match fam (IP n) with
         | IPv4 => Mask n
         | IPv6 => Z.land (Mask n) (Z.ones 32)
         end)
  | None => (IP n, Mask n)
  end.

(** [n.Contains(ip)] of package net: [ip] goes through [To4] when that
    applies; the answer is false when [ip] and the network number differ
    in length, and otherwise says whether the two agree on the masked
    bits. *)
Definition Contains (n : IPNet) (ip : IPAddr) : bool :=
  let '(nn, m) := networkNumberAndMask n in
  let ip := default ip (To4 ip) in
  bool_decide (fam ip = fam nn)
  && (Z.land (val nn) m =? Z.land (val ip) m)%Z.

(** The network a valid prefix [address/ones] denotes: the address with
    the host bits cleared, as [net.ParseCIDR] returns it, with four bytes
    for a dotted-quad text and sixteen for any other. *)
Definition network (f : Family) (address ones : Z) : IPNet :=
  {| IP := {| fam := f; val := Z.land address (CIDRMask ones (bits f)) |};
     ones := ones |}.

(** Modelled from the spec: the intersection test of section 4.3, which
    the detector calls as [cidr.IsOverlapping] from
    github.com/submariner-io/submariner/pkg/cidr and which is not among
    the sources. Two prefixes intersect when one prefix's network address
    falls within the other's range, tested with [Contains]. *)
Definition intersects (a b : IPNet) : bool :=
  Contains a (IP b) || Contains b (IP a).

Section WithParser.

(** [net.ParseCIDR], reduced to the network it returns. *)
Variable ParseCIDR : string -> error + IPNet.

(** Modelled from the spec: [cidr.IsOverlapping cidrList cidr] tests
    whether [cidr] intersects any prefix of [cidrList]; a prefix that
    does not parse is an error. The list is scanned in order and the scan
    stops at the first intersecting prefix. *)
Fixpoint IsOverlapping_loop (newNet : IPNet) (cidrList : list string) : error + bool :=
  match cidrList with
  | [] => inr false
  | v :: rest =>
    match ParseCIDR v with
    | inl err => inl err
    | inr baseNet =>
      if intersects baseNet newNet then inr true
      else IsOverlapping_loop newNet rest
    end
  end.

Definition IsOverlapping (cidrList : list string) (cidr : string) : error + bool :=
  match ParseCIDR cidr with
  | inl err => inl err
  | inr newNet => IsOverlapping_loop newNet cidrList
  end.

End WithParser.

(** The addresses of a prefix: those of its family between its first and
    its last address. *)
Definition first_address (n : IPNet) : Z := Z.land (val (IP n)) (Mask n).
Definition last_address (n : IPNet) : Z :=
  first_address n + 2 ^ (bits (fam (IP n)) - ones n) - 1.
Definition in_range (n : IPNet) (ip : IPAddr) : Prop :=
  fam ip = fam (IP n) /\ (first_address n <= val ip <= last_address n)%Z.

Definition valid_address (ip : IPAddr) : Prop :=
  (0 <= val ip < 2 ^ bits (fam ip))%Z.

(** A syntactically valid prefix: an address of the family's width and a
    prefix length between 0 and that width. *)
Definition valid_prefix (f : Family) (address ones : Z) : Prop :=
  (0 <= address < 2 ^ bits f)%Z /\ (0 <= ones <= bits f)%Z.

(** The address [ip] lies in the block of [n]: same family, and the two
    agree on the masked bits. *)
Definition covers (n : IPNet) (ip : IPAddr) : bool :=
  bool_decide (fam (IP n) = fam ip)
  && (Z.land (val (IP n)) (Mask n) =? Z.land (val ip) (Mask n))%Z.

(** The prefix a network is compared as: an IPv6 network whose address is
    IPv4-mapped stands for the IPv4 prefix of its last 32 bits, with a
    prefix length 96 shorter; any other network stands for itself. *)
Definition compared_as (n : IPNet) : IPNet :=
  if mapped (IP n)
  then {| IP := {| fam := IPv4; val := Z.land (val (IP n)) (Z.ones 32) |};
          ones := ones n - 96 |}
  else n.

(** Dotted-quad notation, and the IPv4-mapped IPv6 address of a
    dotted quad, for the examples. *)
Definition ipv4 (a b c d : Z) : Z := ((a * 256 + b) * 256 + c) * 256 + d.
Definition ipv4_mapped (a b c d : Z) : Z := 65535 * 2 ^ 32 + ipv4 a b c d.

End Cidr.

(** ** Package cmd: the deployment diagnostics *)

Module Cmd.

(** *** The status reporter *)

(** [cli.Success] and [cli.Failure]. *)
Inductive Result := Success | Failure.

Inductive Severity := success | warning | failure.

Record Issue := { severity : Severity; text : message }.

(** One finished status line of the report, with the messages that were
    queued when it ended. *)
Record Line := {
  line_title : option message;
  line_result : Result;
  line_issues : list Issue
}.

(** Modelled from the spec: the process-wide status reporter [status] of
    pkg/internal/cli, which is not among the sources (section 9, the
    process-wide accumulating report state; section 3, issues are
    accumulated and never discarded). A status line is in progress
    between [Start] and [End]. Messages are queued with a severity, in
    order. [End] finishes the line in progress with the messages queued
    so far and empties the queue; with no line in progress it does
    nothing, so that messages queued outside a line stay queued. [Start]
    ends the line in progress, if any, as a success and begins the new
    one. *)
Record Status := {
  current : option message;
  queue : list Issue;
  report : list Line
}.

Definition is_failure (i : Issue) : bool :=
  match severity i with failure => true | _ => false end.

Definition initialStatus : Status :=
  {| current := None; queue := []; report := [] |}.

(** *** Control flow: status state and process exit *)

(** A call either returns a value or ends the process with an exit code
    ([os.Exit]). *)
Inductive Outcome (A : Type) :=
| Returned (a : A)
| Exited (code : Z).
Arguments Returned {A} a.
Arguments Exited {A} code.

Definition Run (A : Type) : Type := Status -> Outcome A * Status.

Global Instance Run_ret : MRet Run := fun A a st => (Returned a, st).

Global Instance Run_bind : MBind Run := fun A B f m st =>
  match m st with
  | (Returned a, st') => f a st'
  | (Exited code, st') => (Exited code, st')
  end.

Definition os_Exit {A : Type} (code : Z) : Run A := fun st => (Exited code, st).

(** The exit status of the process when the command's run function ends
    with outcome [o]: 0 when it returns. *)
Definition exitStatus {A : Type} (o : Outcome A) : Z :=
  match o with
  | Returned _ => 0
  | Exited code => code
  end.

Definition End (result : Result) : Run unit := fun st =>
  match current st with
  | None => (Returned tt, st)
  | Some title =>
    (Returned tt,
     {| current := None;
        queue := [];
        report := report st ++ [ {| line_title := Some title;
                                    line_result := result;
                                    line_issues := queue st |} ] |})
  end.

Definition Start (title : message) : Run unit := fun st =>
  let st' := (End Success st).2 in
  (Returned tt,
   {| current := Some title; queue := queue st'; report := report st' |}).

Definition QueueMessage (s : Severity) (m : message) : Run unit := fun st =>
  (Returned tt,
   {| current := current st;
      queue := queue st ++ [ {| severity := s; text := m |} ];
      report := report st |}).

Definition QueueSuccessMessage : message -> Run unit := QueueMessage success.
Definition QueueWarningMessage : message -> Run unit := QueueMessage warning.
Definition QueueFailureMessage : message -> Run unit := QueueMessage failure.

Definition HasFailureMessages : Run bool := fun st =>
  (Returned (existsb is_failure (queue st)), st).

(** The status with [issues] added at the end of the queue. *)
Definition enqueue (issues : list Issue) (st : Status) : Status :=
  {| current := current st; queue := queue st ++ issues; report := report st |}.

(** The messages a step queues when it starts with nothing queued. *)
Definition emitted {A : Type} (step : Run A) : list Issue :=
  queue (step initialStatus).2.

(** A step that only adds messages to the queue. *)
Definition appends (step : Run unit) : Prop :=
  forall st, step st = (Returned tt, enqueue (emitted step) st).

(** Nothing in progress and nothing queued. *)
Definition idle (st : Status) : Prop := current st = None /\ queue st = [].

(** The failure messages reported so far: those of the finished lines,
    then those still queued. *)
Definition reported_failures (st : Status) : list Issue :=
  List.filter is_failure (flat_map line_issues (report st) ++ queue st).

(** What a check that returned [b] has added to the reported failures
    between [st] and [st']: nothing when it returned true, at least one
    failure message when it returned false. *)
Definition verdict_reported (b : bool) (st st' : Status) : Prop :=
  exists extra,
    reported_failures st' = reported_failures st ++ extra
    /\ (b = true -> extra = []) /\ (b = false -> extra <> []).

(** A status line is in progress. *)
Definition running (st : Status) : Prop := is_Some (current st).

(** The messages queued with no status line in progress: [End] leaves
    them where they are, and [Start] hands them to the line it begins. *)
Definition leftover (st : Status) : list Issue :=
  match current st with
  | None => queue st
  | Some _ => []
  end.

(** A check that runs within a status line: when it returns false it has
    reported a failure and ended the line, and when it returns true it
    has reported none and the line is still in progress. *)
Definition sound_check (check : Run bool) : Prop :=
  forall st b st', running st -> check st = (Returned b, st') ->
              verdict_reported b st st' /\ (if b then running st' else idle st').

(** A check that moreover ends the status line when it returns true. *)
Definition final_check (check : Run bool) : Prop :=
  forall st b st', running st -> check st = (Returned b, st') ->
              verdict_reported b st st' /\ idle st'.

(** The titles of the status lines of the report, finished or running. *)
Definition titles (st : Status) : list message :=
  omap line_title (report st) ++ option_list (current st).

(** Modelled from the spec: [exitOnError] of package cmd, which is not
    among the sources. An error of the fatal tier (section 7) aborts the
    whole run with exit status 1 (section 6); without an error the call
    does nothing. *)
Definition exitOnError (msg : string) (err : option error) : Run unit :=
  match err with
  | Some _ => os_Exit 1
  | None => mret tt
  end.

(** [x, err := f(...); exitOnError(msg, err)] and then the use of [x]. *)
Definition orExit {A : Type} (msg : string) (r : error + A) : Run A :=
  match r with
  | inl err => exitOnError msg (Some err) ;; os_Exit 1 (* not reached *)
  | inr x => exitOnError msg None ;; mret x
  end.

(** Go's [a && f()]: [f] runs only when [a] is true. *)
Definition and_then (a : bool) (f : Run bool) : Run bool :=
  if a then f else mret false.

(** *** Resources read from the clusters *)

(** [v1alpha1.Submariner], the fields the code reads. *)
Record Submariner := {
  Submariner_Namespace : string;
  Spec_GlobalCIDR : string;
  Spec_ServiceDiscoveryEnabled : bool;
  Status_ClusterID : string
}.

(** A Submariner endpoint: [Name], [Spec.ClusterID], [Spec.Subnets]. *)
Record Endpoint := {
  Name : string;
  ClusterID : string;
  Subnets : list string
}.

(** [appsv1.DaemonSet]: [Status.CurrentNumberScheduled] and
    [Status.DesiredNumberScheduled]. *)
Record DaemonSet := {
  CurrentNumberScheduled : Z;
  DesiredNumberScheduled : Z
}.

(** [appsv1.Deployment]: [Spec.Replicas] (a pointer) and
    [Status.AvailableReplicas]. *)
Record Deployment := {
  Replicas : option Z;
  AvailableReplicas : Z
}.

(** [v1.Pod]: [Name], [Status.Phase] and the restart counts of
    [Status.ContainerStatuses]. *)
Record Pod := {
  Pod_Name : string;
  Phase : string;
  RestartCounts : list Z
}.

Definition PodRunning : string := "Running".

(** One entry of the list [getMultipleRestConfigs] returns. *)
Record restConfig {RestConfig : Type} := {
  config : RestConfig;
  clusterName : string
}.
Arguments restConfig RestConfig : clear implicits.

Section WithClusters.

(** [rest.Config] and the two client types are opaque. *)
Context {RestConfig SubmarinerClient KubeClient : Type}.

(** Constants of package cmd that are declared outside the sources. *)
Variable OperatorNamespace : string.
Variable submMissingMessage : string.

(** [getMultipleRestConfigs], from the kubeconfig and the contexts given
    on the command line. *)
Variable getMultipleRestConfigs : string -> list string -> error + list (restConfig RestConfig).

(** Modelled from the spec: [getSubmarinerResource] of package cmd, which
    is not among the sources, fetches the mesh resource of a cluster and
    yields nothing when it is absent (section 4.4). *)
Variable getSubmarinerResource : RestConfig -> option Submariner.

(** The Submariner clientset: construction, and
    [SubmarinerV1().Endpoints(namespace).List]. *)
Variable smClientset_NewForConfig : RestConfig -> error + SubmarinerClient.
Variable Endpoints_List : SubmarinerClient -> string -> error + list Endpoint.

(** The Kubernetes clientset: construction, and the reads of
    [AppsV1().DaemonSets(namespace).Get], [AppsV1().Deployments(namespace).Get]
    and [CoreV1().Pods(namespace).List]. *)
Variable kubernetes_NewForConfig : RestConfig -> error + KubeClient.
Variable DaemonSets_Get : KubeClient -> string -> string -> error + DaemonSet.
Variable Deployments_Get : KubeClient -> string -> string -> error + Deployment.
Variable Pods_List : KubeClient -> string -> error + list Pod.

(** [cidr.IsOverlapping cidrList cidr]. *)
Variable IsOverlapping : list string -> string -> error + bool.

Definition CheckDeployment (k8sClient : KubeClient) (namespace deploymentName : string)
    : Run bool :=
  match Deployments_Get k8sClient namespace deploymentName with
  | inl err =>
    QueueFailureMessage (Sprintf "Error obtaining Deployment %q: %v"
                           [ArgString deploymentName; ArgError err]) ;;
    End Failure ;;
    mret false
  | inr deployment =>
    let replicas := match Replicas deployment with
                    | Some r => r
                    | None => 1%Z
                    end in
    if negb (AvailableReplicas deployment =? replicas)%Z then
      QueueFailureMessage
        (Sprintf ("The desired number of replicas for Deployment %q (%d)"
                  ++ " does not match the actual number running (%d)")
           [ArgString deploymentName; ArgInt replicas;
            ArgInt (AvailableReplicas deployment)]) ;;
      End Failure ;;
      mret false
    else mret true
  end.

Definition CheckDaemonset (k8sClient : KubeClient) (namespace daemonSetName : string)
    : Run bool :=
  match DaemonSets_Get k8sClient namespace daemonSetName with
  | inl err =>
    QueueFailureMessage (Sprintf "Error obtaining Daemonset %q: %v"
                           [ArgString daemonSetName; ArgError err]) ;;
    End Failure ;;
    mret false
  | inr daemonSet =>
    if negb (CurrentNumberScheduled daemonSet =? DesiredNumberScheduled daemonSet)%Z then
      QueueFailureMessage
        (Sprintf ("The desired number of running pods for DaemonSet %q (%d)"
                  ++ " does not match the actual number (%d)")
           [ArgString daemonSetName; ArgInt (DesiredNumberScheduled daemonSet);
            ArgInt (CurrentNumberScheduled daemonSet)]) ;;
      End Failure ;;
      mret false
    else mret true
  end.

(** [for _, c := range pod.Status.ContainerStatuses]. *)
Fixpoint restarts_loop (pod : Pod) (counts : list Z) : Run unit :=
  match counts with
  | [] => mret tt
  | RestartCount :: rest =>
    (if (5 <=? RestartCount)%Z then
       QueueWarningMessage (Sprintf "Pod %q has restarted %d times"
                              [ArgString (Pod_Name pod); ArgInt RestartCount])
     else mret tt) ;;
    restarts_loop pod rest
  end.

(** [for _, pod := range pods.Items], with its early return. *)
Fixpoint pods_loop (pods : list Pod) : Run bool :=
  match pods with
  | [] => mret true
  | pod :: rest =>
    if negb (String.eqb (Phase pod) PodRunning) then
      QueueFailureMessage (Sprintf "Pod %q is not running. (current state is %v)"
                             [ArgString (Pod_Name pod); ArgString (Phase pod)]) ;;
      End Failure ;;
      mret false
    else
      restarts_loop pod (RestartCounts pod) ;;
      pods_loop rest
  end.

Definition checkPodsStatus (k8sClient : KubeClient) (operatorNamespace : string)
    : Run bool :=
  match Pods_List k8sClient operatorNamespace with
  | inl err =>
    QueueFailureMessage (Sprintf "Error obtaining Pods list: %v" [ArgError err]) ;;
    End Failure ;;
    mret false
  | inr pods => pods_loop pods
  end.

(** [if !check(...) { return false }] and then the rest. *)
Definition unless_false (check : Run bool) (rest : Run bool) : Run bool :=
  ok ← check; if negb ok then mret false else rest.

Definition checkPods (item : restConfig RestConfig) (submariner : Submariner)
    (operatorNamespace : string) : Run bool :=
  Start (Sprintf "Checking Submariner pods in %q" [ArgString (clusterName item)]) ;;
  kubeClientSet ← orExit "Error creating Kubernetes client"
                    (kubernetes_NewForConfig (config item));
  unless_false (CheckDaemonset kubeClientSet operatorNamespace "submariner-gateway") (
  unless_false (CheckDaemonset kubeClientSet operatorNamespace "submariner-routeagent") (
  unless_false (if Spec_ServiceDiscoveryEnabled submariner then
                  unless_false (CheckDeployment kubeClientSet operatorNamespace
                                  "submariner-lighthouse-agent") (
                  unless_false (CheckDeployment kubeClientSet operatorNamespace
                                  "submariner-lighthouse-coredns") (
                  mret true))
                else mret true) (
  unless_false (if negb (String.eqb (Spec_GlobalCIDR submariner) "") then
                  CheckDaemonset kubeClientSet operatorNamespace "submariner-globalnet"
                else mret true) (
  unless_false (checkPodsStatus kubeClientSet operatorNamespace) (
  QueueSuccessMessage (literal "All Submariner pods are up and running") ;;
  End Success ;;
  mret true))))).

(** The DaemonSet can be read and as many pods are scheduled as desired. *)
Definition daemonSetReady (k8sClient : KubeClient) (namespace name : string) : bool :=
  match DaemonSets_Get k8sClient namespace name with
  | inr daemonSet =>
    (CurrentNumberScheduled daemonSet =? DesiredNumberScheduled daemonSet)%Z
  | inl _ => false
  end.

(** The Deployment can be read and as many replicas are available as its
    spec asks for, one when the spec does not say. *)
Definition deploymentReady (k8sClient : KubeClient) (namespace name : string) : bool :=
  match Deployments_Get k8sClient namespace name with
  | inr deployment =>
    (AvailableReplicas deployment =? default 1 (Replicas deployment))%Z
  | inl _ => false
  end.

(** The pods can be listed and all are in the Running phase. *)
Definition podsRunning (k8sClient : KubeClient) (namespace : string) : bool :=
  match Pods_List k8sClient namespace with
  | inr pods => forallb (fun pod => String.eqb (Phase pod) PodRunning) pods
  | inl _ => false
  end.

(** The warnings of one pod: one for each container that has restarted
    five times or more. *)
Definition restart_warnings (pod : Pod) : list Issue :=
  (fun count => {| severity := warning;
                   text := Sprintf "Pod %q has restarted %d times"
                             [ArgString (Pod_Name pod); ArgInt count] |})
  <$> List.filter (fun count => (5 <=? count)%Z) (RestartCounts pod).

(** The body of the subnet loop, lines 246-258. *)
Definition check_subnet (source dest : Endpoint) (subnet : string) : Run unit :=
  match IsOverlapping (Subnets source) subnet with
  | inl err =>
    QueueFailureMessage (Sprintf "Error parsing CIDR in cluster %q: %s"
                           [ArgString (ClusterID dest); ArgError err])
  | inr overlap =>
    if overlap then
      QueueFailureMessage
        (Sprintf "CIDR %q in cluster %q overlaps with cluster %q (CIDRs: %v)"
           [ArgString subnet; ArgString (ClusterID dest);
            ArgString (ClusterID source); ArgStrings (Subnets source)])
    else mret tt
  end.

(** [for _, subnet := range dest.Spec.Subnets], lines 245-259. *)
Fixpoint subnets_loop (source dest : Endpoint) (subnets : list string) : Run unit :=
  match subnets with
  | [] => mret tt
  | subnet :: rest =>
    check_subnet source dest subnet ;;
    subnets_loop source dest rest
  end.

(** The body of the inner endpoint loop, lines 236-259: one pair of a
    source and a later endpoint. *)
Definition check_pair (source dest : Endpoint) : Run unit :=
  if String.eqb (ClusterID source) (ClusterID dest) then
    QueueFailureMessage
      (Sprintf "Found multiple Submariner endpoints (%q and %q) in cluster %q"
         [ArgString (Name source); ArgString (Name dest);
          ArgString (ClusterID source)])
  else subnets_loop source dest (Subnets dest).

(** [for _, dest := range endpointList.Items[i+1:]], lines 235-260. *)
Fixpoint dests_loop (source : Endpoint) (dests : list Endpoint) : Run unit :=
  match dests with
  | [] => mret tt
  | dest :: rest =>
    check_pair source dest ;;
    dests_loop source rest
  end.

(** [for i, source := range endpointList.Items], lines 234-261: [i] is the
    index and [todo] the elements from [i] on. *)
Fixpoint sources_loop (items : list Endpoint) (i : nat) (todo : list Endpoint)
    : Run unit :=
  match todo with
  | [] => mret tt
  | source :: rest =>
    dests_loop source (drop (S i) items) ;;
    sources_loop items (S i) rest
  end.

(** The pairs of positions the two endpoint loops visit, in order:
    [(i, j)] for [i] from 0 and [j] from [i+1], below [n]. *)
Definition index_pairs (n : nat) : list (nat * nat) :=
  flat_map (fun i => pair i <$> seq (S i) (n - S i)) (seq 0 n).

(** The issues of the pair of endpoints at positions [i] and [j]. *)
Definition pair_issues (items : list Endpoint) (ij : nat * nat) : list Issue :=
  match items !! ij.1, items !! ij.2 with
  | Some source, Some dest => emitted (check_pair source dest)
  | _, _ => []
  end.

(** The issues of the whole endpoint list, lines 234-261. *)
Definition detect (items : list Endpoint) : list Issue :=
  emitted (sources_loop items 0 items).

Definition checkOverlappingCIDRs (item : restConfig RestConfig) (submariner : Submariner)
    : Run bool :=
  submarinerClient ← orExit "Unable to get the Submariner client"
                       (smClientset_NewForConfig (config item));
  (if negb (String.eqb (Spec_GlobalCIDR submariner) "") then
     Start (literal "Globalnet deployment detected, checking if globalnet CIDRs overlap")
   else
     Start (literal "Non-Globalnet deployment detected, checking if cluster CIDRs overlap")) ;;
  let localClusterName := Status_ClusterID submariner in
  match Endpoints_List submarinerClient (Submariner_Namespace submariner) with
  | inl err =>
    QueueFailureMessage (Sprintf "Error listing the Submariner endpoints in cluster %q"
                           [ArgString localClusterName]) ;;
    End Failure ;;
    mret false
  | inr endpointList =>
    sources_loop endpointList 0 endpointList ;;
    failed ← HasFailureMessages;
    if (failed : bool) then
      End Failure ;;
      mret false
    else
      (if negb (String.eqb (Spec_GlobalCIDR submariner) "") then
         QueueSuccessMessage (literal "Clusters do not have overlapping globalnet CIDRs")
       else
         QueueSuccessMessage (literal "Clusters do not have overlapping CIDRs")) ;;
      End Success ;;
      mret true
  end.

(** [for _, item := range configs], lines 194-207, carrying
    [validationStatus]. *)
Fixpoint validate_loop (configs : list (restConfig RestConfig)) (validationStatus : bool)
    : Run bool :=
  match configs with
  | [] => mret validationStatus
  | item :: rest =>
    Start (Sprintf "Retrieving Submariner resource from %q"
             [ArgString (clusterName item)]) ;;
    match getSubmarinerResource (config item) with
    | None =>
      QueueWarningMessage (literal submMissingMessage) ;;
      End Success ;;
      validate_loop rest validationStatus
    | Some submariner =>
      End Success ;;
      validationStatus ← and_then validationStatus
                           (checkPods item submariner OperatorNamespace);
      validationStatus ← and_then validationStatus
                           (checkOverlappingCIDRs item submariner);
      validate_loop rest validationStatus
    end
  end.

Definition validateSubmarinerDeployment (kubeConfig : string) (kubeContexts : list string)
    : Run unit :=
  configs ← orExit "Error getting REST config for cluster"
              (getMultipleRestConfigs kubeConfig kubeContexts);
  validationStatus ← validate_loop configs true;
  if negb validationStatus then os_Exit 1 else mret tt.

End WithClusters.

End Cmd.

(** ** Concrete environments for the examples *)

Module Examples.

(** A string between double quotes: what [json.Marshal] gives for a
    string that needs no escape. *)
Definition quote (s : string) : string :=
  String "034"%char (s ++ String "034"%char "")%string.

Definition json_Marshal (s : string) : error + string := inr (quote s).

(** The fields of [s] between the separators [sep]. *)
Fixpoint fields (sep : ascii) (s : string) : list string :=
  match s with
  | EmptyString => [""]
  | String c rest =>
    if Ascii.eqb c sep then "" :: fields sep rest
    else match fields sep rest with
         | [] => [String c ""]
         | field :: others => String c field :: others
         end
  end.

(** A decimal number of one to three digits without a leading zero,
    unless it is zero itself. *)
Definition decimal (s : string) : option Z :=
  match s with
  | EmptyString => None
  | String "0" (String _ _) => None
  | _ =>
    if (3 <? String.length s)%nat then None
    else (fun d => Z.of_N (N.of_uint d)) <$> NilZero.uint_of_string s
  end.

(** [net.ParseCIDR] on dotted-quad IPv4 prefixes such as
    ["10.0.0.0/16"]; any other text is refused. *)
Definition ParseCIDR (s : string) : error + Cidr.IPNet :=
  let invalid := inl (errorString ("invalid CIDR address: " ++ s)) in
  match fields "/" s with
  | [address; mask] =>
    match decimal <$> fields "." address, decimal mask with
    | [Some a; Some b; Some c; Some d], Some ones =>
      if forallb (fun x => x <=? 255)%Z [a; b; c; d] && (ones <=? 32)%Z
      then inr (Cidr.network Cidr.IPv4 (Cidr.ipv4 a b c d) ones)
      else invalid
    | _, _ => invalid
    end
  | _ => invalid
  end.

Definition IsOverlapping : list string -> string -> error + bool :=
  Cidr.IsOverlapping ParseCIDR.

(** [net.ParseCIDR] on two IPv6 texts as well: [::/0], all of IPv6, and
    [::ffff:10.0.0.0/104], the IPv4-mapped addresses of [10.0.0.0/8]. *)
Definition ParseCIDR_v6 (s : string) : error + Cidr.IPNet :=
  if String.eqb s "::/0" then inr (Cidr.network Cidr.IPv6 0 0)
  else if String.eqb s "::ffff:10.0.0.0/104"
       then inr (Cidr.network Cidr.IPv6 (Cidr.ipv4_mapped 10 0 0 0) 104)
       else ParseCIDR s.

(** Endpoints of a small mesh. *)
Definition east_a : Cmd.Endpoint :=
  {| Cmd.Name := "east-gw-a"; Cmd.ClusterID := "east";
     Cmd.Subnets := ["10.0.0.0/16"] |}.

Definition east_b : Cmd.Endpoint :=
  {| Cmd.Name := "east-gw-b"; Cmd.ClusterID := "east";
     Cmd.Subnets := ["10.9.0.0/16"] |}.

Definition west : Cmd.Endpoint :=
  {| Cmd.Name := "west-gw"; Cmd.ClusterID := "west";
     Cmd.Subnets := ["10.0.1.0/24"; "10.0.2.0/24"] |}.

Definition north : Cmd.Endpoint :=
  {| Cmd.Name := "north-gw"; Cmd.ClusterID := "north";
     Cmd.Subnets := ["10.1.0.0/33"; "10.0.3.0/24"] |}.

(** Two clusters, each with its Submariner resource. In [east] the
    gateway DaemonSet has one pod desired and none scheduled; [west] is
    healthy. A context, its configuration and its clients are all named
    by the cluster. *)
Definition submariner_of (cluster : string) : Cmd.Submariner :=
  {| Cmd.Submariner_Namespace := "submariner-operator";
     Cmd.Spec_GlobalCIDR := "";
     Cmd.Spec_ServiceDiscoveryEnabled := false;
     Cmd.Status_ClusterID := cluster |}.

Definition context (cluster : string) : Cmd.restConfig string :=
  {| Cmd.config := cluster; Cmd.clusterName := cluster |}.

Definition DaemonSets_Get (client namespace name : string) : error + Cmd.DaemonSet :=
  if String.eqb client "east" && String.eqb name "submariner-gateway"
  then inr {| Cmd.CurrentNumberScheduled := 0; Cmd.DesiredNumberScheduled := 1 |}
  else inr {| Cmd.CurrentNumberScheduled := 1; Cmd.DesiredNumberScheduled := 1 |}.

Definition Deployments_Get (client namespace name : string) : error + Cmd.Deployment :=
  inr {| Cmd.Replicas := Some 1%Z; Cmd.AvailableReplicas := 1 |}.

Definition checkPods : Cmd.restConfig string -> Cmd.Submariner -> string -> Cmd.Run bool :=
  Cmd.checkPods (fun c => inr c) DaemonSets_Get Deployments_Get (fun _ _ => inr []).

Definition checkOverlappingCIDRs : Cmd.restConfig string -> Cmd.Submariner -> Cmd.Run bool :=
  Cmd.checkOverlappingCIDRs (fun c => inr c) (fun _ _ => inr []) IsOverlapping.

Definition validateSubmarinerDeployment : string -> list string -> Cmd.Run unit :=
  Cmd.validateSubmarinerDeployment "submariner-operator" "Submariner is not installed"
    (fun _ contexts => inr (context <$> contexts))
    (fun c => Some (submariner_of c))
    (fun c => inr c) (fun _ _ => inr [])
    (fun c => inr c) DaemonSets_Get Deployments_Get (fun _ _ => inr [])
    IsOverlapping.

(** [json.MarshalIndent] with a tab as indentation, for registries whose
    strings need no escape and whose CIDR lists are not empty. *)
Definition tab : string := String "009"%char "".
Definition newline : string := String "010"%char "".

Fixpoint json_elements (indent : string) (elements : list string) : string :=
  match elements with
  | [] => ""
  | [element] => (indent ++ element ++ newline)%string
  | element :: rest =>
    (indent ++ element ++ "," ++ newline ++ json_elements indent rest)%string
  end.

Definition json_array (indent : string) (elements : list string) : string :=
  match elements with
  | [] => "[]"
  | _ => ("[" ++ newline ++ json_elements (indent ++ tab) elements ++ indent ++ "]")%string
  end.

Definition json_ClusterInfo (e : Broker.ClusterInfo) : string :=
  ("{" ++ newline
   ++ tab ++ tab ++ quote "cluster_id" ++ ": " ++ quote (Broker.ClusterID e)
   ++ "," ++ newline
   ++ tab ++ tab ++ quote "global_cidr" ++ ": "
   ++ json_array (tab ++ tab) (quote <$> Broker.GlobalCidr e) ++ newline
   ++ tab ++ "}")%string.

Definition json_MarshalIndent (clusterInfo : list Broker.ClusterInfo) : error + string :=
  inr (json_array "" (json_ClusterInfo <$> clusterInfo)).

(** Registries of the examples, and [json.Unmarshal] on their encodings. *)
Definition cluster_east : Broker.ClusterInfo :=
  {| Broker.ClusterID := "east"; Broker.GlobalCidr := ["242.0.0.0/16"] |}.

Definition cluster_west : Broker.ClusterInfo :=
  {| Broker.ClusterID := "west"; Broker.GlobalCidr := ["242.1.0.0/16"] |}.

Definition registries : list (list Broker.ClusterInfo) :=
  [ []; [cluster_east]; [cluster_west];
    [cluster_east; cluster_west]; [cluster_west; cluster_east] ].

Definition json_Unmarshal (text : string) : error + list Broker.ClusterInfo :=
  match
    List.find (fun clusterInfo =>
                 match json_MarshalIndent clusterInfo with
                 | inr encoded => String.eqb encoded text
                 | inl _ => false
                 end) registries
  with
  | Some clusterInfo => inr clusterInfo
  | None => inl (errorString "unexpected end of JSON input")
  end.

End Examples.

(** * Properties of the globalnet registry *)

Section BrokerProperties.

Import Broker.

Implicit Types (clusterInfo todo done : list ClusterInfo) (newCluster e : ClusterInfo).

Lemma merge_entry_same newCluster e :
  same_cluster newCluster e = true ->
  merge_entry newCluster e =
  {| ClusterID := ClusterID e; GlobalCidr := GlobalCidr newCluster |}.
Proof. unfold merge_entry. by intros ->. Qed.

Lemma merge_entry_other newCluster e :
  same_cluster newCluster e = false -> merge_entry newCluster e = e.
Proof. unfold merge_entry. by intros ->. Qed.

(** The loop, started at index [length done] on [done ++ todo], rewrites
    the matching entries of [todo] and leaves [done] alone. *)
Lemma merge_loop_spec newCluster done todo exists_ :
  merge_loop newCluster (length done) todo (done ++ todo) exists_ =
  (done ++ (merge_entry newCluster <$> todo),
   exists_ || existsb (same_cluster newCluster) todo).
Proof.
  revert done exists_.
  induction todo as [|value todo IH]; intros done exists_.
  - cbn. by rewrite orb_false_r.
  - cbn [merge_loop existsb]. rewrite fmap_cons.
    change (String.eqb (ClusterID value) (ClusterID newCluster))
      with (same_cluster newCluster value).
    destruct (same_cluster newCluster value) eqn:Hid.
    + rewrite (merge_entry_same _ _ Hid).
      set (value' := {| ClusterID := ClusterID value;
                        GlobalCidr := GlobalCidr newCluster |}).
      assert (alter (λ e, {| ClusterID := ClusterID e;
                             GlobalCidr := GlobalCidr newCluster |})
                (length done) (done ++ value :: todo)
              = (done ++ [value']) ++ todo) as ->.
      { rewrite alter_app_r_alt by lia. rewrite Nat.sub_diag. simpl.
        by rewrite <- app_assoc. }
      assert (S (length done) = length (done ++ [value'])) as ->.
      { rewrite length_app. simpl. lia. }
      rewrite IH, <- app_assoc. simpl. by rewrite orb_true_r.
    + rewrite (merge_entry_other _ _ Hid).
      assert (done ++ value :: todo = (done ++ [value]) ++ todo) as ->.
      { by rewrite <- app_assoc. }
      assert (S (length done) = length (done ++ [value])) as ->.
      { rewrite length_app. simpl. lia. }
      rewrite IH, <- app_assoc. simpl. done.
Qed.

Lemma upsert_spec clusterInfo newCluster :
  upsert clusterInfo newCluster =
  if existsb (same_cluster newCluster) clusterInfo
  then merge_entry newCluster <$> clusterInfo
  else clusterInfo ++ [ {| ClusterID := ClusterID newCluster;
                           GlobalCidr := GlobalCidr newCluster |} ].
Proof.
  unfold upsert.
  pose proof (merge_loop_spec newCluster [] clusterInfo false) as H.
  simpl in H. rewrite H.
  destruct (existsb _ clusterInfo) eqn:Hex; [done|].
  f_equal. clear H.
  induction clusterInfo as [|e l IH]; [done|].
  simpl in Hex. apply orb_false_iff in Hex as [He Hl].
  rewrite fmap_cons, IH by done. f_equal. by apply merge_entry_other.
Qed.

Lemma same_cluster_true newCluster e :
  same_cluster newCluster e = true <-> ClusterID e = ClusterID newCluster.
Proof. unfold same_cluster. apply String.eqb_eq. Qed.

Lemma same_cluster_false newCluster e :
  same_cluster newCluster e = false <-> ClusterID e ≠ ClusterID newCluster.
Proof. unfold same_cluster. apply String.eqb_neq. Qed.

Lemma existsb_same_cluster newCluster clusterInfo :
  existsb (same_cluster newCluster) clusterInfo = true <->
  ∃ e, e ∈ clusterInfo ∧ ClusterID e = ClusterID newCluster.
Proof.
  rewrite existsb_exists. split.
  - intros (e & Hin & He). exists e. split; [by apply list_elem_of_In|].
    by apply same_cluster_true.
  - intros (e & Hin & He). exists e. split; [by apply list_elem_of_In|].
    by apply same_cluster_true.
Qed.

Lemma merge_entry_ClusterID newCluster e :
  ClusterID (merge_entry newCluster e) = ClusterID e.
Proof. unfold merge_entry. by destruct (same_cluster _ _). Qed.

Lemma upsert_ClusterIDs clusterInfo newCluster :
  ClusterID <$> upsert clusterInfo newCluster =
  if existsb (same_cluster newCluster) clusterInfo
  then ClusterID <$> clusterInfo
  else (ClusterID <$> clusterInfo) ++ [ClusterID newCluster].
Proof.
  rewrite upsert_spec. destruct (existsb _ _).
  - rewrite <- list_fmap_compose. apply list_fmap_ext.
    intros i e _. apply merge_entry_ClusterID.
  - by rewrite fmap_app.
Qed.

Lemma existsb_same_cluster_false newCluster clusterInfo :
  existsb (same_cluster newCluster) clusterInfo = false <->
  ∀ e, e ∈ clusterInfo → ClusterID e ≠ ClusterID newCluster.
Proof.
  split.
  - intros Hex e Hin Heq.
    assert (existsb (same_cluster newCluster) clusterInfo = true) as Htrue.
    { apply existsb_same_cluster. eauto. }
    congruence.
  - intros Hall. apply not_true_is_false. intros Hex.
    apply existsb_same_cluster in Hex as (e & Hin & Heq).
    by apply (Hall e).
Qed.

Lemma merge_entry_idemp newCluster e :
  merge_entry newCluster (merge_entry newCluster e) = merge_entry newCluster e.
Proof.
  destruct (same_cluster newCluster e) eqn:Hid.
  - rewrite (merge_entry_same _ _ Hid). by rewrite merge_entry_same.
  - by rewrite !(merge_entry_other _ _ Hid).
Qed.

Lemma merge_entry_absent newCluster clusterInfo :
  existsb (same_cluster newCluster) clusterInfo = false ->
  merge_entry newCluster <$> clusterInfo = clusterInfo.
Proof.
  intros Hex. rewrite <- (list_fmap_id clusterInfo) at 2.
  apply list_fmap_ext. intros i e Hi. apply merge_entry_other.
  apply same_cluster_false.
  eapply existsb_same_cluster_false; [done|].
  by eapply list_elem_of_lookup_2.
Qed.

Lemma newCluster_eta newCluster :
  {| ClusterID := ClusterID newCluster; GlobalCidr := GlobalCidr newCluster |}
  = newCluster.
Proof. by destruct newCluster. Qed.

(** C3: [upsert] leaves every entry of another cluster unchanged at its
    position; an entry of the given cluster has its CIDR list replaced at
    the same position, and the list keeps its length; when no entry has
    the given cluster ID the new entry is appended at the end, so that
    [[A; B]] and an upsert of a third cluster give [[A; B; C]]. *)
Theorem C3_upsert_in_place_or_append clusterInfo newCluster :
  (∀ i e, clusterInfo !! i = Some e → ClusterID e ≠ ClusterID newCluster →
     upsert clusterInfo newCluster !! i = Some e)
  ∧ (∀ i e, clusterInfo !! i = Some e → ClusterID e = ClusterID newCluster →
     upsert clusterInfo newCluster !! i = Some newCluster)
  ∧ ((∃ e, e ∈ clusterInfo ∧ ClusterID e = ClusterID newCluster) →
     length (upsert clusterInfo newCluster) = length clusterInfo)
  ∧ ((∀ e, e ∈ clusterInfo → ClusterID e ≠ ClusterID newCluster) →
     upsert clusterInfo newCluster = clusterInfo ++ [newCluster])
  ∧ (∀ A B, clusterInfo = [A; B] →
     ClusterID A ≠ ClusterID newCluster → ClusterID B ≠ ClusterID newCluster →
     upsert clusterInfo newCluster = [A; B; newCluster]).
Proof.
  assert (∀ i e, clusterInfo !! i = Some e →
            upsert clusterInfo newCluster !! i = Some (merge_entry newCluster e))
    as Hlookup.
  { intros i e Hi. rewrite upsert_spec.
    destruct (existsb _ clusterInfo) eqn:Hex.
    - by rewrite list_lookup_fmap, Hi.
    - rewrite lookup_app_l by (by eapply lookup_lt_Some).
      rewrite Hi. f_equal. symmetry. apply merge_entry_other.
      apply same_cluster_false.
      eapply existsb_same_cluster_false; [done|].
      by eapply list_elem_of_lookup_2. }
  assert ((∀ e, e ∈ clusterInfo → ClusterID e ≠ ClusterID newCluster) →
          upsert clusterInfo newCluster = clusterInfo ++ [newCluster]) as Happend.
  { intros Hall. rewrite upsert_spec.
    apply existsb_same_cluster_false in Hall. rewrite Hall.
    by rewrite newCluster_eta. }
  repeat split.
  - intros i e Hi Hne. rewrite (Hlookup i e Hi). f_equal.
    apply merge_entry_other. by apply same_cluster_false.
  - intros i e Hi Heq. rewrite (Hlookup i e Hi). f_equal.
    rewrite merge_entry_same by (by apply same_cluster_true).
    rewrite Heq. apply newCluster_eta.
  - intros Hex. apply existsb_same_cluster in Hex.
    rewrite upsert_spec, Hex. apply length_fmap.
  - exact Happend.
  - intros A B -> HA HB. apply Happend.
    intros e He. apply elem_of_cons in He as [->|He]; [done|].
    apply elem_of_cons in He as [->|He]; [done|].
    by apply elem_of_nil in He.
Qed.

Lemma upsert_twice clusterInfo newCluster :
  upsert (upsert clusterInfo newCluster) newCluster = upsert clusterInfo newCluster.
Proof.
  rewrite (upsert_spec clusterInfo).
  destruct (existsb (same_cluster newCluster) clusterInfo) eqn:Hex.
  - rewrite upsert_spec.
    assert (existsb (same_cluster newCluster) (merge_entry newCluster <$> clusterInfo)
            = true) as ->.
    { apply existsb_same_cluster in Hex as (e & Hin & Heq).
      apply existsb_same_cluster. exists (merge_entry newCluster e). split.
      - by apply list_elem_of_fmap_2.
      - by rewrite merge_entry_ClusterID. }
    rewrite <- list_fmap_compose. apply list_fmap_ext.
    intros i e _. apply merge_entry_idemp.
  - rewrite upsert_spec.
    assert (existsb (same_cluster newCluster)
              (clusterInfo ++ [ {| ClusterID := ClusterID newCluster;
                                   GlobalCidr := GlobalCidr newCluster |} ])
            = true) as ->.
    { rewrite existsb_app. simpl. unfold same_cluster at 2. simpl.
      rewrite String.eqb_refl. by rewrite orb_true_r. }
    rewrite fmap_app, (merge_entry_absent _ _ Hex). f_equal. simpl.
    f_equal. rewrite merge_entry_same; [done|]. unfold same_cluster. simpl.
    apply String.eqb_refl.
Qed.

(** C4: [upsert] is idempotent: a second upsert with the same cluster ID
    and CIDR list gives the same list as the first. *)
Theorem C4_upsert_idempotent clusterInfo newCluster :
  upsert (upsert clusterInfo newCluster) newCluster = upsert clusterInfo newCluster.
Proof. apply upsert_twice. Qed.

(** C5: when no two entries of the decoded list share a cluster ID, no
    two entries of the list [upsert] produces do. *)
Theorem C5_upsert_preserves_unique_clusterID clusterInfo newCluster :
  NoDup (ClusterID <$> clusterInfo) →
  NoDup (ClusterID <$> upsert clusterInfo newCluster).
Proof.
  intros Hnd. rewrite upsert_ClusterIDs.
  destruct (existsb (same_cluster newCluster) clusterInfo) eqn:Hex; [done|].
  apply NoDup_app. split; [done|]. split.
  - intros id Hid Hnew. apply list_elem_of_singleton in Hnew as ->.
    apply list_elem_of_fmap in Hid as (e & Heq & Hin).
    by eapply existsb_same_cluster_false.
  - apply NoDup_singleton.
Qed.

Lemma C3_upsert_in_place_or_append_witness :
  upsert [ {| ClusterID := "A"; GlobalCidr := ["242.0.0.0/16"] |};
           {| ClusterID := "B"; GlobalCidr := ["242.1.0.0/16"] |} ]
         {| ClusterID := "C"; GlobalCidr := ["242.2.0.0/16"] |}
  = [ {| ClusterID := "A"; GlobalCidr := ["242.0.0.0/16"] |};
      {| ClusterID := "B"; GlobalCidr := ["242.1.0.0/16"] |};
      {| ClusterID := "C"; GlobalCidr := ["242.2.0.0/16"] |} ].
Proof.
  apply (C3_upsert_in_place_or_append
           [ {| ClusterID := "A"; GlobalCidr := ["242.0.0.0/16"] |};
             {| ClusterID := "B"; GlobalCidr := ["242.1.0.0/16"] |} ]
           {| ClusterID := "C"; GlobalCidr := ["242.2.0.0/16"] |}).
  - reflexivity.
  - simpl. discriminate.
  - simpl. discriminate.
Defined.

Lemma C5_upsert_preserves_unique_clusterID_witness :
  NoDup (ClusterID <$> [ {| ClusterID := "A"; GlobalCidr := ["242.0.0.0/16"] |};
                         {| ClusterID := "B"; GlobalCidr := ["242.1.0.0/16"] |} ])
  ∧ NoDup (ClusterID <$>
             upsert [ {| ClusterID := "A"; GlobalCidr := ["242.0.0.0/16"] |};
                      {| ClusterID := "B"; GlobalCidr := ["242.1.0.0/16"] |} ]
                    {| ClusterID := "B"; GlobalCidr := ["242.9.0.0/16"] |}).
Proof.
  assert (NoDup (ClusterID <$>
                   [ {| ClusterID := "A"; GlobalCidr := ["242.0.0.0/16"] |};
                     {| ClusterID := "B"; GlobalCidr := ["242.1.0.0/16"] |} ])) as H.
  { apply (bool_decide_unpack _). vm_compute. exact I. }
  split; [exact H|].
  exact (C5_upsert_preserves_unique_clusterID _ _ H).
Defined.

End BrokerProperties.

Section BrokerRecords.

Import Broker.

Context {RestConfig : Type}.
Variable NewForConfig : RestConfig -> error + Clientset.
Variable json_Marshal : string -> error + string.

Lemma Sprint_uint_decimal (n : N) :
  N.of_uint <$> NilZero.uint_of_string (Sprint_uint n) = Some n.
Proof.
  unfold Sprint_uint. rewrite NilZero.usu.
  - simpl. f_equal. apply DecimalN.Unsigned.of_to.
  - destruct n as [|p]; [discriminate|]. apply DecimalPos.Unsigned.to_uint_nonnil.
Qed.

(** C9: [NewGlobalnetConfigMap] produces a record with the fixed name, in
    the given namespace, whose data holds [globalnetEnabled] as "true" or
    "false" and [clusterinfo] as the empty JSON array, and holds
    [globalnetCidrRange] (the range as [json.Marshal] quotes it) and
    [globalnetClusterSize] (the size in decimal) exactly when globalnet
    is enabled. *)
Theorem C9_NewGlobalnetConfigMap_fields (globalnetEnabled : bool)
    (defaultGlobalCidrRange : string) (defaultGlobalClusterSize : N)
    (namespace : string) (cidrRange : string) :
  json_Marshal defaultGlobalCidrRange = inr cidrRange →
  ∃ cm, NewGlobalnetConfigMap json_Marshal globalnetEnabled defaultGlobalCidrRange
          defaultGlobalClusterSize namespace = inr cm
    ∧ Name (metadata cm) = GlobalCIDRConfigMapName
    ∧ Namespace (metadata cm) = namespace
    ∧ Data cm !! GlobalnetStatusKey
      = Some (if globalnetEnabled then "true" else "false")
    ∧ Data cm !! ClusterInfoKey = Some "[]"
    ∧ Data cm !! GlobalnetCidrRange
      = (if globalnetEnabled then Some cidrRange else None)
    ∧ Data cm !! GlobalnetClusterSize
      = (if globalnetEnabled then Some (Sprint_uint defaultGlobalClusterSize) else None)
    ∧ N.of_uint <$> NilZero.uint_of_string (Sprint_uint defaultGlobalClusterSize)
      = Some defaultGlobalClusterSize
    ∧ dom (Data cm)
      = (if globalnetEnabled
         then {[GlobalnetStatusKey; GlobalnetCidrRange; GlobalnetClusterSize;
                ClusterInfoKey]}
         else {[GlobalnetStatusKey; ClusterInfoKey]}).
Proof.
  intros Hjson. unfold NewGlobalnetConfigMap. rewrite Hjson.
  eexists. split; [reflexivity|]. simpl.
  split; [reflexivity|]. split; [reflexivity|].
  destruct globalnetEnabled; simpl.
  - repeat split; try reflexivity. apply Sprint_uint_decimal.
  - repeat split; try reflexivity. apply Sprint_uint_decimal.
Qed.

(** C6: [CreateGlobalnetConfigMap] returns no error when the creation
    succeeds or fails with AlreadyExists, and returns any other creation
    error as it is, leaving the store as the creation left it. On the
    registry store a record that is already present is left unchanged,
    and a second call with the same arguments neither fails nor changes
    the store. *)
Theorem C6_CreateGlobalnetConfigMap_idempotent (config : RestConfig)
    (globalnetEnabled : bool) (defaultGlobalCidrRange : string)
    (defaultGlobalClusterSize : N) (namespace : string)
    (clientset : Clientset) (gnConfigMap : ConfigMap) :
  let create := CreateGlobalnetConfigMap NewForConfig json_Marshal config
                  globalnetEnabled defaultGlobalCidrRange defaultGlobalClusterSize
                  namespace in
  NewForConfig config = inr clientset →
  NewGlobalnetConfigMap json_Marshal globalnetEnabled defaultGlobalCidrRange
    defaultGlobalClusterSize namespace = inr gnConfigMap →
  (∀ store r store',
     Create (ConfigMaps clientset namespace) gnConfigMap store = (r, store') →
     create store =
     (match r with
      | inr _ => None
      | inl err => if IsAlreadyExists err then None else Some err
      end, store'))
  ∧ (clientset = storeClientset →
     ∀ store existing,
       store !! (namespace, GlobalCIDRConfigMapName) = Some existing →
       create store = (None, store))
  ∧ (clientset = storeClientset →
     ∀ store,
       (create store).1 = None
       ∧ create (create store).2 = (None, (create store).2)).
Proof.
  intros create Hclient Hnew.
  assert (Name (metadata gnConfigMap) = GlobalCIDRConfigMapName) as Hname.
  { unfold NewGlobalnetConfigMap in Hnew.
    destruct (json_Marshal defaultGlobalCidrRange); [discriminate|].
    by inversion Hnew. }
  assert (∀ store r store',
     Create (ConfigMaps clientset namespace) gnConfigMap store = (r, store') →
     create store =
     (match r with
      | inr _ => None
      | inl err => if IsAlreadyExists err then None else Some err
      end, store')) as Hgeneral.
  { intros store r store' Hcreate. unfold create, CreateGlobalnetConfigMap.
    rewrite Hclient, Hnew, Hcreate.
    destruct r as [err|cm]; [|done]. by destruct (IsAlreadyExists err). }
  assert (clientset = storeClientset →
     ∀ store existing,
       store !! (namespace, GlobalCIDRConfigMapName) = Some existing →
       create store = (None, store)) as Hpresent.
  { intros -> store existing Hstore.
    rewrite (Hgeneral store
               (inl (StatusError StatusReasonAlreadyExists GlobalCIDRConfigMapName))
               store); [done|].
    simpl. by rewrite Hname, Hstore. }
  split; [exact Hgeneral|]. split; [exact Hpresent|].
  intros Hstore store.
  destruct (store !! (namespace, GlobalCIDRConfigMapName)) as [existing|] eqn:Hlookup.
  - rewrite !(Hpresent Hstore store existing Hlookup). simpl.
    split; [done|]. by apply (Hpresent Hstore store existing).
  - assert (create store
            = (None, <[(namespace, GlobalCIDRConfigMapName) := gnConfigMap]> store))
      as Hfirst.
    { rewrite (Hgeneral store (inr gnConfigMap)
                 (<[(namespace, GlobalCIDRConfigMapName) := gnConfigMap]> store));
        [done|].
      subst clientset. simpl. by rewrite Hname, Hlookup. }
    rewrite !Hfirst. simpl. split; [done|].
    apply (Hpresent Hstore _ gnConfigMap). apply lookup_insert_eq.
Qed.

End BrokerRecords.

Section BrokerUpdate.

Import Broker.

Variable json_Unmarshal : string -> error + list ClusterInfo.
Variable json_MarshalIndent : list ClusterInfo -> error + string.

Local Abbreviation UpdateGlobalnetConfigMap :=
  (UpdateGlobalnetConfigMap json_Unmarshal json_MarshalIndent).

(** [UpdateGlobalnetConfigMap] writes the encoding of the merged list
    under [clusterinfo] and leaves the rest of the ConfigMap alone. *)
Lemma UpdateGlobalnetConfigMap_writes (k8sClientset : Clientset) (namespace : string)
    (configMap : ConfigMap) (newCluster : ClusterInfo) (store : Store)
    (clusterInfo : list ClusterInfo) (data : string) :
  json_Unmarshal (default "" (Data configMap !! ClusterInfoKey)) = inr clusterInfo ->
  json_MarshalIndent (upsert clusterInfo newCluster) = inr data ->
  (UpdateGlobalnetConfigMap k8sClientset namespace configMap newCluster store).1.2
  = {| metadata := metadata configMap;
       Data := <[ClusterInfoKey := data]> (Data configMap) |}.
Proof.
  intros Hdecode Hencode. unfold Broker.UpdateGlobalnetConfigMap.
  rewrite Hdecode, Hencode. by destruct (Update _ _ _) as [[err|cm] store'].
Qed.

(** When the written text decodes to the list it encodes, a second update
    with the same cluster writes the same ConfigMap. *)
Lemma UpdateGlobalnetConfigMap_twice (k8sClientset : Clientset) (namespace : string)
    (configMap : ConfigMap) (newCluster : ClusterInfo) (store store' : Store)
    (clusterInfo : list ClusterInfo) (data : string) :
  json_Unmarshal (default "" (Data configMap !! ClusterInfoKey)) = inr clusterInfo ->
  json_MarshalIndent (upsert clusterInfo newCluster) = inr data ->
  json_Unmarshal data = inr (upsert clusterInfo newCluster) ->
  let configMap' :=
    (UpdateGlobalnetConfigMap k8sClientset namespace configMap newCluster store).1.2 in
  (UpdateGlobalnetConfigMap k8sClientset namespace configMap' newCluster store').1.2
  = configMap'.
Proof.
  intros Hdecode Hencode Hround configMap'. subst configMap'.
  rewrite (UpdateGlobalnetConfigMap_writes _ _ _ _ _ _ _ Hdecode Hencode).
  erewrite UpdateGlobalnetConfigMap_writes.
  - simpl. by rewrite insert_insert_eq.
  - simpl. rewrite lookup_insert_eq. simpl. exact Hround.
  - by rewrite upsert_twice.
Qed.

End BrokerUpdate.

Lemma C9_NewGlobalnetConfigMap_fields_witness :
  ∃ cm, Broker.NewGlobalnetConfigMap Examples.json_Marshal
          true "242.0.0.0/8" 65536 "submariner-k8s-broker" = inr cm
    ∧ Broker.Data cm !! Broker.GlobalnetClusterSize = Some "65536".
Proof.
  destruct (C9_NewGlobalnetConfigMap_fields
              Examples.json_Marshal
              true "242.0.0.0/8" 65536 "submariner-k8s-broker"
              (Examples.quote "242.0.0.0/8")
              eq_refl)
    as (cm & Hcm & _ & _ & _ & _ & _ & Hsize & _).
  exists cm. split; [exact Hcm | exact Hsize].
Defined.

Lemma C6_CreateGlobalnetConfigMap_idempotent_witness :
  let create := Broker.CreateGlobalnetConfigMap
                  (λ _ : unit, inr Broker.storeClientset)
                  Examples.json_Marshal
                  tt false "" 0 "submariner-k8s-broker" in
  (create ∅).1 = None ∧ create (create ∅).2 = (None, (create ∅).2).
Proof.
  intros create.
  refine (proj2 (proj2 (C6_CreateGlobalnetConfigMap_idempotent
            (λ _ : unit, inr Broker.storeClientset)
            Examples.json_Marshal
            tt false "" 0 "submariner-k8s-broker"
            Broker.storeClientset _ eq_refl eq_refl)) eq_refl ∅).
Defined.

(** * Properties of the intersection test *)

Section CidrProperties.

Import Cidr.

Local Open Scope Z_scope.

Lemma pow2_pos (k : Z) : 0 <= k -> 0 < 2 ^ k.
Proof. intros. apply Z.pow_pos_nonneg; lia. Qed.

(** Masking keeps the [l] leading bits of a [k + l]-bit number. *)
Lemma land_CIDRMask (x l k : Z) :
  0 <= k -> 0 <= l -> 0 <= x < 2 ^ (k + l) ->
  Z.land x (Z.shiftl (Z.ones l) k) = x / 2 ^ k * 2 ^ k.
Proof.
  intros Hk Hl Hx.
  rewrite <- Z.shiftr_div_pow2, <- Z.shiftl_mul_pow2 by lia.
  apply Z.bits_inj'. intros n Hn.
  rewrite Z.land_spec, !Z.shiftl_spec by lia.
  destruct (Z.lt_ge_cases n k) as [Hlt|Hge].
  - rewrite !(Z.testbit_neg_r _ (n - k)) by lia. apply andb_false_r.
  - rewrite Z.shiftr_spec by lia.
    replace (n - k + k) with n by lia.
    destruct (Z.lt_ge_cases (n - k) l) as [Hlow|Hhigh].
    + rewrite Z.ones_spec_low by lia. apply andb_true_r.
    + rewrite Z.ones_spec_high by lia. rewrite andb_false_r.
      rewrite <- (Z.mod_small x (2 ^ (k + l))) by lia.
      rewrite Z.mod_pow2_bits_high by lia. reflexivity.
Qed.

Lemma land_Mask (x ones bits : Z) :
  0 <= ones <= bits -> 0 <= x < 2 ^ bits ->
  Z.land x (CIDRMask ones bits) = x / 2 ^ (bits - ones) * 2 ^ (bits - ones).
Proof.
  intros Hones Hx. unfold CIDRMask. apply land_CIDRMask; try lia.
  replace (bits - ones + ones) with bits by lia. exact Hx.
Qed.

(** Two numbers agree on the leading bits exactly when the second lies in
    the block of the first. *)
Lemma same_block (x y k : Z) :
  0 <= k ->
  x / 2 ^ k * 2 ^ k = y / 2 ^ k * 2 ^ k <->
  x / 2 ^ k * 2 ^ k <= y <= x / 2 ^ k * 2 ^ k + 2 ^ k - 1.
Proof.
  intros Hk. pose proof (pow2_pos k Hk) as Hpos.
  pose proof (Z.div_mod y (2 ^ k) ltac:(lia)) as Hy.
  pose proof (Z.mod_pos_bound y (2 ^ k) Hpos) as Hy'.
  split.
  - intros Heq. rewrite Heq. lia.
  - intros Hrange. f_equal.
    apply (Z.div_unique y (2 ^ k) (x / 2 ^ k) (y - x / 2 ^ k * 2 ^ k)); lia.
Qed.

Lemma bits_nonneg (f : Family) : 0 <= bits f.
Proof. destruct f; simpl; lia. Qed.

(** The network of a valid prefix: its address rounded down to a multiple
    of the block size. *)
Lemma network_val (f : Family) (address ones : Z) :
  valid_prefix f address ones ->
  val (IP (network f address ones))
  = address / 2 ^ (bits f - ones) * 2 ^ (bits f - ones).
Proof. intros [Ha Hl]. simpl. by apply land_Mask. Qed.

Lemma network_val_bounds (f : Family) (address ones : Z) :
  valid_prefix f address ones ->
  0 <= val (IP (network f address ones)) <= address.
Proof.
  intros Hv. rewrite (network_val _ _ _ Hv). destruct Hv as [Ha Hl].
  pose proof (pow2_pos (bits f - ones) ltac:(lia)) as Hpos.
  pose proof (Z.div_mod address (2 ^ (bits f - ones)) ltac:(lia)).
  pose proof (Z.mod_pos_bound address (2 ^ (bits f - ones)) Hpos).
  pose proof (Z.div_pos address (2 ^ (bits f - ones)) ltac:(lia) Hpos).
  nia.
Qed.

Lemma network_first (f : Family) (address ones : Z) :
  valid_prefix f address ones ->
  first_address (network f address ones) = val (IP (network f address ones)).
Proof.
  intros Hv. pose proof (network_val_bounds _ _ _ Hv) as Hb.
  pose proof (network_val _ _ _ Hv) as Hval. destruct Hv as [Ha Hl].
  unfold first_address, Mask.
  change (fam (IP (network f address ones))) with f.
  change (Cidr.ones (network f address ones)) with ones.
  rewrite land_Mask by lia. rewrite Hval.
  rewrite Z.div_mul; [done|].
  pose proof (pow2_pos (bits f - ones) ltac:(lia)). lia.
Qed.

(** [covers] tests membership in the range of the prefix. *)
Lemma covers_in_range (f : Family) (address ones : Z) (ip : IPAddr) :
  valid_prefix f address ones -> valid_address ip ->
  covers (network f address ones) ip = true <-> in_range (network f address ones) ip.
Proof.
  intros Hv Hip.
  pose proof (network_first _ _ _ Hv) as Hfirst.
  pose proof (network_val _ _ _ Hv) as Hval.
  destruct Hv as [Ha Hl].
  pose proof (pow2_pos (bits f - ones) ltac:(lia)) as Hpos.
  set (n := network f address ones) in *.
  set (B := 2 ^ (bits f - ones)) in *.
  set (base := address / B * B) in *.
  assert (base / B * B = base) as Hbase.
  { unfold base. rewrite Z.div_mul by lia. done. }
  assert (fam ip = f -> Z.land (val ip) (Mask n) = val ip / B * B) as Hland.
  { intros Hfam. unfold valid_address in Hip. rewrite Hfam in Hip.
    unfold Mask. apply land_Mask; [exact Hl|exact Hip]. }
  unfold covers, in_range, last_address.
  fold (first_address n). rewrite Hfirst, Hval.
  change (fam (IP n)) with f. change (Cidr.ones n) with ones.
  fold B.
  rewrite andb_true_iff, bool_decide_eq_true, Z.eqb_eq.
  pose proof (same_block base (val ip) (bits f - ones) ltac:(lia)) as Hblock.
  fold B in Hblock. rewrite Hbase in Hblock.
  split.
  - intros [Hfam Hmask]. split; [done|].
    rewrite Hland in Hmask by done. by apply Hblock.
  - intros [Hfam Hrange]. split; [done|].
    rewrite Hland by done. by apply Hblock.
Qed.

(** A multiple of a block size that is below [x] is below [x] rounded
    down to the block. *)
Lemma block_floor (c x k : Z) :
  0 <= k -> c * 2 ^ k <= x -> c * 2 ^ k <= x / 2 ^ k * 2 ^ k.
Proof.
  intros Hk Hle. pose proof (pow2_pos k Hk) as Hpos.
  apply Z.mul_le_mono_nonneg_r; [lia|].
  apply Z.div_le_lower_bound; lia.
Qed.

Lemma in_range_network (f : Family) (address ones : Z) (ip : IPAddr) :
  valid_prefix f address ones ->
  in_range (network f address ones) ip <->
  fam ip = f
  ∧ address / 2 ^ (bits f - ones) * 2 ^ (bits f - ones) <= val ip
    <= address / 2 ^ (bits f - ones) * 2 ^ (bits f - ones) + 2 ^ (bits f - ones) - 1.
Proof.
  intros Hv. unfold in_range, last_address.
  rewrite (network_first _ _ _ Hv), (network_val _ _ _ Hv). done.
Qed.

(** The network address of a prefix lies in its own range. *)
Lemma network_in_own_range (f : Family) (address ones : Z) :
  valid_prefix f address ones ->
  valid_address (IP (network f address ones))
  ∧ in_range (network f address ones) (IP (network f address ones)).
Proof.
  intros Hv. pose proof (network_val_bounds _ _ _ Hv) as Hb.
  split.
  - unfold valid_address. destruct Hv as [Ha Hl].
    change (fam (IP (network f address ones))) with f. lia.
  - apply in_range_network; [done|]. split; [done|].
    rewrite (network_val _ _ _ Hv).
    destruct Hv as [Ha Hl].
    pose proof (pow2_pos (bits f - ones) ltac:(lia)). lia.
Qed.

(** When two prefixes of one family share an address, the network address
    of the longer prefix lies in the range of the shorter one. *)
Lemma in_range_nested (f : Family) (a1 l1 a2 l2 : Z) (ip : IPAddr) :
  valid_prefix f a1 l1 -> valid_prefix f a2 l2 -> l1 <= l2 ->
  in_range (network f a1 l1) ip -> in_range (network f a2 l2) ip ->
  in_range (network f a1 l1) (IP (network f a2 l2)).
Proof.
  intros Hv1 Hv2 Hle Hr1 Hr2.
  apply (in_range_network _ _ _ _ Hv1) in Hr1 as [Hfam Hr1].
  apply (in_range_network _ _ _ _ Hv2) in Hr2 as [_ Hr2].
  apply in_range_network; [done|]. split; [done|].
  rewrite (network_val _ _ _ Hv2).
  destruct Hv1 as [Ha1 Hl1], Hv2 as [Ha2 Hl2].
  set (k1 := bits f - l1) in *. set (k2 := bits f - l2) in *.
  assert (0 <= k2 <= k1) as Hk by (unfold k1, k2; lia).
  pose proof (pow2_pos k1 ltac:(lia)) as Hpos1.
  pose proof (pow2_pos k2 ltac:(lia)) as Hpos2.
  assert (a2 / 2 ^ k2 * 2 ^ k2 = val ip / 2 ^ k2 * 2 ^ k2) as Hblock.
  { pose proof (same_block (a2 / 2 ^ k2 * 2 ^ k2) (val ip) k2 ltac:(lia)) as Hsame.
    rewrite Z.div_mul in Hsame by lia. by apply Hsame. }
  rewrite Hblock. split.
  - assert (a1 / 2 ^ k1 * 2 ^ k1 = a1 / 2 ^ k1 * 2 ^ (k1 - k2) * 2 ^ k2) as ->.
    { rewrite <- Z.mul_assoc, <- Z.pow_add_r by lia.
      by replace (k1 - k2 + k2) with k1 by lia. }
    apply block_floor; [lia|].
    rewrite <- Z.mul_assoc, <- Z.pow_add_r by lia.
    replace (k1 - k2 + k2) with k1 by lia. lia.
  - pose proof (Z.div_mod (val ip) (2 ^ k2) ltac:(lia)).
    pose proof (Z.mod_pos_bound (val ip) (2 ^ k2) Hpos2). lia.
Qed.

Lemma covers_share_address (f1 : Family) (a1 l1 : Z) (f2 : Family) (a2 l2 : Z) :
  valid_prefix f1 a1 l1 -> valid_prefix f2 a2 l2 ->
  covers (network f1 a1 l1) (IP (network f2 a2 l2))
  || covers (network f2 a2 l2) (IP (network f1 a1 l1)) = true <->
  ∃ ip, valid_address ip
        ∧ in_range (network f1 a1 l1) ip ∧ in_range (network f2 a2 l2) ip.
Proof.
  intros Hv1 Hv2.
  pose proof (network_in_own_range _ _ _ Hv1) as [Hvalid1 Hown1].
  pose proof (network_in_own_range _ _ _ Hv2) as [Hvalid2 Hown2].
  rewrite orb_true_iff. split.
  - intros [Hc|Hc].
    + exists (IP (network f2 a2 l2)). split; [done|]. split; [|done].
      by apply covers_in_range.
    + exists (IP (network f1 a1 l1)). split; [done|]. split; [done|].
      by apply covers_in_range.
  - intros (ip & Hip & Hr1 & Hr2).
    assert (f1 = f2) as <-.
    { destruct Hr1 as [H1 _], Hr2 as [H2 _]. simpl in H1, H2. congruence. }
    destruct (Z.le_gt_cases l1 l2) as [Hle|Hgt].
    + left. apply covers_in_range; [done..|].
      by apply (in_range_nested f1 a1 l1 a2 l2 ip).
    + right. apply covers_in_range; [done..|].
      apply (in_range_nested f1 a2 l2 a1 l1 ip); [done..|lia|done|done].
Qed.

(** The network address of an IPv6 prefix shorter than 96 bits is not
    IPv4-mapped: bit 32 of a mapped address is set, and the mask clears
    it. *)
Lemma mapped_ones (a l : Z) :
  valid_prefix IPv6 a l -> mapped (IP (network IPv6 a l)) = true -> 96 <= l.
Proof.
  intros Hv Hmapped. destruct (Z.le_gt_cases 96 l) as [|Hshort]; [done|exfalso].
  unfold mapped in Hmapped. cbn [fam IP network val] in Hmapped.
  apply Z.eqb_eq in Hmapped.
  assert (Z.testbit (Z.shiftr (Z.land a (CIDRMask l (bits IPv6))) 32) 0 = true)
    as Hbit by (by rewrite Hmapped).
  rewrite Z.shiftr_spec, Z.land_spec in Hbit by lia.
  unfold CIDRMask in Hbit. destruct Hv as [_ Hl]. simpl in Hl.
  rewrite Z.shiftl_spec in Hbit by lia.
  rewrite (Z.testbit_neg_r _ (0 + 32 - (bits IPv6 - l))) in Hbit
    by (simpl; lia).
  by rewrite andb_false_r in Hbit.
Qed.

(** The last four bytes of the mask of a mapped prefix are the mask of
    the IPv4 prefix it stands for. *)
Lemma Mask_cut (l : Z) :
  96 <= l <= 128 -> Z.land (CIDRMask l 128) (Z.ones 32) = CIDRMask (l - 96) 32.
Proof.
  intros Hl. unfold CIDRMask. apply Z.bits_inj'. intros n Hn.
  rewrite Z.land_spec, !Z.shiftl_spec by lia.
  replace (32 - (l - 96)) with (128 - l) by lia.
  destruct (Z.lt_ge_cases n 32) as [Hlow|Hhigh].
  - rewrite (Z.ones_spec_low 32) by lia. rewrite andb_true_r.
    destruct (Z.lt_ge_cases n (128 - l)) as [Hneg|Hpos].
    + by rewrite !Z.testbit_neg_r by lia.
    + by rewrite !Z.ones_spec_low by lia.
  - rewrite (Z.ones_spec_high 32) by lia. rewrite andb_false_r.
    by rewrite Z.ones_spec_high by lia.
Qed.

Lemma land_cut (a l : Z) :
  96 <= l <= 128 ->
  Z.land (Z.land a (CIDRMask l 128)) (Z.ones 32)
  = Z.land (Z.land a (Z.ones 32)) (CIDRMask (l - 96) 32).
Proof.
  intros Hl. rewrite <- !Z.land_assoc, (Mask_cut l Hl). f_equal.
  rewrite <- (Mask_cut l Hl), (Z.land_comm (CIDRMask l 128)), Z.land_assoc.
  by rewrite Z.land_diag.
Qed.

(** What a valid prefix is compared as is again the network of a valid
    prefix. *)
Lemma compared_as_network (f : Family) (a l : Z) :
  valid_prefix f a l ->
  ∃ f' a' l', valid_prefix f' a' l'
              ∧ compared_as (network f a l) = network f' a' l'.
Proof.
  intros Hv. unfold compared_as.
  destruct (mapped (IP (network f a l))) eqn:Hmapped; [|by exists f, a, l].
  destruct f; [done|].
  pose proof (mapped_ones a l Hv Hmapped) as Hlong.
  destruct Hv as [Ha Hl]. simpl in Hl.
  exists IPv4, (Z.land a (Z.ones 32)), (l - 96). split.
  - split; [|simpl; lia]. rewrite Z.land_ones by lia.
    apply Z.mod_pos_bound. simpl. lia.
  - unfold network. cbn [IP val ones bits]. by rewrite land_cut by lia.
Qed.

Lemma compared_as_unmapped (n : IPNet) :
  mapped (IP n) = false -> compared_as n = n.
Proof. intros H. unfold compared_as. by rewrite H. Qed.

(** The address [To4] makes of a network address is the address of the
    prefix the network is compared as. *)
Lemma To4_compared_as (n : IPNet) :
  default (IP n) (To4 (IP n)) = IP (compared_as n).
Proof.
  unfold To4, compared_as, mapped.
  destruct (fam (IP n)) eqn:Hfam; [done|].
  by destruct (_ =? _).
Qed.

(** The network number and the mask of a valid prefix are the address
    and the mask of the prefix it is compared as. *)
Lemma networkNumberAndMask_compared_as (f : Family) (a l : Z) :
  valid_prefix f a l ->
  networkNumberAndMask (network f a l)
  = (IP (compared_as (network f a l)), Mask (compared_as (network f a l))).
Proof.
  intros Hv. unfold networkNumberAndMask.
  rewrite <- To4_compared_as. unfold compared_as, To4.
  destruct f; [done|].
  change (fam (IP (network IPv6 a l))) with IPv6. cbv iota.
  destruct (mapped (IP (network IPv6 a l))) eqn:Hmapped; [|done].
  pose proof (mapped_ones a l Hv Hmapped) as Hlong.
  destruct Hv as [_ Hl]. simpl in Hl.
  cbn [default]. f_equal.
  unfold Mask. cbn [fam IP ones bits network].
  by rewrite (Mask_cut l) by lia.
Qed.

(** [Contains] on the network of a valid prefix: the block test on what
    the network and the address are compared as. *)
Lemma Contains_covers (f : Family) (a l : Z) (ip : IPAddr) :
  valid_prefix f a l ->
  Contains (network f a l) ip
  = covers (compared_as (network f a l)) (default ip (To4 ip)).
Proof.
  intros Hv. unfold Contains.
  rewrite (networkNumberAndMask_compared_as _ _ _ Hv).
  unfold covers. f_equal. apply bool_decide_ext. split; congruence.
Qed.

(** The intersection test on two valid prefixes: whether the prefixes
    they are compared as share an address. *)
Lemma intersects_share_address (f1 : Family) (a1 l1 : Z) (f2 : Family) (a2 l2 : Z) :
  valid_prefix f1 a1 l1 -> valid_prefix f2 a2 l2 ->
  intersects (network f1 a1 l1) (network f2 a2 l2) = true <->
  ∃ ip, valid_address ip
        ∧ in_range (compared_as (network f1 a1 l1)) ip
        ∧ in_range (compared_as (network f2 a2 l2)) ip.
Proof.
  intros Hv1 Hv2. unfold intersects.
  rewrite (Contains_covers _ _ _ _ Hv1), (Contains_covers _ _ _ _ Hv2).
  rewrite !To4_compared_as.
  destruct (compared_as_network _ _ _ Hv1) as (f1' & a1' & l1' & Hv1' & ->).
  destruct (compared_as_network _ _ _ Hv2) as (f2' & a2' & l2' & Hv2' & ->).
  by apply covers_share_address.
Qed.

Section WithParser.

Variable ParseCIDR : string -> error + IPNet.

(** C8, as the code has it: for two syntactically valid prefixes neither
    of which is an IPv6 prefix with an IPv4-mapped network address, of
    either family and of any two prefix lengths, the detector's
    intersection test reports an overlap exactly when the two address
    ranges share an address; 10.0.0.0/24 and 10.1.0.0/24 do not overlap,
    10.0.0.0/16 and 10.0.1.0/24 do. An IPv6 prefix with an IPv4-mapped
    network address is compared as the IPv4 prefix of its last 32 bits:
    for any two valid prefixes the test reports an overlap exactly when
    the prefixes they are compared as share an address. *)
Theorem C8_IsOverlapping_unmapped_iff_ranges_share_address
    (s1 s2 : string) (f1 : Family) (a1 l1 : Z) (f2 : Family) (a2 l2 : Z) :
  valid_prefix f1 a1 l1 -> valid_prefix f2 a2 l2 ->
  ParseCIDR s1 = inr (network f1 a1 l1) ->
  ParseCIDR s2 = inr (network f2 a2 l2) ->
  (IsOverlapping ParseCIDR [s1] s2 = inr true
   ∨ IsOverlapping ParseCIDR [s1] s2 = inr false)
  ∧ (mapped (IP (network f1 a1 l1)) = false ->
     mapped (IP (network f2 a2 l2)) = false ->
     (IsOverlapping ParseCIDR [s1] s2 = inr true <->
      ∃ ip, valid_address ip
            ∧ in_range (network f1 a1 l1) ip ∧ in_range (network f2 a2 l2) ip))
  ∧ (IsOverlapping ParseCIDR [s1] s2 = inr true <->
     ∃ ip, valid_address ip
           ∧ in_range (compared_as (network f1 a1 l1)) ip
           ∧ in_range (compared_as (network f2 a2 l2)) ip)
  ∧ Examples.IsOverlapping ["10.0.0.0/24"%string] "10.1.0.0/24" = inr false
  ∧ Examples.IsOverlapping ["10.0.0.0/16"%string] "10.0.1.0/24" = inr true.
Proof.
  intros Hv1 Hv2 Hp1 Hp2.
  assert (IsOverlapping ParseCIDR [s1] s2
          = inr (intersects (network f1 a1 l1) (network f2 a2 l2))) as Hrun.
  { unfold IsOverlapping. rewrite Hp2. simpl. rewrite Hp1.
    by destruct (intersects _ _). }
  assert (IsOverlapping ParseCIDR [s1] s2 = inr true <->
          ∃ ip, valid_address ip
                ∧ in_range (compared_as (network f1 a1 l1)) ip
                ∧ in_range (compared_as (network f2 a2 l2)) ip) as Hiff.
  { rewrite Hrun, <- (intersects_share_address _ _ _ _ _ _ Hv1 Hv2).
    split; [by intros [= ->] | by intros ->]. }
  split; [|split; [|split; [|split]]].
  - rewrite Hrun. destruct (intersects _ _); [by left | by right].
  - intros Hm1 Hm2.
    by rewrite Hiff, (compared_as_unmapped _ Hm1), (compared_as_unmapped _ Hm2).
  - exact Hiff.
  - vm_compute. reflexivity.
  - vm_compute. reflexivity.
Qed.

End WithParser.

End CidrProperties.

(** C8 as stated fails on IPv6 prefixes with an IPv4-mapped network
    address. [::ffff:10.0.0.0/104] lies inside [::/0], so the two ranges
    share every address of the former, and the test reports no overlap;
    and the test reports that [::ffff:10.0.0.0/104] overlaps the IPv4
    prefix [10.1.0.0/16], whose range holds no IPv6 address. *)
Lemma C8_mapped_prefix_compared_as_ipv4 :
  let all := Cidr.network Cidr.IPv6 0 0 in
  let ten := Cidr.network Cidr.IPv6 (Cidr.ipv4_mapped 10 0 0 0) 104 in
  let net := Cidr.network Cidr.IPv4 (Cidr.ipv4 10 1 0 0) 16 in
  Cidr.valid_prefix Cidr.IPv6 0 0
  ∧ Cidr.valid_prefix Cidr.IPv6 (Cidr.ipv4_mapped 10 0 0 0) 104
  ∧ Cidr.valid_prefix Cidr.IPv4 (Cidr.ipv4 10 1 0 0) 16
  ∧ (∃ ip, Cidr.valid_address ip ∧ Cidr.in_range all ip ∧ Cidr.in_range ten ip)
  ∧ Cidr.IsOverlapping Examples.ParseCIDR_v6 ["::/0"] "::ffff:10.0.0.0/104" = inr false
  ∧ Cidr.IsOverlapping Examples.ParseCIDR_v6 ["::ffff:10.0.0.0/104"] "::/0" = inr false
  ∧ ¬ (∃ ip, Cidr.in_range ten ip ∧ Cidr.in_range net ip)
  ∧ Cidr.IsOverlapping Examples.ParseCIDR_v6 ["::ffff:10.0.0.0/104"] "10.1.0.0/16"
    = inr true.
Proof.
  intros all ten net.
  split; [vm_compute; repeat split; discriminate|].
  split; [vm_compute; repeat split; discriminate|].
  split; [vm_compute; repeat split; discriminate|].
  split.
  { exists (Cidr.IP ten). vm_compute. repeat split; discriminate. }
  split; [vm_compute; reflexivity|]. split; [vm_compute; reflexivity|].
  split; [|vm_compute; reflexivity].
  intros (ip & [Hten _] & [Hnet _]). simpl in Hten, Hnet. congruence.
Qed.

Lemma C8_IsOverlapping_unmapped_iff_ranges_share_address_witness :
  Examples.IsOverlapping ["10.0.0.0/16"%string] "10.0.1.0/24" = inr true <->
  ∃ ip, Cidr.valid_address ip
        ∧ Cidr.in_range (Cidr.network Cidr.IPv4 (Cidr.ipv4 10 0 0 0) 16) ip
        ∧ Cidr.in_range (Cidr.network Cidr.IPv4 (Cidr.ipv4 10 0 1 0) 24) ip.
Proof.
  refine (proj1 (proj2 (C8_IsOverlapping_unmapped_iff_ranges_share_address
            Examples.ParseCIDR "10.0.0.0/16" "10.0.1.0/24"
            Cidr.IPv4 (Cidr.ipv4 10 0 0 0) 16 Cidr.IPv4 (Cidr.ipv4 10 0 1 0) 24
            _ _ _ _)) eq_refl eq_refl).
  - vm_compute. repeat split; discriminate.
  - vm_compute. repeat split; discriminate.
  - vm_compute. reflexivity.
  - vm_compute. reflexivity.
Defined.

(** * Properties of the overlap detector *)

Section StatusSteps.

Import Cmd.

Lemma enqueue_nil (st : Status) : enqueue [] st = st.
Proof. destruct st. unfold enqueue. simpl. by rewrite app_nil_r. Qed.

Lemma enqueue_app (a b : list Issue) (st : Status) :
  enqueue b (enqueue a st) = enqueue (a ++ b) st.
Proof. unfold enqueue. simpl. by rewrite app_assoc. Qed.

Lemma queue_enqueue (issues : list Issue) (st : Status) :
  queue (enqueue issues st) = queue st ++ issues.
Proof. done. Qed.

Lemma appends_intro (step : Run unit) (issues : list Issue) :
  (∀ st, step st = (Returned tt, enqueue issues st)) ->
  appends step ∧ emitted step = issues.
Proof.
  intros Hstep.
  assert (emitted step = issues) as Hemit.
  { unfold emitted. by rewrite Hstep. }
  split; [|done]. intros st. by rewrite Hemit.
Qed.

Lemma appends_ret : appends (mret tt) ∧ emitted (mret tt : Run unit) = [].
Proof. apply appends_intro. intros st. by rewrite enqueue_nil. Qed.

Lemma appends_QueueMessage (s : Severity) (m : message) :
  appends (QueueMessage s m)
  ∧ emitted (QueueMessage s m) = [ {| severity := s; text := m |} ].
Proof. by apply appends_intro. Qed.

Lemma appends_seq (a b : Run unit) :
  appends a -> appends b ->
  appends (a ;; b) ∧ emitted (a ;; b) = emitted a ++ emitted b.
Proof.
  intros Ha Hb. apply appends_intro. intros st.
  unfold mbind, Run_bind. rewrite Ha, Hb. by rewrite enqueue_app.
Qed.

End StatusSteps.

Section IndexPairs.

Import Cmd.

Lemma elem_of_index_pairs (n i j : nat) :
  (i, j) ∈ index_pairs n <-> (i < j < n)%nat.
Proof.
  unfold index_pairs. rewrite list_elem_of_In, in_flat_map. split.
  - intros (i' & Hi' & Hin). apply in_seq in Hi'.
    apply list_elem_of_In, list_elem_of_fmap in Hin as (j' & Heq & Hj').
    inversion Heq; subst. apply list_elem_of_In, in_seq in Hj'. lia.
  - intros Hij. exists i. split; [apply in_seq; lia|].
    apply list_elem_of_In, list_elem_of_fmap. exists j. split; [done|].
    apply list_elem_of_In, in_seq. lia.
Qed.

Lemma NoDup_index_pairs (n : nat) : NoDup (index_pairs n).
Proof.
  unfold index_pairs.
  assert (∀ a m, NoDup (flat_map (λ i, pair i <$> seq (S i) (n - S i)) (seq a m))
                 ∧ ∀ i j, (i, j) ∈ flat_map (λ i, pair i <$> seq (S i) (n - S i))
                                     (seq a m) -> (a <= i)%nat) as H.
  { intros a m. revert a. induction m as [|m IH]; intros a.
    - simpl. split; [constructor|]. intros i j Hin. by apply elem_of_nil in Hin.
    - cbn [seq flat_map]. destruct (IH (S a)) as [IHnd IHge]. split.
      + apply NoDup_app. split; [|split; [|done]].
        * apply NoDup_fmap_2; [|apply NoDup_seq]. by intros x y [= ->].
        * intros [i j] Hin Hin'.
          apply list_elem_of_fmap in Hin as (j' & Heq & _). inversion Heq; subst.
          apply IHge in Hin'. lia.
      + intros i j Hin. apply elem_of_app in Hin as [Hin|Hin].
        * apply list_elem_of_fmap in Hin as (j' & Heq & _). inversion Heq. lia.
        * apply IHge in Hin. lia. }
  apply H.
Qed.

End IndexPairs.

Section DetectorProperties.

Import Cmd.

Variable IsOverlapping : list string -> string -> error + bool.

Local Abbreviation check_subnet := (check_subnet IsOverlapping).
Local Abbreviation subnets_loop := (subnets_loop IsOverlapping).
Local Abbreviation check_pair := (check_pair IsOverlapping).
Local Abbreviation dests_loop := (dests_loop IsOverlapping).
Local Abbreviation sources_loop := (sources_loop IsOverlapping).
Local Abbreviation pair_issues := (pair_issues IsOverlapping).
Local Abbreviation detect := (detect IsOverlapping).

Lemma check_subnet_appends (source dest : Endpoint) (subnet : string) :
  appends (check_subnet source dest subnet).
Proof.
  unfold Cmd.check_subnet.
  destruct (IsOverlapping (Subnets source) subnet) as [err|[|]].
  - apply appends_QueueMessage.
  - apply appends_QueueMessage.
  - apply appends_ret.
Qed.

Lemma subnets_loop_appends (source dest : Endpoint) (subnets : list string) :
  appends (subnets_loop source dest subnets)
  ∧ emitted (subnets_loop source dest subnets)
    = flat_map (λ subnet, emitted (check_subnet source dest subnet)) subnets.
Proof.
  induction subnets as [|subnet rest [IHa IHe]].
  - apply appends_ret.
  - cbn [Cmd.subnets_loop flat_map].
    destruct (appends_seq _ _ (check_subnet_appends source dest subnet) IHa)
      as [Ha He].
    split; [exact Ha|]. by rewrite He, IHe.
Qed.

Lemma check_pair_appends (source dest : Endpoint) :
  appends (check_pair source dest).
Proof.
  unfold Cmd.check_pair.
  destruct (String.eqb (ClusterID source) (ClusterID dest)).
  - apply appends_QueueMessage.
  - apply subnets_loop_appends.
Qed.

Lemma dests_loop_appends (source : Endpoint) (dests : list Endpoint) :
  appends (dests_loop source dests)
  ∧ emitted (dests_loop source dests)
    = flat_map (λ dest, emitted (check_pair source dest)) dests.
Proof.
  induction dests as [|dest rest [IHa IHe]].
  - apply appends_ret.
  - cbn [Cmd.dests_loop flat_map].
    destruct (appends_seq _ _ (check_pair_appends source dest) IHa) as [Ha He].
    split; [exact Ha|]. by rewrite He, IHe.
Qed.

Lemma flat_map_fmap {A B C : Type} (f : A -> B) (g : B -> list C) (l : list A) :
  flat_map g (f <$> l) = flat_map (λ x, g (f x)) l.
Proof.
  induction l as [|x l IH]; [done|].
  rewrite fmap_cons. cbn [flat_map]. by rewrite IH.
Qed.

(** The elements from position [k] on, read back by position. *)
Lemma flat_map_drop_lookup {A B : Type} (f : A -> list B) (l : list A) (k : nat) :
  flat_map f (drop k l)
  = flat_map (λ j, match l !! j with Some x => f x | None => [] end)
      (seq k (length l - k)).
Proof.
  revert k. induction l as [|x l IH]; intros k.
  - by rewrite drop_nil.
  - destruct k as [|k].
    + rewrite drop_0. cbn [length]. rewrite Nat.sub_0_r. cbn [seq flat_map].
      f_equal.
      specialize (IH 0%nat). rewrite drop_0, Nat.sub_0_r in IH. rewrite IH.
      by rewrite <- fmap_S_seq, flat_map_fmap.
    + cbn [drop length]. rewrite Nat.sub_succ, IH.
      by rewrite <- (fmap_S_seq k), flat_map_fmap.
Qed.

Lemma sources_loop_from (items : list Endpoint) (i : nat) (todo : list Endpoint) :
  todo = drop i items ->
  appends (sources_loop items i todo)
  ∧ emitted (sources_loop items i todo)
    = flat_map (λ i', flat_map (pair_issues items)
                        (pair i' <$> seq (S i') (length items - S i')))
        (seq i (length todo)).
Proof.
  revert i. induction todo as [|source rest IH]; intros i Htodo.
  - apply appends_ret.
  - assert (items !! i = Some source) as Hsource.
    { rewrite <- (Nat.add_0_r i), <- lookup_drop, <- Htodo. done. }
    assert (rest = drop (S i) items) as Hrest.
    { rewrite (drop_S _ _ _ Hsource) in Htodo. by inversion Htodo. }
    destruct (IH (S i) Hrest) as [IHa IHe].
    destruct (dests_loop_appends source (drop (S i) items)) as [Hda Hde].
    cbn [Cmd.sources_loop length seq flat_map].
    destruct (appends_seq _ _ Hda IHa) as [Ha He].
    split; [exact Ha|]. rewrite He, IHe, Hde. f_equal.
    rewrite flat_map_drop_lookup, flat_map_fmap.
    apply flat_map_ext. intros j. unfold Cmd.pair_issues. simpl.
    by rewrite Hsource.
Qed.

(** The detector queues, in order, the issues of every pair of positions
    [index_pairs] lists, and changes nothing else. *)
Lemma sources_loop_run (items : list Endpoint) (st : Status) :
  sources_loop items 0 items st
  = (Returned tt,
     enqueue (flat_map (pair_issues items) (index_pairs (length items))) st).
Proof.
  destruct (sources_loop_from items 0 items eq_refl) as [Ha He].
  rewrite Ha, He. do 2 f_equal.
  unfold index_pairs.
  generalize (seq 0 (length items)). intros l.
  induction l as [|i l IH]; [done|].
  simpl. by rewrite flat_map_app, IH.
Qed.

Lemma detect_pairs (items : list Endpoint) :
  detect items = flat_map (pair_issues items) (index_pairs (length items)).
Proof.
  unfold Cmd.detect, emitted. rewrite sources_loop_run. simpl. done.
Qed.

(** Every issue of the detector has failure severity. *)
Lemma check_subnet_failures (source dest : Endpoint) (subnet : string) :
  Forall (λ i, is_failure i = true) (emitted (check_subnet source dest subnet)).
Proof.
  unfold Cmd.check_subnet.
  destruct (IsOverlapping (Subnets source) subnet) as [err|[|]];
    repeat constructor.
Qed.

Lemma Forall_flat_map {A B : Type} (P : B -> Prop) (f : A -> list B) (l : list A) :
  (∀ x, Forall P (f x)) -> Forall P (flat_map f l).
Proof.
  intros Hf. induction l as [|x l IH]; [constructor|].
  simpl. apply Forall_app. by split.
Qed.

Lemma check_pair_issues (source dest : Endpoint) :
  emitted (check_pair source dest)
  = if String.eqb (ClusterID source) (ClusterID dest)
    then [ {| severity := failure;
              text := Sprintf
                "Found multiple Submariner endpoints (%q and %q) in cluster %q"
                [ArgString (Name source); ArgString (Name dest);
                 ArgString (ClusterID source)] |} ]
    else flat_map (λ subnet, emitted (check_subnet source dest subnet))
           (Subnets dest).
Proof.
  unfold Cmd.check_pair.
  destruct (String.eqb (ClusterID source) (ClusterID dest)); [done|].
  apply subnets_loop_appends.
Qed.

Lemma detect_failures (items : list Endpoint) :
  Forall (λ i, is_failure i = true) (detect items).
Proof.
  rewrite detect_pairs. apply Forall_flat_map. intros [i j].
  unfold Cmd.pair_issues. simpl.
  destruct (items !! i) as [source|]; [|constructor].
  destruct (items !! j) as [dest|]; [|constructor].
  rewrite check_pair_issues.
  destruct (String.eqb _ _); [repeat constructor|].
  apply Forall_flat_map. intros subnet. apply check_subnet_failures.
Qed.

(** The verdict of the detector: no failure queued means no issue. *)
Lemma existsb_failure_detect (items : list Endpoint) :
  existsb is_failure (detect items) = false <-> detect items = [].
Proof.
  pose proof (detect_failures items) as Hall.
  destruct (detect items) as [|issue rest]; [done|].
  apply Forall_cons in Hall as [Hissue _]. simpl. rewrite Hissue. done.
Qed.

(** An issue of one visited pair is an issue of the run. *)
Lemma pair_issue_detected (items : list Endpoint) (i j : nat) (issue : Issue) :
  (i < j < length items)%nat ->
  issue ∈ pair_issues items (i, j) -> issue ∈ detect items.
Proof.
  intros Hij Hin. rewrite detect_pairs.
  apply list_elem_of_In, in_flat_map. exists (i, j). split.
  - apply list_elem_of_In. apply elem_of_index_pairs. exact Hij.
  - by apply list_elem_of_In.
Qed.

End DetectorProperties.


(** * The overlap check of one cluster *)

Section OverlapCheck.

Import Cmd.

Context {RestConfig SubmarinerClient : Type}.
Variable smClientset_NewForConfig : RestConfig -> error + SubmarinerClient.
Variable Endpoints_List : SubmarinerClient -> string -> error + list Endpoint.
Variable IsOverlapping : list string -> string -> error + bool.

Local Abbreviation checkOverlappingCIDRs :=
  (checkOverlappingCIDRs smClientset_NewForConfig Endpoints_List IsOverlapping).
Local Abbreviation detect := (detect IsOverlapping).

(** Starting a status line: the line is in progress, and the queue holds
    what had been left queued outside a line. *)
Lemma Start_leftover (title : message) (st : Status) :
  (Start title st).1 = Returned tt
  ∧ current (Start title st).2 = Some title
  ∧ queue (Start title st).2 = leftover st.
Proof. unfold Start, End, leftover. by destruct (current st). Qed.

Lemma bind_Returned {A B : Type} (m : Run A) (f : A -> Run B) (st st' : Status) (a : A) :
  m st = (Returned a, st') -> (m ≫= f) st = f a st'.
Proof. intros H. unfold mbind, Run_bind. by rewrite H. Qed.

Lemma bind_Exited {A B : Type} (m : Run A) (f : A -> Run B) (st st' : Status)
    (code : Z) :
  m st = (Exited code, st') -> (m ≫= f) st = (Exited code, st').
Proof. intros H. unfold mbind, Run_bind. by rewrite H. Qed.

Lemma bind_step {A B : Type} (m : Run A) (f : A -> Run B) (st : Status) (a : A) :
  (m st).1 = Returned a -> (m ≫= f) st = f a (m st).2.
Proof.
  intros H. unfold mbind, Run_bind. destruct (m st) as [o st']. simpl in *.
  by subst o.
Qed.

(** The outcome of the overlap check: it reads the queue, and so the
    failure messages left queued outside a status line count as its
    own. *)
Lemma checkOverlappingCIDRs_outcome (item : restConfig RestConfig)
    (submariner : Submariner) (st : Status) :
  (checkOverlappingCIDRs item submariner st).1
  = match smClientset_NewForConfig (config item) with
    | inl _ => Exited 1
    | inr submarinerClient =>
      match Endpoints_List submarinerClient (Submariner_Namespace submariner) with
      | inl _ => Returned false
      | inr items =>
        Returned (negb (existsb is_failure (leftover st ++ detect items)))
      end
    end.
Proof.
  unfold Cmd.checkOverlappingCIDRs.
  destruct (smClientset_NewForConfig (config item)) as [err|client]; [done|].
  erewrite bind_Returned by reflexivity.
  set (start := if negb (String.eqb (Spec_GlobalCIDR submariner) "")
                then Start _ else Start _).
  assert (∃ title, start = Start title) as [title ->].
  { unfold start. destruct (negb _); eauto. }
  destruct (Start_leftover title st) as (Hret & Hcur & Hqueue).
  destruct (Start title st) as [o st1] eqn:Hstart. simpl in Hret, Hcur, Hqueue.
  subst o.
  erewrite bind_Returned by exact Hstart.
  destruct (Endpoints_List client (Submariner_Namespace submariner)) as [err|items].
  { unfold QueueFailureMessage, QueueMessage, End, mbind, Run_bind. simpl.
    by rewrite Hcur. }
  erewrite bind_Returned by apply sources_loop_run.
  erewrite bind_Returned by reflexivity.
  rewrite queue_enqueue, Hqueue.
  rewrite <- detect_pairs.
  destruct (existsb is_failure (leftover st ++ detect items)).
  - unfold End, mbind, Run_bind. simpl. by rewrite Hcur.
  - destruct (negb _); unfold QueueSuccessMessage, QueueMessage, End, mbind, Run_bind;
      simpl; by rewrite Hcur.
Qed.

Lemma sources_loop_detect (items : list Endpoint) (st : Status) :
  sources_loop IsOverlapping items 0 items st
  = (Returned tt, enqueue (detect items) st).
Proof. by rewrite sources_loop_run, detect_pairs. Qed.

(** C7: a pair of endpoints at positions [i < j] with equal cluster IDs
    yields exactly one failure issue, naming the two endpoints and the
    cluster, whatever their subnets are and whatever the intersection
    test would say; the run goes on over all pairs of positions. *)
Theorem C7_duplicate_cluster_one_issue (items : list Endpoint) (i j : nat)
    (source dest : Endpoint) :
  items !! i = Some source -> items !! j = Some dest -> (i < j)%nat ->
  ClusterID source = ClusterID dest ->
  let issue :=
    {| severity := failure;
       text := Sprintf "Found multiple Submariner endpoints (%q and %q) in cluster %q"
                 [ArgString (Name source); ArgString (Name dest);
                  ArgString (ClusterID source)] |} in
  check_pair IsOverlapping source dest = QueueFailureMessage (text issue)
  ∧ pair_issues IsOverlapping items (i, j) = [issue]
  ∧ (∀ st, sources_loop IsOverlapping items 0 items st
           = (Returned tt, enqueue (detect items) st))
  ∧ detect items
    = flat_map (pair_issues IsOverlapping items) (index_pairs (length items))
  ∧ (∀ i' j', (i', j') ∈ index_pairs (length items) <-> (i' < j' < length items)%nat)
  ∧ issue ∈ detect items.
Proof.
  intros Hi Hj Hlt Hid issue.
  assert (check_pair IsOverlapping source dest = QueueFailureMessage (text issue))
    as Hpair.
  { unfold check_pair. rewrite Hid, String.eqb_refl. subst issue. simpl.
    by rewrite Hid. }
  assert (pair_issues IsOverlapping items (i, j) = [issue]) as Hissues.
  { unfold pair_issues. simpl. by rewrite Hi, Hj, Hpair. }
  split; [exact Hpair|]. split; [exact Hissues|].
  split; [apply sources_loop_detect|]. split; [apply detect_pairs|].
  split; [intros i' j'; apply elem_of_index_pairs|].
  apply (pair_issue_detected _ _ i j).
  - apply lookup_lt_Some in Hj. lia.
  - rewrite Hissues. apply list_elem_of_singleton. done.
Qed.

End OverlapCheck.

Lemma C7_duplicate_cluster_one_issue_witness :
  {| Cmd.severity := Cmd.failure;
     Cmd.text :=
       Sprintf "Found multiple Submariner endpoints (%q and %q) in cluster %q"
         [ArgString "east-gw-a"; ArgString "east-gw-b"; ArgString "east"] |}
  ∈ Cmd.detect Examples.IsOverlapping [Examples.east_a; Examples.west; Examples.east_b].
Proof.
  refine (proj2 (proj2 (proj2 (proj2 (proj2
    (C7_duplicate_cluster_one_issue Examples.IsOverlapping
       [Examples.east_a; Examples.west; Examples.east_b] 0 2
       Examples.east_a Examples.east_b eq_refl eq_refl _ eq_refl)))))).
  lia.
Defined.

(** C10: the code names the wrong cluster when the CIDR that does not
    parse belongs to the earlier endpoint of a pair. The endpoint of
    [north] holds the text 10.1.0.0/33 and the endpoint of [east] only
    the valid prefix 10.0.0.0/16. The test of that prefix against the
    subnets of [north] fails on 10.1.0.0/33, and the one issue of the
    detector names cluster [east]; the scan of the subnets of [north]
    ends there, so the overlap of 10.0.3.0/24 with 10.0.0.0/16 is not
    reported. The overlap check does return false. *)
Theorem C10_parse_error_names_other_cluster :
  let items := [Examples.north; Examples.east_a] in
  let check :=
    Cmd.checkOverlappingCIDRs (λ _ : unit, inr tt)
      (λ (_ : unit) (_ : string), inr items) Examples.IsOverlapping
      {| Cmd.config := tt; Cmd.clusterName := "north" |}
      (Examples.submariner_of "north") in
  Cmd.Subnets Examples.north = ["10.1.0.0/33"; "10.0.3.0/24"]
  ∧ Cmd.Subnets Examples.east_a = ["10.0.0.0/16"]
  ∧ Examples.ParseCIDR "10.1.0.0/33"
    = inl (errorString "invalid CIDR address: 10.1.0.0/33")
  ∧ (∃ n, Examples.ParseCIDR "10.0.0.0/16" = inr n)
  ∧ Cmd.detect Examples.IsOverlapping items
    = [ {| Cmd.severity := Cmd.failure;
           Cmd.text :=
             Sprintf "Error parsing CIDR in cluster %q: %s"
               [ArgString "east";
                ArgError (errorString "invalid CIDR address: 10.1.0.0/33")] |} ]
  ∧ Examples.IsOverlapping ["10.0.3.0/24"] "10.0.0.0/16" = inr true
  ∧ (check Cmd.initialStatus).1 = Cmd.Returned false.
Proof.
  intros items check.
  split; [reflexivity|]. split; [reflexivity|].
  split; [vm_compute; reflexivity|].
  split; [eexists; vm_compute; reflexivity|].
  split; [vm_compute; reflexivity|].
  split; vm_compute; reflexivity.
Qed.

(** * Order of the endpoints *)

Section DetectorSymmetry.

Import Cmd.

Variable ParseCIDR : string -> error + Cidr.IPNet.

Local Abbreviation IsOverlapping := (Cidr.IsOverlapping ParseCIDR).
Local Abbreviation parses := (λ s : string, ∃ n, ParseCIDR s = inr n).

Lemma intersects_comm (a b : Cidr.IPNet) :
  Cidr.intersects a b = Cidr.intersects b a.
Proof. unfold Cidr.intersects. apply orb_comm. Qed.

(** On prefixes that parse, the scan answers, and it answers "no" exactly
    when no prefix of the list intersects the new one. *)
Lemma IsOverlapping_loop_parsed (newNet : Cidr.IPNet) (cidrList : list string) :
  Forall parses cidrList ->
  (∃ b, Cidr.IsOverlapping_loop ParseCIDR newNet cidrList = inr b)
  ∧ (Cidr.IsOverlapping_loop ParseCIDR newNet cidrList = inr false <->
     ∀ v baseNet, v ∈ cidrList -> ParseCIDR v = inr baseNet ->
                  Cidr.intersects baseNet newNet = false).
Proof.
  induction 1 as [|v rest [baseNet Hv] _ [[b IHb] IH]].
  - split; [by exists false|]. split; [|done].
    intros _ v baseNet Hin. by apply elem_of_nil in Hin.
  - cbn [Cidr.IsOverlapping_loop]. rewrite Hv.
    destruct (Cidr.intersects baseNet newNet) eqn:Hint.
    + split; [by exists true|]. split; [done|].
      intros Hall. specialize (Hall v baseNet (list_elem_of_here _ _) Hv).
      congruence.
    + split; [by exists b|]. rewrite IH. split.
      * intros Hall v' baseNet' Hin Hv'.
        apply elem_of_cons in Hin as [->|Hin]; [congruence|].
        by apply (Hall v').
      * intros Hall v' baseNet' Hin Hv'.
        apply (Hall v'); [by apply list_elem_of_further|done].
Qed.

Lemma check_subnet_clean (source dest : Endpoint) (subnet : string)
    (newNet : Cidr.IPNet) :
  Forall parses (Subnets source) -> ParseCIDR subnet = inr newNet ->
  emitted (check_subnet IsOverlapping source dest subnet) = [] <->
  ∀ v baseNet, v ∈ Subnets source -> ParseCIDR v = inr baseNet ->
               Cidr.intersects baseNet newNet = false.
Proof.
  intros Hsource Hsubnet.
  destruct (IsOverlapping_loop_parsed newNet _ Hsource) as [[b Hb] Hfalse].
  rewrite <- Hfalse. unfold check_subnet, Cidr.IsOverlapping.
  rewrite Hsubnet, Hb. by destruct b.
Qed.

Lemma flat_map_nil {A B : Type} (f : A -> list B) (l : list A) :
  flat_map f l = [] <-> ∀ x, x ∈ l -> f x = [].
Proof.
  induction l as [|x l IH]; simpl.
  - split; [|done]. intros _ x Hin. by apply elem_of_nil in Hin.
  - rewrite app_nil, IH. split.
    + intros [Hx Hl] y Hin. apply elem_of_cons in Hin as [->|Hin]; auto.
    + intros Hall. split; [apply Hall, list_elem_of_here|].
      intros y Hin. by apply Hall, list_elem_of_further.
Qed.

(** A pair of endpoints is free of issues exactly when the cluster IDs
    differ and no subnet of one intersects a subnet of the other. *)
Lemma check_pair_clean (source dest : Endpoint) :
  Forall parses (Subnets source) -> Forall parses (Subnets dest) ->
  emitted (check_pair IsOverlapping source dest) = [] <->
  ClusterID source ≠ ClusterID dest
  ∧ ∀ v s baseNet newNet,
      v ∈ Subnets source -> s ∈ Subnets dest ->
      ParseCIDR v = inr baseNet -> ParseCIDR s = inr newNet ->
      Cidr.intersects baseNet newNet = false.
Proof.
  intros Hsource Hdest. rewrite check_pair_issues.
  destruct (String.eqb (ClusterID source) (ClusterID dest)) eqn:Hid.
  - apply String.eqb_eq in Hid. split; [done|]. by intros [Hne _].
  - apply String.eqb_neq in Hid. rewrite flat_map_nil. split.
    + intros Hall. split; [done|]. intros v s baseNet newNet Hv Hs Hpv Hps.
      by apply (proj1 (check_subnet_clean source dest s newNet Hsource Hps)
                  (Hall s Hs) v).
    + intros [_ Hall] s Hs.
      rewrite Forall_forall in Hdest. destruct (Hdest s Hs) as [newNet Hps].
      apply (check_subnet_clean source dest s newNet Hsource Hps).
      intros v baseNet Hv Hpv. by apply (Hall v s).
Qed.

Lemma detect_two (A B : Endpoint) :
  detect IsOverlapping [A; B] = emitted (check_pair IsOverlapping A B).
Proof. rewrite detect_pairs. simpl. by rewrite app_nil_r. Qed.

(** C2, as the code has it: when every subnet of two endpoints is a valid
    prefix, the detector finds the pair free of issues in one order
    exactly when it does in the other; and for any endpoint list the
    issues are those of the pairs of positions [i < j], each visited
    once, whatever the cluster IDs are. *)
Theorem C2_verdict_symmetric_pairs_visited_once (A B : Endpoint) :
  Forall parses (Subnets A ++ Subnets B) ->
  (detect IsOverlapping [A; B] = [] <-> detect IsOverlapping [B; A] = [])
  ∧ (∀ items, detect IsOverlapping items
              = flat_map (pair_issues IsOverlapping items)
                  (index_pairs (length items)))
  ∧ (∀ n i j, (i, j) ∈ index_pairs n <-> (i < j < n)%nat)
  ∧ (∀ n, NoDup (index_pairs n)).
Proof.
  intros Hparse. apply Forall_app in Hparse as [HA HB].
  split; [|split; [|split]].
  - rewrite !detect_two, (check_pair_clean A B HA HB), (check_pair_clean B A HB HA).
    split; intros [Hid Hall]; (split; [congruence|]);
      intros v s baseNet newNet Hv Hs Hpv Hps;
      rewrite intersects_comm; by apply (Hall s v).
  - intros items. apply detect_pairs.
  - intros n i j. apply elem_of_index_pairs.
  - apply NoDup_index_pairs.
Qed.

End DetectorSymmetry.

(** C2 as stated fails: the issues for [[A; B]] and for [[B; A]] differ.
    One /16 of [east] contains two /24 of [west]: in one order the
    detector reports each /24, in the other it reports the /16 once; and
    two endpoints of one cluster are named in the order of the list. *)
Lemma C2_issues_depend_on_order :
  length (Cmd.detect Examples.IsOverlapping [Examples.east_a; Examples.west]) = 2%nat
  ∧ length (Cmd.detect Examples.IsOverlapping [Examples.west; Examples.east_a]) = 1%nat
  ∧ ¬ (∀ issue,
         issue ∈ Cmd.detect Examples.IsOverlapping [Examples.east_a; Examples.west] <->
         issue ∈ Cmd.detect Examples.IsOverlapping [Examples.west; Examples.east_a])
  ∧ ¬ (∀ issue,
         issue ∈ Cmd.detect Examples.IsOverlapping [Examples.east_a; Examples.east_b] <->
         issue ∈ Cmd.detect Examples.IsOverlapping [Examples.east_b; Examples.east_a]).
Proof.
  split; [vm_compute; reflexivity|]. split; [vm_compute; reflexivity|]. split.
  - intros Hsame.
    specialize (Hsame
      {| Cmd.severity := Cmd.failure;
         Cmd.text :=
           Sprintf "CIDR %q in cluster %q overlaps with cluster %q (CIDRs: %v)"
             [ArgString "10.0.0.0/16"; ArgString "east"; ArgString "west";
              ArgStrings ["10.0.1.0/24"; "10.0.2.0/24"]] |}).
    destruct Hsame as [_ Hback].
    assert (Cmd.detect Examples.IsOverlapping [Examples.east_a; Examples.west]
            = [ {| Cmd.severity := Cmd.failure;
                   Cmd.text :=
                     Sprintf "CIDR %q in cluster %q overlaps with cluster %q (CIDRs: %v)"
                       [ArgString "10.0.1.0/24"; ArgString "west"; ArgString "east";
                        ArgStrings ["10.0.0.0/16"]] |};
                {| Cmd.severity := Cmd.failure;
                   Cmd.text :=
                     Sprintf "CIDR %q in cluster %q overlaps with cluster %q (CIDRs: %v)"
                       [ArgString "10.0.2.0/24"; ArgString "west"; ArgString "east";
                        ArgStrings ["10.0.0.0/16"]] |} ]) as Hab.
    { vm_compute. reflexivity. }
    rewrite Hab in Hback.
    assert (Cmd.detect Examples.IsOverlapping [Examples.west; Examples.east_a]
            = [ {| Cmd.severity := Cmd.failure;
                   Cmd.text :=
                     Sprintf "CIDR %q in cluster %q overlaps with cluster %q (CIDRs: %v)"
                       [ArgString "10.0.0.0/16"; ArgString "east"; ArgString "west";
                        ArgStrings ["10.0.1.0/24"; "10.0.2.0/24"]] |} ]) as Hba.
    { vm_compute. reflexivity. }
    rewrite Hba in Hback.
    specialize (Hback (list_elem_of_here _ _)).
    apply elem_of_cons in Hback as [Heq|Hback]; [discriminate|].
    apply elem_of_cons in Hback as [Heq|Hback]; [discriminate|].
    by apply elem_of_nil in Hback.
  - intros Hsame.
    specialize (Hsame
      {| Cmd.severity := Cmd.failure;
         Cmd.text :=
           Sprintf "Found multiple Submariner endpoints (%q and %q) in cluster %q"
             [ArgString "east-gw-a"; ArgString "east-gw-b"; ArgString "east"] |}).
    destruct Hsame as [Hforth _].
    assert (Cmd.detect Examples.IsOverlapping [Examples.east_a; Examples.east_b]
            = [ {| Cmd.severity := Cmd.failure;
                   Cmd.text :=
                     Sprintf "Found multiple Submariner endpoints (%q and %q) in cluster %q"
                       [ArgString "east-gw-a"; ArgString "east-gw-b";
                        ArgString "east"] |} ]) as Hab.
    { vm_compute. reflexivity. }
    rewrite Hab in Hforth.
    assert (Cmd.detect Examples.IsOverlapping [Examples.east_b; Examples.east_a]
            = [ {| Cmd.severity := Cmd.failure;
                   Cmd.text :=
                     Sprintf "Found multiple Submariner endpoints (%q and %q) in cluster %q"
                       [ArgString "east-gw-b"; ArgString "east-gw-a";
                        ArgString "east"] |} ]) as Hba.
    { vm_compute. reflexivity. }
    rewrite Hba in Hforth.
    specialize (Hforth (list_elem_of_here _ _)).
    apply elem_of_cons in Hforth as [Heq|Hforth]; [discriminate|].
    by apply elem_of_nil in Hforth.
Qed.

Lemma C2_verdict_symmetric_pairs_visited_once_witness :
  Cmd.detect Examples.IsOverlapping [Examples.east_b; Examples.west] = [] <->
  Cmd.detect Examples.IsOverlapping [Examples.west; Examples.east_b] = [].
Proof.
  refine (proj1 (C2_verdict_symmetric_pairs_visited_once Examples.ParseCIDR
                   Examples.east_b Examples.west _)).
  repeat constructor; eexists; vm_compute; reflexivity.
Defined.

(** * The orchestrator *)

Section Orchestrator.

Import Cmd.

Context {RestConfig SubmarinerClient KubeClient : Type}.
Variable OperatorNamespace : string.
Variable submMissingMessage : string.
Variable getMultipleRestConfigs :
  string -> list string -> error + list (restConfig RestConfig).
Variable getSubmarinerResource : RestConfig -> option Submariner.
Variable smClientset_NewForConfig : RestConfig -> error + SubmarinerClient.
Variable Endpoints_List : SubmarinerClient -> string -> error + list Endpoint.
Variable kubernetes_NewForConfig : RestConfig -> error + KubeClient.
Variable DaemonSets_Get : KubeClient -> string -> string -> error + DaemonSet.
Variable Deployments_Get : KubeClient -> string -> string -> error + Deployment.
Variable Pods_List : KubeClient -> string -> error + list Pod.
Variable IsOverlapping : list string -> string -> error + bool.

Local Abbreviation checkPods :=
  (checkPods kubernetes_NewForConfig DaemonSets_Get Deployments_Get Pods_List).
Local Abbreviation checkOverlappingCIDRs :=
  (checkOverlappingCIDRs smClientset_NewForConfig Endpoints_List IsOverlapping).
Local Abbreviation validate_loop :=
  (validate_loop OperatorNamespace submMissingMessage getSubmarinerResource
     smClientset_NewForConfig Endpoints_List kubernetes_NewForConfig
     DaemonSets_Get Deployments_Get Pods_List IsOverlapping).
Local Abbreviation validateSubmarinerDeployment :=
  (validateSubmarinerDeployment OperatorNamespace submMissingMessage
     getMultipleRestConfigs getSubmarinerResource
     smClientset_NewForConfig Endpoints_List kubernetes_NewForConfig
     DaemonSets_Get Deployments_Get Pods_List IsOverlapping).

(** Retrieving the resource of a context: one status line, started and
    ended. *)
Local Abbreviation retrieve item :=
  (Start (Sprintf "Retrieving Submariner resource from %q"
            [ArgString (clusterName item)]) ;; End Success).

Lemma retrieve_run (item : restConfig RestConfig) (st : Status) :
  retrieve item st
  = (Returned tt,
     (End Success (Start (Sprintf "Retrieving Submariner resource from %q"
                            [ArgString (clusterName item)]) st).2).2).
Proof.
  rewrite (bind_step (Start _) _ st tt eq_refl).
  unfold End. by destruct (current _).
Qed.

Lemma End_returns (result : Result) (st : Status) : (End result st).1 = Returned tt.
Proof. unfold End. by destruct (current st). Qed.

(** The guard [validationStatus && ...]: once [validationStatus] is false
    the loop runs no check of a context, it only retrieves its
    resource. *)
Lemma validate_loop_false_only_retrieves (item : restConfig RestConfig)
    (rest : list (restConfig RestConfig)) (submariner : Submariner) (st : Status) :
  getSubmarinerResource (config item) = Some submariner ->
  validate_loop (item :: rest) false st
  = validate_loop rest false (retrieve item st).2.
Proof.
  intros Hsub. rewrite retrieve_run. cbn [snd Cmd.validate_loop].
  rewrite (bind_step (Start _) _ st tt eq_refl), Hsub.
  rewrite (bind_step (End Success) _ _ tt (End_returns _ _)).
  cbn [and_then].
  erewrite bind_Returned by reflexivity. cbn [and_then].
  erewrite bind_Returned by reflexivity. done.
Qed.

(** When the pod check of a context returns false, its overlap check is
    not run, and the loop goes on with [validationStatus] false. *)
Lemma validate_loop_pods_false_skips_overlap (item : restConfig RestConfig)
    (rest : list (restConfig RestConfig)) (submariner : Submariner)
    (st st' : Status) :
  getSubmarinerResource (config item) = Some submariner ->
  checkPods item submariner OperatorNamespace (retrieve item st).2
  = (Returned false, st') ->
  validate_loop (item :: rest) true st = validate_loop rest false st'.
Proof.
  intros Hsub. rewrite retrieve_run. cbn [snd Cmd.validate_loop]. intros Hpods.
  rewrite (bind_step (Start _) _ st tt eq_refl), Hsub.
  rewrite (bind_step (End Success) _ _ tt (End_returns _ _)).
  cbn [and_then].
  erewrite bind_Returned by exact Hpods. cbn [and_then].
  erewrite bind_Returned by reflexivity. done.
Qed.

End Orchestrator.

(** C1: the code does not do what the claim says. With the contexts
    [east] and [west], both with a Submariner resource, the pod check of
    [east] returns false; then neither the overlap check of [east] nor
    any check of [west] is run, although each of them returns true when
    it is run. The status lines of the run are the two retrievals and the
    one pod check, and the process exits with status 1. *)
Theorem C1_checks_skipped_after_failure :
  let run := Examples.validateSubmarinerDeployment "" ["east"; "west"]
               Cmd.initialStatus in
  Cmd.titles run.2
  = [ Sprintf "Retrieving Submariner resource from %q" [ArgString "east"];
      Sprintf "Checking Submariner pods in %q" [ArgString "east"];
      Sprintf "Retrieving Submariner resource from %q" [ArgString "west"] ]
  ∧ Cmd.exitStatus run.1 = 1%Z
  ∧ (Examples.checkPods (Examples.context "east")
       (Examples.submariner_of "east") "submariner-operator"
       Cmd.initialStatus).1 = Cmd.Returned false
  ∧ (Examples.checkOverlappingCIDRs (Examples.context "east")
       (Examples.submariner_of "east") Cmd.initialStatus).1 = Cmd.Returned true
  ∧ (Examples.checkPods (Examples.context "west")
       (Examples.submariner_of "west") "submariner-operator"
       Cmd.initialStatus).1 = Cmd.Returned true
  ∧ (Examples.checkOverlappingCIDRs (Examples.context "west")
       (Examples.submariner_of "west") Cmd.initialStatus).1 = Cmd.Returned true
  ∧ (Sprintf "Checking Submariner pods in %q" [ArgString "west"] ∉ Cmd.titles run.2)
  ∧ literal "Non-Globalnet deployment detected, checking if cluster CIDRs overlap"
    ∉ Cmd.titles run.2.
Proof.
  intros run.
  assert (Cmd.titles run.2
    = [ Sprintf "Retrieving Submariner resource from %q" [ArgString "east"];
        Sprintf "Checking Submariner pods in %q" [ArgString "east"];
        Sprintf "Retrieving Submariner resource from %q" [ArgString "west"] ])
    as Htitles.
  { vm_compute. reflexivity. }
  split; [exact Htitles|]. split; [vm_compute; reflexivity|].
  split; [vm_compute; reflexivity|]. split; [vm_compute; reflexivity|].
  split; [vm_compute; reflexivity|]. split; [vm_compute; reflexivity|].
  split.
  - rewrite Htitles. intros Hin.
    repeat (apply elem_of_cons in Hin as [Heq|Hin]; [discriminate|]).
    by apply elem_of_nil in Hin.
  - rewrite Htitles. intros Hin.
    repeat (apply elem_of_cons in Hin as [Heq|Hin]; [discriminate|]).
    by apply elem_of_nil in Hin.
Qed.

(** * More on the globalnet registry *)

Section UpsertComposition.

Import Broker.

Implicit Types (clusterInfo : list ClusterInfo) (newCluster e a b : ClusterInfo).

Lemma same_cluster_ext a b e :
  ClusterID a = ClusterID b -> same_cluster a e = same_cluster b e.
Proof. unfold same_cluster. by intros ->. Qed.

Lemma existsb_same_cluster_ext a b clusterInfo :
  ClusterID a = ClusterID b ->
  existsb (same_cluster a) clusterInfo = existsb (same_cluster b) clusterInfo.
Proof.
  intros Hid. induction clusterInfo as [|e l IH]; [done|].
  simpl. by rewrite IH, (same_cluster_ext a b e Hid).
Qed.

Lemma existsb_same_cluster_merge a b clusterInfo :
  existsb (same_cluster a) (merge_entry b <$> clusterInfo)
  = existsb (same_cluster a) clusterInfo.
Proof.
  induction clusterInfo as [|e l IH]; [done|].
  rewrite fmap_cons. simpl. rewrite IH. f_equal.
  unfold same_cluster. by rewrite merge_entry_ClusterID.
Qed.

(** X1: after an upsert the list holds an entry for the cluster, every
    entry with that cluster ID carries the given CIDR list, every other
    entry was already in the list, and the list has grown by one entry
    exactly when no entry had the cluster ID. *)
Theorem X1_upsert_then_lookup clusterInfo newCluster :
  (∃ e, e ∈ upsert clusterInfo newCluster ∧ ClusterID e = ClusterID newCluster)
  ∧ (∀ e, e ∈ upsert clusterInfo newCluster ->
          ClusterID e = ClusterID newCluster ->
          GlobalCidr e = GlobalCidr newCluster)
  ∧ (∀ e, e ∈ upsert clusterInfo newCluster ->
          ClusterID e ≠ ClusterID newCluster -> e ∈ clusterInfo)
  ∧ length (upsert clusterInfo newCluster)
    = (if bool_decide (ClusterID newCluster ∈ ClusterID <$> clusterInfo)
       then length clusterInfo else S (length clusterInfo)).
Proof.
  rewrite upsert_spec.
  destruct (existsb (same_cluster newCluster) clusterInfo) eqn:Hex.
  - pose proof Hex as Hsome.
    apply existsb_same_cluster in Hsome as (e0 & Hin0 & Hid0).
    split; [|split; [|split]].
    + exists (merge_entry newCluster e0). split.
      * by apply list_elem_of_fmap_2.
      * by rewrite merge_entry_ClusterID.
    + intros e Hin Hid. apply list_elem_of_fmap in Hin as (e' & -> & Hin').
      rewrite merge_entry_ClusterID in Hid.
      rewrite merge_entry_same by (by apply same_cluster_true). done.
    + intros e Hin Hid. apply list_elem_of_fmap in Hin as (e' & -> & Hin').
      rewrite merge_entry_ClusterID in Hid.
      rewrite merge_entry_other by (by apply same_cluster_false). done.
    + rewrite length_fmap, bool_decide_true; [done|].
      apply list_elem_of_fmap. exists e0. by split.
  - pose proof Hex as Hnone.
    rewrite existsb_same_cluster_false in Hnone.
    split; [|split; [|split]].
    + exists {| ClusterID := ClusterID newCluster;
                GlobalCidr := GlobalCidr newCluster |}.
      split; [|done]. apply elem_of_app. right. apply list_elem_of_here.
    + intros e Hin Hid. apply elem_of_app in Hin as [Hin|Hin].
      * by destruct (Hnone e Hin).
      * apply list_elem_of_singleton in Hin as ->. done.
    + intros e Hin Hid. apply elem_of_app in Hin as [Hin|Hin]; [done|].
      apply list_elem_of_singleton in Hin as ->. done.
    + rewrite length_app, bool_decide_false; [simpl; lia|].
      intros Hin. apply list_elem_of_fmap in Hin as (e & Heq & Hin).
      by apply (Hnone e Hin).
Qed.

Lemma merge_entry_overwrite a b e :
  ClusterID a = ClusterID b ->
  merge_entry b (merge_entry a e) = merge_entry b e.
Proof.
  intros Hid. destruct (same_cluster b e) eqn:Hb.
  - rewrite (merge_entry_same b e Hb).
    rewrite (merge_entry_same a e) by (by rewrite (same_cluster_ext a b)).
    by rewrite merge_entry_same.
  - rewrite (merge_entry_other b e Hb).
    rewrite (merge_entry_other a e) by (by rewrite (same_cluster_ext a b)).
    by apply merge_entry_other.
Qed.

(** X2: a later upsert for the same cluster overrides an earlier one: the
    result is the one of the later upsert alone. *)
Theorem X2_upsert_last_write_wins clusterInfo a b :
  ClusterID a = ClusterID b ->
  upsert (upsert clusterInfo a) b = upsert clusterInfo b.
Proof.
  intros Hid. rewrite (upsert_spec clusterInfo a), (upsert_spec clusterInfo b).
  rewrite (existsb_same_cluster_ext a b _ Hid).
  destruct (existsb (same_cluster b) clusterInfo) eqn:Hex.
  - rewrite upsert_spec, existsb_same_cluster_merge, Hex.
    rewrite <- list_fmap_compose. apply list_fmap_ext.
    intros i e _. by apply merge_entry_overwrite.
  - rewrite upsert_spec.
    assert (existsb (same_cluster b)
              (clusterInfo ++ [ {| ClusterID := ClusterID a;
                                   GlobalCidr := GlobalCidr a |} ]) = true) as ->.
    { rewrite existsb_app. simpl. unfold same_cluster at 2. simpl.
      rewrite Hid, String.eqb_refl. by rewrite orb_true_r. }
    rewrite fmap_app, (merge_entry_absent _ _ Hex). f_equal. simpl. f_equal.
    rewrite merge_entry_same; [simpl; by rewrite Hid|].
    unfold same_cluster. simpl. rewrite Hid. apply String.eqb_refl.
Qed.

Lemma merge_entry_comm a b e :
  ClusterID a ≠ ClusterID b ->
  merge_entry a (merge_entry b e) = merge_entry b (merge_entry a e).
Proof.
  intros Hne.
  destruct (same_cluster a e) eqn:Ha, (same_cluster b e) eqn:Hb.
  - apply same_cluster_true in Ha, Hb. congruence.
  - rewrite (merge_entry_other b e Hb), (merge_entry_same a e Ha).
    rewrite merge_entry_other; [done|]. exact Hb.
  - rewrite (merge_entry_other a e Ha), (merge_entry_same b e Hb).
    rewrite merge_entry_other; [done|]. exact Ha.
  - by rewrite (merge_entry_other b e Hb), (merge_entry_other a e Ha),
      (merge_entry_other b e Hb).
Qed.

Lemma existsb_same_cluster_snoc a b clusterInfo :
  ClusterID a ≠ ClusterID b ->
  existsb (same_cluster a)
    (clusterInfo ++ [ {| ClusterID := ClusterID b; GlobalCidr := GlobalCidr b |} ])
  = existsb (same_cluster a) clusterInfo.
Proof.
  intros Hne. rewrite existsb_app. simpl. unfold same_cluster at 2. simpl.
  assert (String.eqb (ClusterID b) (ClusterID a) = false) as ->.
  { apply String.eqb_neq. congruence. }
  by rewrite !orb_false_r.
Qed.

Lemma merge_entry_fresh a b :
  ClusterID a ≠ ClusterID b ->
  merge_entry a {| ClusterID := ClusterID b; GlobalCidr := GlobalCidr b |}
  = {| ClusterID := ClusterID b; GlobalCidr := GlobalCidr b |}.
Proof.
  intros Hne. apply merge_entry_other. unfold same_cluster. simpl.
  apply String.eqb_neq. congruence.
Qed.

(** X3: upserts for two different clusters can be done in either order:
    the two results hold the same entries, and they are the same list
    unless both clusters are new, in which case only the order of the two
    appended entries differs. *)
Theorem X3_upsert_different_clusters_commute clusterInfo a b :
  ClusterID a ≠ ClusterID b ->
  upsert (upsert clusterInfo a) b ≡ₚ upsert (upsert clusterInfo b) a
  ∧ ((∃ e, e ∈ clusterInfo ∧ (ClusterID e = ClusterID a ∨ ClusterID e = ClusterID b)) ->
     upsert (upsert clusterInfo a) b = upsert (upsert clusterInfo b) a).
Proof.
  intros Hne.
  assert (ClusterID b ≠ ClusterID a) as Hne' by congruence.
  rewrite (upsert_spec clusterInfo a), (upsert_spec clusterInfo b).
  destruct (existsb (same_cluster a) clusterInfo) eqn:Ha,
           (existsb (same_cluster b) clusterInfo) eqn:Hb.
  - rewrite !upsert_spec, !existsb_same_cluster_merge, Ha, Hb.
    assert (merge_entry b <$> (merge_entry a <$> clusterInfo)
            = merge_entry a <$> (merge_entry b <$> clusterInfo)) as ->.
    { rewrite <- !list_fmap_compose. apply list_fmap_ext.
      intros i e _. simpl. symmetry. by apply merge_entry_comm. }
    done.
  - rewrite !upsert_spec, existsb_same_cluster_merge, Hb.
    rewrite (existsb_same_cluster_snoc a b _ Hne), Ha.
    rewrite fmap_app. simpl. rewrite (merge_entry_fresh a b Hne). done.
  - rewrite !upsert_spec, existsb_same_cluster_merge, Ha.
    rewrite (existsb_same_cluster_snoc b a _ Hne'), Hb.
    rewrite fmap_app. simpl. rewrite (merge_entry_fresh b a Hne'). done.
  - rewrite !upsert_spec.
    rewrite (existsb_same_cluster_snoc b a _ Hne'), Hb.
    rewrite (existsb_same_cluster_snoc a b _ Hne), Ha.
    split.
    + rewrite <- !app_assoc. apply Permutation_app_head. simpl. apply perm_swap.
    + intros (e & Hin & [Hid|Hid]).
      * by destruct (proj1 (existsb_same_cluster_false a clusterInfo) Ha e Hin).
      * by destruct (proj1 (existsb_same_cluster_false b clusterInfo) Hb e Hin).
Qed.

End UpsertComposition.

Lemma X2_upsert_last_write_wins_witness :
  Broker.upsert
    (Broker.upsert [Examples.cluster_west]
       {| Broker.ClusterID := "east"; Broker.GlobalCidr := ["242.9.0.0/16"] |})
    Examples.cluster_east
  = Broker.upsert [Examples.cluster_west] Examples.cluster_east.
Proof.
  apply (X2_upsert_last_write_wins [Examples.cluster_west]
           {| Broker.ClusterID := "east"; Broker.GlobalCidr := ["242.9.0.0/16"] |}
           Examples.cluster_east).
  reflexivity.
Defined.

Lemma X3_upsert_different_clusters_commute_witness :
  Broker.upsert (Broker.upsert [] Examples.cluster_east) Examples.cluster_west
  ≡ₚ Broker.upsert (Broker.upsert [] Examples.cluster_west) Examples.cluster_east.
Proof.
  refine (proj1 (X3_upsert_different_clusters_commute []
                   Examples.cluster_east Examples.cluster_west _)).
  simpl. discriminate.
Defined.

Section RegistryStore.

Import Broker.

Context {RestConfig : Type}.
Variable NewForConfig : RestConfig -> error + Clientset.
Variable json_Marshal : string -> error + string.
Variable json_Unmarshal : string -> error + list ClusterInfo.
Variable json_MarshalIndent : list ClusterInfo -> error + string.

Local Abbreviation NewGlobalnetConfigMap := (NewGlobalnetConfigMap json_Marshal).
Local Abbreviation CreateGlobalnetConfigMap :=
  (CreateGlobalnetConfigMap NewForConfig json_Marshal).
Local Abbreviation UpdateGlobalnetConfigMap :=
  (UpdateGlobalnetConfigMap json_Unmarshal json_MarshalIndent).

Lemma NewGlobalnetConfigMap_Name (globalnetEnabled : bool) (cidrRange : string)
    (clusterSize : N) (namespace : string) (cm : ConfigMap) :
  NewGlobalnetConfigMap globalnetEnabled cidrRange clusterSize namespace = inr cm ->
  Name (metadata cm) = GlobalCIDRConfigMapName.
Proof.
  unfold Broker.NewGlobalnetConfigMap.
  destruct (json_Marshal cidrRange); [discriminate|]. by intros [= <-].
Qed.

(** X4: on the registry store, a fetch after [CreateGlobalnetConfigMap]
    succeeds and returns the record that was already stored, or the new
    record when there was none; no other record of the store is
    touched. *)
Theorem X4_create_then_get (config : RestConfig) (globalnetEnabled : bool)
    (cidrRange : string) (clusterSize : N) (namespace : string)
    (gnConfigMap : ConfigMap) (store : Store) :
  NewForConfig config = inr storeClientset ->
  NewGlobalnetConfigMap globalnetEnabled cidrRange clusterSize namespace
  = inr gnConfigMap ->
  let store' := (CreateGlobalnetConfigMap config globalnetEnabled cidrRange
                   clusterSize namespace store).2 in
  GetGlobalnetConfigMap storeClientset namespace store'
  = inr (default gnConfigMap (store !! (namespace, GlobalCIDRConfigMapName)))
  ∧ (∀ key, key ≠ (namespace, GlobalCIDRConfigMapName) ->
            store' !! key = store !! key).
Proof.
  intros Hclient Hnew store'. subst store'.
  pose proof (NewGlobalnetConfigMap_Name _ _ _ _ _ Hnew) as Hname.
  unfold Broker.CreateGlobalnetConfigMap, GetGlobalnetConfigMap.
  rewrite Hclient, Hnew. simpl. rewrite Hname.
  destruct (store !! (namespace, GlobalCIDRConfigMapName)) as [existing|] eqn:Hstore.
  - simpl. rewrite Hstore. done.
  - simpl. rewrite lookup_insert_eq. split; [done|].
    intros key Hkey. by rewrite lookup_insert_ne.
Qed.

(** X5: an error [CreateGlobalnetConfigMap] returns is never an
    AlreadyExists error; when the clientset cannot be built, or the
    record cannot be built, the error is wrapped and the store is left
    as it was. *)
Theorem X5_create_errors (config : RestConfig) (globalnetEnabled : bool)
    (cidrRange : string) (clusterSize : N) (namespace : string)
    (store store' : Store) (err : error) :
  CreateGlobalnetConfigMap config globalnetEnabled cidrRange clusterSize
    namespace store = (Some err, store') ->
  IsAlreadyExists err = false
  ∧ (∀ cause, NewForConfig config = inl cause ->
       err = Errorf "error creating the core kubernetes clientset: %s" cause
       ∧ store' = store)
  ∧ (∀ clientset cause,
       NewForConfig config = inr clientset -> json_Marshal cidrRange = inl cause ->
       err = Errorf "error creating config map: %s" cause ∧ store' = store).
Proof.
  unfold Broker.CreateGlobalnetConfigMap, Broker.NewGlobalnetConfigMap.
  destruct (NewForConfig config) as [cause|clientset].
  { intros [= <- <-]. split; [done|]. split; [|done]. by intros cause' [= <-]. }
  destruct (json_Marshal cidrRange) as [cause|quoted].
  { intros [= <- <-]. split; [done|]. split; [done|].
    by intros clientset' cause' _ [= <-]. }
  destruct (Create _ _ _) as [[cause|cm] store1].
  - destruct (IsAlreadyExists cause) eqn:Hexists; [discriminate|].
    intros [= <- <-]. done.
  - discriminate.
Qed.

Lemma UpdateGlobalnetConfigMap_run (k8sClientset : Clientset) (namespace : string)
    (configMap : ConfigMap) (newCluster : ClusterInfo) (store : Store)
    (clusterInfo : list ClusterInfo) (data : string) :
  json_Unmarshal (default "" (Data configMap !! ClusterInfoKey)) = inr clusterInfo ->
  json_MarshalIndent (upsert clusterInfo newCluster) = inr data ->
  let written := {| metadata := metadata configMap;
                    Data := <[ClusterInfoKey := data]> (Data configMap) |} in
  UpdateGlobalnetConfigMap k8sClientset namespace configMap newCluster store
  = (match (Update (ConfigMaps k8sClientset namespace) written store).1 with
     | inl err => Some err
     | inr _ => None
     end, written, (Update (ConfigMaps k8sClientset namespace) written store).2).
Proof.
  intros Hdecode Hencode written. unfold Broker.UpdateGlobalnetConfigMap.
  rewrite Hdecode, Hencode. fold written.
  by destruct (Update _ written store) as [[err|cm] store'].
Qed.

(** X6: when the text [UpdateGlobalnetConfigMap] writes decodes to the
    list it encodes, a second update of the written ConfigMap with the
    same cluster writes the same ConfigMap again. *)
Theorem X6_update_twice_same_record (k8sClientset : Clientset) (namespace : string)
    (configMap : ConfigMap) (newCluster : ClusterInfo) (store store' : Store)
    (clusterInfo : list ClusterInfo) (data : string) :
  json_Unmarshal (default "" (Data configMap !! ClusterInfoKey)) = inr clusterInfo ->
  json_MarshalIndent (upsert clusterInfo newCluster) = inr data ->
  json_Unmarshal data = inr (upsert clusterInfo newCluster) ->
  let configMap' :=
    (UpdateGlobalnetConfigMap k8sClientset namespace configMap newCluster store).1.2 in
  (UpdateGlobalnetConfigMap k8sClientset namespace configMap' newCluster store').1.2
  = configMap'.
Proof.
  intros Hdecode Hencode Hround.
  by apply (UpdateGlobalnetConfigMap_twice _ _ _ _ _ _ _ _ _ _ Hdecode Hencode).
Qed.

(** X7: [UpdateGlobalnetConfigMap] touches nothing when the stored list
    does not decode or the merged list does not encode: it returns that
    error with the ConfigMap and the store as they were. Otherwise the
    ConfigMap it hands to the store, and leaves with the caller even when
    the store refuses it, differs from the given one in the [clusterinfo]
    field only. *)
Theorem X7_update_writes_clusterinfo_only (k8sClientset : Clientset)
    (namespace : string) (configMap : ConfigMap) (newCluster : ClusterInfo)
    (store : Store) :
  let result :=
    UpdateGlobalnetConfigMap k8sClientset namespace configMap newCluster store in
  match json_Unmarshal (default "" (Data configMap !! ClusterInfoKey)) with
  | inl err => result = (Some err, configMap, store)
  | inr clusterInfo =>
    match json_MarshalIndent (upsert clusterInfo newCluster) with
    | inl err => result = (Some err, configMap, store)
    | inr data =>
      metadata result.1.2 = metadata configMap
      ∧ Data result.1.2 !! ClusterInfoKey = Some data
      ∧ (∀ key, key ≠ ClusterInfoKey ->
                Data result.1.2 !! key = Data configMap !! key)
      ∧ result.2 = (Update (ConfigMaps k8sClientset namespace) result.1.2 store).2
      ∧ (result.1.1 = None <->
         ∃ cm, (Update (ConfigMaps k8sClientset namespace) result.1.2 store).1 = inr cm)
    end
  end.
Proof.
  intros result.
  destruct (json_Unmarshal _) as [err|clusterInfo] eqn:Hdecode.
  { subst result. unfold Broker.UpdateGlobalnetConfigMap. by rewrite Hdecode. }
  destruct (json_MarshalIndent _) as [err|data] eqn:Hencode.
  { subst result. unfold Broker.UpdateGlobalnetConfigMap.
    by rewrite Hdecode, Hencode. }
  subst result.
  rewrite (UpdateGlobalnetConfigMap_run _ _ _ _ _ _ _ Hdecode Hencode). simpl.
  split; [done|]. split; [apply lookup_insert_eq|].
  split; [intros key Hkey; by rewrite lookup_insert_ne|]. split; [done|].
  destruct (Update _ _ _) as [[err|cm] store']; simpl.
  - split; [done|]. by intros [cm [=]].
  - split; [by exists cm|done].
Qed.

(** X8: on the registry store, creating the record in a namespace that
    has none, fetching it and updating it with a first cluster succeeds,
    and a fetch then returns the created record with [clusterinfo]
    replaced by the encoding of the one-entry list; the
    [globalnetEnabled] field is kept. *)
Theorem X8_create_update_get (config : RestConfig) (globalnetEnabled : bool)
    (cidrRange : string) (clusterSize : N) (namespace : string)
    (gnConfigMap : ConfigMap) (newCluster : ClusterInfo) (data : string)
    (store : Store) :
  NewForConfig config = inr storeClientset ->
  NewGlobalnetConfigMap globalnetEnabled cidrRange clusterSize namespace
  = inr gnConfigMap ->
  store !! (namespace, GlobalCIDRConfigMapName) = None ->
  json_Unmarshal "[]" = inr [] ->
  json_MarshalIndent [newCluster] = inr data ->
  let store1 := (CreateGlobalnetConfigMap config globalnetEnabled cidrRange
                   clusterSize namespace store).2 in
  ∃ written store2,
    GetGlobalnetConfigMap storeClientset namespace store1 = inr gnConfigMap
    ∧ UpdateGlobalnetConfigMap storeClientset namespace gnConfigMap newCluster store1
      = (None, written, store2)
    ∧ GetGlobalnetConfigMap storeClientset namespace store2 = inr written
    ∧ Data written = <[ClusterInfoKey := data]> (Data gnConfigMap)
    ∧ Data written !! GlobalnetStatusKey
      = Some (if globalnetEnabled then "true" else "false").
Proof.
  intros Hclient Hnew Hfresh Hdecode Hencode store1.
  pose proof (NewGlobalnetConfigMap_Name _ _ _ _ _ Hnew) as Hname.
  assert (store1 = <[(namespace, GlobalCIDRConfigMapName) := gnConfigMap]> store)
    as Hstore1.
  { subst store1. unfold Broker.CreateGlobalnetConfigMap.
    rewrite Hclient, Hnew. simpl. by rewrite Hname, Hfresh. }
  assert (Data gnConfigMap !! ClusterInfoKey = Some "[]"
          ∧ Data gnConfigMap !! GlobalnetStatusKey
            = Some (if globalnetEnabled then "true" else "false")) as [Hinfo Hstatus].
  { unfold Broker.NewGlobalnetConfigMap in Hnew.
    destruct (json_Marshal cidrRange); [discriminate|].
    injection Hnew as <-. by destruct globalnetEnabled. }
  set (written := {| metadata := metadata gnConfigMap;
                     Data := <[ClusterInfoKey := data]> (Data gnConfigMap) |}).
  exists written, (<[(namespace, GlobalCIDRConfigMapName) := written]> store1).
  split; [|split; [|split; [|split]]].
  - unfold GetGlobalnetConfigMap. simpl. by rewrite Hstore1, lookup_insert_eq.
  - rewrite (UpdateGlobalnetConfigMap_run _ _ _ _ _ [] data).
    + fold written. simpl. rewrite Hname, Hstore1, lookup_insert_eq. done.
    + by rewrite Hinfo.
    + rewrite upsert_spec. simpl. by rewrite newCluster_eta.
  - unfold GetGlobalnetConfigMap. simpl. by rewrite lookup_insert_eq.
  - done.
  - simpl. by rewrite lookup_insert_ne.
Qed.

End RegistryStore.

Lemma X4_create_then_get_witness :
  Broker.GetGlobalnetConfigMap Broker.storeClientset "submariner-k8s-broker"
    (Broker.CreateGlobalnetConfigMap (λ _ : unit, inr Broker.storeClientset)
       Examples.json_Marshal tt true "242.0.0.0/8" 65536 "submariner-k8s-broker" ∅).2
  = Broker.NewGlobalnetConfigMap Examples.json_Marshal true "242.0.0.0/8" 65536
      "submariner-k8s-broker".
Proof.
  refine (proj1 (X4_create_then_get (λ _ : unit, inr Broker.storeClientset)
                   Examples.json_Marshal tt true "242.0.0.0/8" 65536
                   "submariner-k8s-broker" _ ∅ eq_refl eq_refl)).
Defined.

Lemma X5_create_errors_witness :
  IsAlreadyExists
    (Errorf "error creating the core kubernetes clientset: %s"
       (StatusError StatusReasonAlreadyExists "submariner-globalnet-info"))
  = false.
Proof.
  refine (proj1 (X5_create_errors
    (λ _ : unit, inl (StatusError StatusReasonAlreadyExists "submariner-globalnet-info"))
    Examples.json_Marshal tt true "242.0.0.0/8" 65536 "submariner-k8s-broker"
    ∅ ∅ _ eq_refl)).
Defined.

Lemma X6_update_twice_same_record_witness :
  let configMap := {| Broker.metadata :=
                        {| Broker.Name := Broker.GlobalCIDRConfigMapName;
                           Broker.Namespace := "submariner-k8s-broker";
                           Broker.Labels := ∅ |};
                      Broker.Data := {[ Broker.ClusterInfoKey := "[]" ]} |} in
  let update := Broker.UpdateGlobalnetConfigMap Examples.json_Unmarshal
                  Examples.json_MarshalIndent Broker.storeClientset
                  "submariner-k8s-broker" in
  (update (update configMap Examples.cluster_east ∅).1.2 Examples.cluster_east ∅).1.2
  = (update configMap Examples.cluster_east ∅).1.2.
Proof.
  intros configMap update.
  apply (X6_update_twice_same_record Examples.json_Unmarshal
            Examples.json_MarshalIndent Broker.storeClientset
            "submariner-k8s-broker" configMap Examples.cluster_east ∅ ∅ []
            (Examples.json_array "" [Examples.json_ClusterInfo Examples.cluster_east])).
  - vm_compute. reflexivity.
  - vm_compute. reflexivity.
  - vm_compute. reflexivity.
Defined.

Lemma X8_create_update_get_witness :
  ∃ written store2,
    Broker.GetGlobalnetConfigMap Broker.storeClientset "submariner-k8s-broker" store2
    = inr written
    ∧ Broker.Data written !! Broker.GlobalnetStatusKey = Some "false".
Proof.
  destruct (X8_create_update_get (λ _ : unit, inr Broker.storeClientset)
              Examples.json_Marshal Examples.json_Unmarshal
              Examples.json_MarshalIndent tt false "" 0
              "submariner-k8s-broker"
              {| Broker.metadata :=
                   {| Broker.Name := Broker.GlobalCIDRConfigMapName;
                      Broker.Namespace := "submariner-k8s-broker";
                      Broker.Labels := {[ "component" := "submariner-globalnet" ]} |};
                 Broker.Data := list_to_map [ (Broker.GlobalnetStatusKey, "false");
                                              (Broker.ClusterInfoKey, "[]") ] |}
              Examples.cluster_east
              (Examples.json_array "" [Examples.json_ClusterInfo Examples.cluster_east])
              ∅)
    as (written & store2 & _ & _ & Hget & _ & Hstatus).
  - reflexivity.
  - vm_compute. reflexivity.
  - reflexivity.
  - vm_compute. reflexivity.
  - vm_compute. reflexivity.
  - exists written, store2. split; [exact Hget|exact Hstatus].
Defined.

(** * More on the overlap check *)

Section OverlapVerdict.

Import Cmd.

Context {RestConfig SubmarinerClient : Type}.
Variable smClientset_NewForConfig : RestConfig -> error + SubmarinerClient.
Variable Endpoints_List : SubmarinerClient -> string -> error + list Endpoint.
Variable IsOverlapping : list string -> string -> error + bool.

Local Abbreviation checkOverlappingCIDRs :=
  (checkOverlappingCIDRs smClientset_NewForConfig Endpoints_List IsOverlapping).
Local Abbreviation detect := (detect IsOverlapping).
Local Abbreviation pair_issues := (pair_issues IsOverlapping).
Local Abbreviation check_subnet := (check_subnet IsOverlapping).
Local Abbreviation check_pair := (check_pair IsOverlapping).

Lemma check_subnet_quiet (source dest : Endpoint) (subnet : string) :
  emitted (check_subnet source dest subnet) = [] <->
  IsOverlapping (Subnets source) subnet = inr false.
Proof.
  unfold Cmd.check_subnet.
  destruct (IsOverlapping (Subnets source) subnet) as [err|[|]]; split; done.
Qed.

Lemma check_subnet_at_most_one (source dest : Endpoint) (subnet : string) :
  length (emitted (check_subnet source dest subnet))
  = match IsOverlapping (Subnets source) subnet with
    | inr false => 0
    | _ => 1
    end.
Proof.
  unfold Cmd.check_subnet.
  by destruct (IsOverlapping (Subnets source) subnet) as [err|[|]].
Qed.

Lemma check_pair_quiet (source dest : Endpoint) :
  emitted (check_pair source dest) = [] <->
  ClusterID source ≠ ClusterID dest
  ∧ ∀ subnet, subnet ∈ Subnets dest ->
              IsOverlapping (Subnets source) subnet = inr false.
Proof.
  rewrite check_pair_issues.
  destruct (String.eqb (ClusterID source) (ClusterID dest)) eqn:Hid.
  - apply String.eqb_eq in Hid. split; [done|]. by intros [Hne _].
  - apply String.eqb_neq in Hid. rewrite flat_map_nil. split.
    + intros Hall. split; [done|]. intros subnet Hin.
      apply (proj1 (check_subnet_quiet source dest subnet)). by apply Hall.
    + intros [_ Hall] subnet Hin.
      apply (proj2 (check_subnet_quiet source dest subnet)). by apply Hall.
Qed.

(** The detector finds nothing exactly when every two endpoints have
    different cluster IDs and the intersection test says no for every
    subnet of the later one against the subnets of the earlier one. *)
Lemma detect_quiet (items : list Endpoint) :
  detect items = [] <->
  ∀ i j source dest,
    (i < j)%nat -> items !! i = Some source -> items !! j = Some dest ->
    ClusterID source ≠ ClusterID dest
    ∧ ∀ subnet, subnet ∈ Subnets dest ->
                IsOverlapping (Subnets source) subnet = inr false.
Proof.
  rewrite detect_pairs, flat_map_nil. split.
  - intros Hall i j source dest Hlt Hi Hj.
    apply check_pair_quiet.
    specialize (Hall (i, j)). unfold Cmd.pair_issues in Hall. simpl in Hall.
    rewrite Hi, Hj in Hall. apply Hall. apply elem_of_index_pairs.
    apply lookup_lt_Some in Hj. lia.
  - intros Hall [i j] Hin. apply elem_of_index_pairs in Hin.
    unfold Cmd.pair_issues. simpl.
    destruct (items !! i) as [source|] eqn:Hi; [|done].
    destruct (items !! j) as [dest|] eqn:Hj; [|done].
    apply check_pair_quiet. apply (Hall i j); [lia|done|done].
Qed.

(** X10: the overlap check of a cluster ends the process exactly when
    the Submariner client cannot be built, and returns true exactly when
    no failure message had been left queued outside a status line, the
    endpoints can be listed, every two of them have different cluster
    IDs, and the intersection test says no for every subnet of the later
    endpoint against the subnets of the earlier one. *)
Theorem X10_overlap_check_verdict (item : restConfig RestConfig)
    (submariner : Submariner) (st : Status) :
  let outcome := (checkOverlappingCIDRs item submariner st).1 in
  (outcome = Exited 1 <-> ∃ err, smClientset_NewForConfig (config item) = inl err)
  ∧ (outcome = Returned true <->
     existsb is_failure (leftover st) = false
     ∧ ∃ submarinerClient items,
         smClientset_NewForConfig (config item) = inr submarinerClient
         ∧ Endpoints_List submarinerClient (Submariner_Namespace submariner) = inr items
         ∧ ∀ i j source dest,
             (i < j)%nat -> items !! i = Some source -> items !! j = Some dest ->
             ClusterID source ≠ ClusterID dest
             ∧ ∀ subnet, subnet ∈ Subnets dest ->
                         IsOverlapping (Subnets source) subnet = inr false)
  ∧ (outcome = Exited 1 ∨ outcome = Returned true ∨ outcome = Returned false).
Proof.
  intros outcome. subst outcome. rewrite checkOverlappingCIDRs_outcome.
  destruct (smClientset_NewForConfig (config item)) as [err|client].
  { split; [split; [by exists err|done]|]. split; [|by left].
    split; [done|]. by intros (_ & ? & ? & [=] & _). }
  destruct (Endpoints_List client (Submariner_Namespace submariner))
    as [err|items] eqn:Hlist.
  { split; [split; [done|by intros [? [=]]]|]. split; [|by right; right].
    split; [done|]. intros (_ & ? & ? & [= <-] & Hlist' & _). congruence. }
  split; [split; [done|by intros [? [=]]]|]. rewrite existsb_app. split.
  - split.
    + intros [= Hneg]. apply negb_true_iff, orb_false_iff in Hneg as [Hleft Hdetect].
      split; [exact Hleft|]. exists client, items. split; [done|]. split; [done|].
      by apply detect_quiet, existsb_failure_detect.
    + intros (Hleft & client' & items' & [= <-] & Hlist' & Hquiet).
      rewrite Hlist in Hlist'. injection Hlist' as <-.
      apply detect_quiet, existsb_failure_detect in Hquiet.
      by rewrite Hleft, Hquiet.
  - destruct (_ || _); auto.
Qed.

(** X11: with fewer than two endpoints there is no pair to compare: the
    detector finds nothing and, when the client can be built and the
    endpoints listed, the overlap check returns true, unless a failure
    message had been left queued outside a status line. *)
Theorem X11_fewer_than_two_endpoints (item : restConfig RestConfig)
    (submariner : Submariner) (submarinerClient : SubmarinerClient)
    (items : list Endpoint) (st : Status) :
  smClientset_NewForConfig (config item) = inr submarinerClient ->
  Endpoints_List submarinerClient (Submariner_Namespace submariner) = inr items ->
  (length items <= 1)%nat ->
  detect items = []
  ∧ (checkOverlappingCIDRs item submariner st).1
    = Returned (negb (existsb is_failure (leftover st))).
Proof.
  intros Hclient Hlist Hlen.
  assert (detect items = []) as Hquiet.
  { apply detect_quiet. intros i j source dest Hlt Hi Hj.
    apply lookup_lt_Some in Hj. lia. }
  split; [exact Hquiet|].
  rewrite checkOverlappingCIDRs_outcome, Hclient, Hlist, Hquiet.
  by rewrite app_nil_r.
Qed.

(** X12: for two endpoints with different cluster IDs, each subnet of the
    later endpoint is reported at most once, however many subnets of the
    earlier endpoint it overlaps: the issues of the pair are as many as
    the subnets of the later endpoint for which the intersection test
    does not say no. *)
Theorem X12_one_issue_per_subnet (source dest : Endpoint) :
  ClusterID source ≠ ClusterID dest ->
  length (emitted (check_pair source dest))
  = length (List.filter
              (λ subnet, match IsOverlapping (Subnets source) subnet with
                         | inr false => false
                         | _ => true
                         end) (Subnets dest))
  ∧ (length (emitted (check_pair source dest)) <= length (Subnets dest))%nat.
Proof.
  intros Hid. apply String.eqb_neq in Hid.
  rewrite check_pair_issues, Hid.
  assert (∀ subnets,
    length (flat_map (λ subnet, emitted (check_subnet source dest subnet)) subnets)
    = length (List.filter
                (λ subnet, match IsOverlapping (Subnets source) subnet with
                           | inr false => false
                           | _ => true
                           end) subnets)) as Hcount.
  { induction subnets as [|subnet rest IH]; [done|].
    cbn [flat_map List.filter]. rewrite length_app, IH, check_subnet_at_most_one.
    by destruct (IsOverlapping (Subnets source) subnet) as [err|[|]]. }
  split; [apply Hcount|]. rewrite Hcount. apply List.filter_length_le.
Qed.

End OverlapVerdict.

Lemma X11_fewer_than_two_endpoints_witness :
  (Cmd.checkOverlappingCIDRs (λ _ : unit, inr tt)
     (λ (_ : unit) (_ : string), inr [Examples.north])
     Examples.IsOverlapping
     {| Cmd.config := tt; Cmd.clusterName := "north" |}
     (Examples.submariner_of "north") Cmd.initialStatus).1
  = Cmd.Returned true.
Proof.
  refine (proj2 (X11_fewer_than_two_endpoints (λ _ : unit, inr tt)
    (λ (_ : unit) (_ : string), inr [Examples.north])
    Examples.IsOverlapping
    {| Cmd.config := tt; Cmd.clusterName := "north" |}
    (Examples.submariner_of "north") tt [Examples.north] Cmd.initialStatus
    eq_refl eq_refl _)).
  simpl. lia.
Defined.

Lemma X12_one_issue_per_subnet_witness :
  (length (Cmd.emitted (Cmd.check_pair Examples.IsOverlapping
                          Examples.east_a Examples.west)) <= 2)%nat.
Proof.
  refine (proj2 (X12_one_issue_per_subnet Examples.IsOverlapping
                   Examples.east_a Examples.west _)).
  simpl. discriminate.
Defined.

(** A failure message left queued outside a status line counts against
    the next overlap check: for a cluster without endpoints the check
    then returns false, having found nothing itself. *)
Lemma leftover_failure_fails_overlap_check :
  let st := (Cmd.QueueFailureMessage (literal "left over") Cmd.initialStatus).2 in
  let run := Examples.checkOverlappingCIDRs (Examples.context "west")
               (Examples.submariner_of "west") st in
  run.1 = Cmd.Returned false
  ∧ Cmd.reported_failures run.2 = Cmd.reported_failures st.
Proof. split; vm_compute; reflexivity. Qed.

(** * The pod checks *)

Section PodChecks.

Import Cmd.

Context {RestConfig KubeClient : Type}.
Variable kubernetes_NewForConfig : RestConfig -> error + KubeClient.
Variable DaemonSets_Get : KubeClient -> string -> string -> error + DaemonSet.
Variable Deployments_Get : KubeClient -> string -> string -> error + Deployment.
Variable Pods_List : KubeClient -> string -> error + list Pod.

Local Abbreviation CheckDaemonset := (CheckDaemonset DaemonSets_Get).
Local Abbreviation CheckDeployment := (CheckDeployment Deployments_Get).
Local Abbreviation checkPodsStatus := (checkPodsStatus Pods_List).
Local Abbreviation checkPods :=
  (checkPods kubernetes_NewForConfig DaemonSets_Get Deployments_Get Pods_List).
Local Abbreviation daemonSetReady := (daemonSetReady DaemonSets_Get).
Local Abbreviation deploymentReady := (deploymentReady Deployments_Get).
Local Abbreviation podsRunning := (podsRunning Pods_List).

(** Queuing a failure and ending the line with Failure: a line in
    progress is finished with the messages queued so far; with no line
    in progress the failure stays queued. *)
Lemma fail_run (m : message) (st : Status) :
  (QueueFailureMessage m ;; End Failure ;; mret false) st
  = (Returned false,
     match current st with
     | Some title =>
       {| current := None; queue := [];
          report := report st
                    ++ [ {| line_title := Some title; line_result := Failure;
                            line_issues :=
                              queue st ++ [ {| severity := failure; text := m |} ] |} ] |}
     | None => enqueue [ {| severity := failure; text := m |} ] st
     end).
Proof.
  unfold QueueFailureMessage, QueueMessage, End, enqueue, mbind, Run_bind. simpl.
  by destruct (current st).
Qed.

Lemma CheckDaemonset_run (k8sClient : KubeClient) (namespace name : string)
    (st : Status) :
  if daemonSetReady k8sClient namespace name
  then CheckDaemonset k8sClient namespace name st = (Returned true, st)
  else ∃ m, CheckDaemonset k8sClient namespace name st
            = (QueueFailureMessage m ;; End Failure ;; mret false) st.
Proof.
  unfold Cmd.daemonSetReady, Cmd.CheckDaemonset.
  destruct (DaemonSets_Get k8sClient namespace name) as [err|daemonSet].
  - by eexists.
  - destruct (_ =? _)%Z; simpl; [done|]. by eexists.
Qed.

Lemma CheckDeployment_run (k8sClient : KubeClient) (namespace name : string)
    (st : Status) :
  if deploymentReady k8sClient namespace name
  then CheckDeployment k8sClient namespace name st = (Returned true, st)
  else ∃ m, CheckDeployment k8sClient namespace name st
            = (QueueFailureMessage m ;; End Failure ;; mret false) st.
Proof.
  unfold Cmd.deploymentReady, Cmd.CheckDeployment.
  destruct (Deployments_Get k8sClient namespace name) as [err|deployment].
  - by eexists.
  - destruct (Replicas deployment) as [r|]; simpl;
      destruct (_ =? _)%Z; simpl; try done; by eexists.
Qed.

(** X13: [CheckDaemonset] returns true exactly when the DaemonSet can be
    read and has as many pods scheduled as desired, [CheckDeployment]
    exactly when the Deployment can be read and has as many replicas
    available as its spec asks for, one when the spec names no number.
    A check that returns true leaves the status reporter as it was; one
    that returns false has queued one failure message and ended the
    status line in progress with Failure; called with no status line in
    progress it leaves the failure message queued. Neither ends the
    process. *)
Theorem X13_component_checks (k8sClient : KubeClient) (namespace name : string)
    (st : Status) :
  ((CheckDaemonset k8sClient namespace name st).1 = Returned true <->
   ∃ daemonSet, DaemonSets_Get k8sClient namespace name = inr daemonSet
     ∧ CurrentNumberScheduled daemonSet = DesiredNumberScheduled daemonSet)
  ∧ ((CheckDeployment k8sClient namespace name st).1 = Returned true <->
     ∃ deployment, Deployments_Get k8sClient namespace name = inr deployment
       ∧ AvailableReplicas deployment
         = match Replicas deployment with Some replicas => replicas | None => 1%Z end)
  ∧ (∀ check, check = CheckDaemonset ∨ check = CheckDeployment ->
       ∃ b st', check k8sClient namespace name st = (Returned b, st')
         ∧ if b then st' = st
           else ∃ m,
             match current st with
             | Some title =>
               current st' = None ∧ queue st' = []
               ∧ report st'
                 = report st
                   ++ [ {| line_title := Some title; line_result := Failure;
                           line_issues :=
                             queue st ++ [ {| severity := failure; text := m |} ] |} ]
             | None =>
               st' = enqueue [ {| severity := failure; text := m |} ] st
               ∧ (HasFailureMessages st').1 = Returned true
             end).
Proof.
  pose proof (CheckDaemonset_run k8sClient namespace name st) as Hds.
  pose proof (CheckDeployment_run k8sClient namespace name st) as Hdp.
  assert (∀ m, ∃ b st',
            (QueueFailureMessage m ;; End Failure ;; mret false) st = (Returned b, st')
            ∧ if b then st' = st
              else ∃ m,
                match current st with
                | Some title =>
                  current st' = None ∧ queue st' = []
                  ∧ report st'
                    = report st
                      ++ [ {| line_title := Some title; line_result := Failure;
                              line_issues :=
                                queue st ++ [ {| severity := failure; text := m |} ] |} ]
                | None =>
                  st' = enqueue [ {| severity := failure; text := m |} ] st
                  ∧ (HasFailureMessages st').1 = Returned true
                end) as Hfail.
  { intros m. rewrite fail_run. eexists false, _. split; [done|]. exists m.
    destruct (current st); [done|]. split; [done|].
    unfold HasFailureMessages. cbn [fst]. f_equal.
    rewrite queue_enqueue, existsb_app. simpl. apply orb_true_r. }
  split; [|split].
  - unfold Cmd.daemonSetReady in Hds.
    destruct (DaemonSets_Get k8sClient namespace name) as [err|daemonSet].
    + destruct Hds as [m ->]. rewrite fail_run. split; [done|]. by intros (? & [=] & _).
    + destruct (_ =? _)%Z eqn:Heq.
      * rewrite Hds. split; [|done]. intros _. exists daemonSet.
        split; [done|]. by apply Z.eqb_eq.
      * destruct Hds as [m ->]. rewrite fail_run. split; [done|].
        intros (? & [= <-] & Heq'). apply Z.eqb_neq in Heq. done.
  - unfold Cmd.deploymentReady in Hdp.
    destruct (Deployments_Get k8sClient namespace name) as [err|deployment].
    + destruct Hdp as [m ->]. rewrite fail_run. split; [done|]. by intros (? & [=] & _).
    + destruct (_ =? _)%Z eqn:Heq.
      * rewrite Hdp. split; [|done]. intros _. exists deployment.
        split; [done|]. apply Z.eqb_eq in Heq. by destruct (Replicas deployment).
      * destruct Hdp as [m ->]. rewrite fail_run. split; [done|].
        intros (? & [= <-] & Heq'). apply Z.eqb_neq in Heq.
        by destruct (Replicas deployment).
  - intros check [->| ->].
    + destruct (daemonSetReady k8sClient namespace name).
      * exists true, st. by rewrite Hds.
      * destruct Hds as [m ->]. apply Hfail.
    + destruct (deploymentReady k8sClient namespace name).
      * exists true, st. by rewrite Hdp.
      * destruct Hdp as [m ->]. apply Hfail.
Qed.

Lemma restarts_loop_appends (pod : Pod) (counts : list Z) :
  appends (restarts_loop pod counts)
  ∧ emitted (restarts_loop pod counts)
    = (λ count, {| severity := warning;
                   text := Sprintf "Pod %q has restarted %d times"
                             [ArgString (Pod_Name pod); ArgInt count] |})
      <$> List.filter (λ count, (5 <=? count)%Z) counts.
Proof.
  induction counts as [|count rest [IHa IHe]].
  - apply appends_ret.
  - cbn [restarts_loop List.filter].
    destruct (5 <=? count)%Z.
    + destruct (appends_seq _ _ (proj1 (appends_QueueMessage warning
        (Sprintf "Pod %q has restarted %d times"
           [ArgString (Pod_Name pod); ArgInt count]))) IHa) as [Ha He].
      split; [exact Ha|].
      unfold QueueWarningMessage. rewrite He, IHe.
      by rewrite (proj2 (appends_QueueMessage _ _)).
    + destruct (appends_seq _ _ (proj1 appends_ret) IHa) as [Ha He].
      split; [exact Ha|]. rewrite He, IHe. by rewrite (proj2 appends_ret).
Qed.

Lemma restarts_loop_run (pod : Pod) (st : Status) :
  restarts_loop pod (RestartCounts pod) st
  = (Returned tt, enqueue (restart_warnings pod) st).
Proof.
  destruct (restarts_loop_appends pod (RestartCounts pod)) as [Ha He].
  rewrite Ha, He. done.
Qed.

Lemma pods_loop_running (pods : list Pod) (st : Status) :
  Forall (λ pod, Phase pod = PodRunning) pods ->
  pods_loop pods st = (Returned true, enqueue (flat_map restart_warnings pods) st).
Proof.
  intros Hall. revert st. induction Hall as [|pod rest Hpod _ IH]; intros st.
  - simpl. by rewrite enqueue_nil.
  - cbn [pods_loop flat_map]. rewrite Hpod, String.eqb_refl. cbn [negb].
    rewrite (bind_step _ _ st tt) by (by rewrite restarts_loop_run).
    rewrite restarts_loop_run. cbn [snd]. rewrite IH. by rewrite enqueue_app.
Qed.

Lemma pods_loop_stops (before : list Pod) (pod : Pod) (after : list Pod)
    (st : Status) :
  Forall (λ pod, Phase pod = PodRunning) before -> Phase pod ≠ PodRunning ->
  pods_loop (before ++ pod :: after) st
  = (QueueFailureMessage
       (Sprintf "Pod %q is not running. (current state is %v)"
          [ArgString (Pod_Name pod); ArgString (Phase pod)]) ;;
     End Failure ;; mret false)
      (enqueue (flat_map restart_warnings before) st).
Proof.
  intros Hall Hpod. revert st. induction Hall as [|pod' rest Hpod' _ IH]; intros st.
  - rewrite enqueue_nil. cbn [app pods_loop flat_map].
    apply String.eqb_neq in Hpod. by rewrite Hpod.
  - cbn [app pods_loop flat_map]. rewrite Hpod', String.eqb_refl. cbn [negb].
    rewrite (bind_step _ _ st tt) by (by rewrite restarts_loop_run).
    rewrite restarts_loop_run. cbn [snd]. rewrite IH. by rewrite enqueue_app.
Qed.

(** X14: when the pods can be listed, [checkPodsStatus] returns true
    exactly when every pod is in the Running phase; restart counts never
    change the result, they only queue one warning for each container
    with five restarts or more. At the first pod that is not running the
    check queues a failure, ends the status line in progress with
    Failure and returns false: the pods after it are not looked at.
    Called with no status line in progress, it leaves the warnings and
    the failure queued. *)
Theorem X14_checkPodsStatus_running_pods (k8sClient : KubeClient)
    (operatorNamespace : string) (pods : list Pod) (st : Status) :
  Pods_List k8sClient operatorNamespace = inr pods ->
  (Forall (λ pod, Phase pod = PodRunning) pods ->
   checkPodsStatus k8sClient operatorNamespace st
   = (Returned true, enqueue (flat_map restart_warnings pods) st))
  ∧ (∀ before pod after,
       pods = before ++ pod :: after ->
       Forall (λ pod, Phase pod = PodRunning) before -> Phase pod ≠ PodRunning ->
       let issue :=
         {| severity := failure;
            text := Sprintf "Pod %q is not running. (current state is %v)"
                      [ArgString (Pod_Name pod); ArgString (Phase pod)] |} in
       checkPodsStatus k8sClient operatorNamespace st
       = (Returned false,
          match current st with
          | Some title =>
            {| current := None; queue := [];
               report :=
                 report st
                 ++ [ {| line_title := Some title; line_result := Failure;
                         line_issues :=
                           (queue st ++ flat_map restart_warnings before)
                           ++ [issue] |} ] |}
          | None => enqueue (flat_map restart_warnings before ++ [issue]) st
          end)).
Proof.
  intros Hlist. unfold Cmd.checkPodsStatus. rewrite Hlist. split.
  - apply pods_loop_running.
  - intros before pod after -> Hbefore Hpod. cbv zeta.
    rewrite (pods_loop_stops _ _ _ _ Hbefore Hpod), fail_run.
    cbn [current enqueue]. destruct (current st); [done|].
    by rewrite enqueue_app.
Qed.

(** A call that returns the same value from every status. *)
Local Abbreviation returns := (λ (m : Run bool) (b : bool), ∀ st, (m st).1 = Returned b).

Lemma returns_unless_false (check rest : Run bool) (b b' : bool) :
  returns check b -> returns rest b' -> returns (unless_false check rest) (b && b').
Proof.
  intros Hcheck Hrest st. unfold unless_false, mbind, Run_bind.
  specialize (Hcheck st). destruct (check st) as [o st']. simpl in Hcheck. subst o.
  destruct b; simpl; [apply Hrest|done].
Qed.

Lemma returns_CheckDaemonset (k8sClient : KubeClient) (namespace name : string) :
  returns (CheckDaemonset k8sClient namespace name)
    (daemonSetReady k8sClient namespace name).
Proof.
  intros st. pose proof (CheckDaemonset_run k8sClient namespace name st) as H.
  destruct (daemonSetReady k8sClient namespace name).
  - by rewrite H.
  - destruct H as [m ->]. by rewrite fail_run.
Qed.

Lemma returns_CheckDeployment (k8sClient : KubeClient) (namespace name : string) :
  returns (CheckDeployment k8sClient namespace name)
    (deploymentReady k8sClient namespace name).
Proof.
  intros st. pose proof (CheckDeployment_run k8sClient namespace name st) as H.
  destruct (deploymentReady k8sClient namespace name).
  - by rewrite H.
  - destruct H as [m ->]. by rewrite fail_run.
Qed.

Lemma returns_pods_loop (pods : list Pod) :
  returns (pods_loop pods) (forallb (λ pod, String.eqb (Phase pod) PodRunning) pods).
Proof.
  induction pods as [|pod rest IH]; intros st; [done|].
  cbn [pods_loop forallb].
  destruct (String.eqb (Phase pod) PodRunning); cbn [negb andb].
  - rewrite (bind_step _ _ st tt) by (by rewrite restarts_loop_run). apply IH.
  - by rewrite fail_run.
Qed.

Lemma returns_checkPodsStatus (k8sClient : KubeClient) (namespace : string) :
  returns (checkPodsStatus k8sClient namespace) (podsRunning k8sClient namespace).
Proof.
  intros st. unfold Cmd.checkPodsStatus, Cmd.podsRunning.
  destruct (Pods_List k8sClient namespace) as [err|pods].
  - by rewrite fail_run.
  - apply returns_pods_loop.
Qed.

Lemma checkPods_outcome (item : restConfig RestConfig) (submariner : Submariner)
    (operatorNamespace : string) (st : Status) :
  (checkPods item submariner operatorNamespace st).1
  = match kubernetes_NewForConfig (config item) with
    | inl _ => Exited 1
    | inr k8sClient =>
      Returned
        (daemonSetReady k8sClient operatorNamespace "submariner-gateway"
         && (daemonSetReady k8sClient operatorNamespace "submariner-routeagent"
         && ((if Spec_ServiceDiscoveryEnabled submariner
              then deploymentReady k8sClient operatorNamespace
                     "submariner-lighthouse-agent"
                   && (deploymentReady k8sClient operatorNamespace
                         "submariner-lighthouse-coredns" && true)
              else true)
         && ((if negb (String.eqb (Spec_GlobalCIDR submariner) "")
              then daemonSetReady k8sClient operatorNamespace "submariner-globalnet"
              else true)
         && (podsRunning k8sClient operatorNamespace && true)))))
    end.
Proof.
  unfold Cmd.checkPods.
  rewrite (bind_step (Start _) _ st tt eq_refl).
  generalize ((Start (Sprintf "Checking Submariner pods in %q"
                        [ArgString (clusterName item)]) st).2). intros st1.
  destruct (kubernetes_NewForConfig (config item)) as [err|k8sClient]; [done|].
  erewrite bind_Returned by reflexivity.
  apply returns_unless_false; [apply returns_CheckDaemonset|].
  apply returns_unless_false; [apply returns_CheckDaemonset|].
  apply returns_unless_false.
  { destruct (Spec_ServiceDiscoveryEnabled submariner); [|done].
    apply returns_unless_false; [apply returns_CheckDeployment|].
    apply returns_unless_false; [apply returns_CheckDeployment|]. done. }
  apply returns_unless_false.
  { destruct (negb _); [apply returns_CheckDaemonset|done]. }
  apply returns_unless_false; [apply returns_checkPodsStatus|].
  intros st2. unfold QueueSuccessMessage, QueueMessage, End, mbind, Run_bind.
  simpl. by destruct (current st2).
Qed.

(** X15: the pod check of a cluster ends the process when the Kubernetes
    client cannot be built; otherwise it returns the conjunction of its
    parts, whatever the state of the status reporter: the gateway and
    route-agent DaemonSets are ready, the two lighthouse Deployments are
    ready when service discovery is enabled, the globalnet DaemonSet is
    ready when a global CIDR is set, and all pods are running. *)
Theorem X15_checkPods_verdict (item : restConfig RestConfig) (submariner : Submariner)
    (operatorNamespace : string) (st : Status) :
  (checkPods item submariner operatorNamespace st).1
  = match kubernetes_NewForConfig (config item) with
    | inl _ => Exited 1
    | inr k8sClient =>
      Returned
        (daemonSetReady k8sClient operatorNamespace "submariner-gateway"
         && daemonSetReady k8sClient operatorNamespace "submariner-routeagent"
         && (if Spec_ServiceDiscoveryEnabled submariner
             then deploymentReady k8sClient operatorNamespace
                    "submariner-lighthouse-agent"
                  && deploymentReady k8sClient operatorNamespace
                       "submariner-lighthouse-coredns"
             else true)
         && (if negb (String.eqb (Spec_GlobalCIDR submariner) "")
             then daemonSetReady k8sClient operatorNamespace "submariner-globalnet"
             else true)
         && podsRunning k8sClient operatorNamespace)
    end.
Proof.
  rewrite checkPods_outcome.
  destruct (kubernetes_NewForConfig (config item)) as [err|k8sClient]; [done|].
  f_equal. rewrite !andb_true_r, !andb_assoc. done.
Qed.

End PodChecks.

Lemma X14_checkPodsStatus_running_pods_witness :
  Cmd.checkPodsStatus
    (λ (_ : unit) (_ : string),
       inr [ {| Cmd.Pod_Name := "submariner-gateway-x2k4p";
                Cmd.Phase := "Running"; Cmd.RestartCounts := [7%Z; 0%Z] |} ])
    tt "submariner-operator" Cmd.initialStatus
  = (Cmd.Returned true,
     Cmd.enqueue
       [ {| Cmd.severity := Cmd.warning;
            Cmd.text := Sprintf "Pod %q has restarted %d times"
                          [ArgString "submariner-gateway-x2k4p"; ArgInt 7] |} ]
       Cmd.initialStatus).
Proof.
  refine (proj1 (X14_checkPodsStatus_running_pods
    (λ (_ : unit) (_ : string),
       inr [ {| Cmd.Pod_Name := "submariner-gateway-x2k4p";
                Cmd.Phase := "Running"; Cmd.RestartCounts := [7%Z; 0%Z] |} ])
    tt "submariner-operator" _ Cmd.initialStatus eq_refl) _).
  repeat constructor.
Defined.

(** Called with no status line in progress, a failing [CheckDaemonset]
    leaves its failure message queued and the report empty. *)
Lemma CheckDaemonset_outside_a_line :
  let run := Cmd.CheckDaemonset Examples.DaemonSets_Get "east" "submariner-operator"
               "submariner-gateway" Cmd.initialStatus in
  run.1 = Cmd.Returned false
  ∧ (Cmd.HasFailureMessages run.2).1 = Cmd.Returned true
  ∧ Cmd.report run.2 = [].
Proof. repeat split; vm_compute; reflexivity. Qed.

(** * Verdicts and the report *)

Section ReportedFailures.

Import Cmd.

Lemma reported_failures_End (result : Result) (st : Status) :
  reported_failures (End result st).2 = reported_failures st.
Proof.
  unfold reported_failures, End. destruct (current st); [|done]. simpl.
  rewrite flat_map_app. simpl. by rewrite !app_nil_r.
Qed.

Lemma reported_failures_Start (title : message) (st : Status) :
  reported_failures (Start title st).2 = reported_failures st.
Proof. apply (reported_failures_End Success st). Qed.

Lemma running_Start (title : message) (st : Status) : running (Start title st).2.
Proof. by exists title. Qed.

(** Ending the line in progress leaves the reporter idle. *)
Lemma End_running (result : Result) (st : Status) :
  running st -> (End result st).1 = Returned tt ∧ idle (End result st).2.
Proof. intros [title Hcur]. unfold End. by rewrite Hcur. Qed.

Lemma running_enqueue (issues : list Issue) (st : Status) :
  running st -> running (enqueue issues st).
Proof. done. Qed.

Lemma leftover_idle (st : Status) : idle st -> leftover st = [].
Proof. intros [Hcur Hqueue]. unfold leftover. by rewrite Hcur. Qed.

Lemma reported_failures_enqueue (issues : list Issue) (st : Status) :
  reported_failures (enqueue issues st)
  = reported_failures st ++ List.filter is_failure issues.
Proof.
  unfold reported_failures. simpl. by rewrite app_assoc, List.filter_app.
Qed.

Lemma reported_failures_Queue (s : Severity) (m : message) (st : Status) :
  reported_failures (QueueMessage s m st).2
  = reported_failures st
    ++ List.filter is_failure [ {| severity := s; text := m |} ].
Proof. apply (reported_failures_enqueue [ {| severity := s; text := m |} ]). Qed.

Lemma verdict_reported_true (st st' : Status) :
  reported_failures st' = reported_failures st -> verdict_reported true st st'.
Proof. intros H. exists []. by rewrite app_nil_r. Qed.

Lemma verdict_reported_false (st st' : Status) (extra : list Issue) :
  reported_failures st' = reported_failures st ++ extra -> extra ≠ [] ->
  verdict_reported false st st'.
Proof. intros H Hne. by exists extra. Qed.

Lemma verdict_reported_after_true (b : bool) (st st1 st' : Status) :
  reported_failures st1 = reported_failures st ->
  verdict_reported b st1 st' -> verdict_reported b st st'.
Proof. intros H (extra & He & Hb). exists extra. by rewrite He, H. Qed.

Lemma sound_fail (m : message) :
  sound_check (QueueFailureMessage m ;; End Failure ;; mret false).
Proof.
  intros st b st' Hrunning Hrun.
  assert ((QueueFailureMessage m ;; End Failure ;; mret false) st
          = (Returned false, (End Failure (QueueMessage failure m st).2).2)) as Heq.
  { unfold QueueFailureMessage.
    rewrite (bind_step (QueueMessage failure m) _ st tt eq_refl).
    by rewrite (bind_step (End Failure) _ _ tt (End_returns _ _)). }
  rewrite Heq in Hrun. injection Hrun as <- <-. split.
  - apply (verdict_reported_false _ _ [ {| severity := failure; text := m |} ]);
      [|done].
    change (reported_failures (End Failure (QueueMessage failure m st).2).2
            = reported_failures st ++ [ {| severity := failure; text := m |} ]).
    by rewrite reported_failures_End, reported_failures_Queue.
  - by apply End_running.
Qed.

Lemma sound_ret_true : sound_check (mret true).
Proof.
  intros st b st' Hrunning Hrun. inversion Hrun; subst. split; [|done].
  by apply verdict_reported_true.
Qed.

Lemma sound_unless_false (check rest : Run bool) :
  sound_check check -> sound_check rest -> sound_check (unless_false check rest).
Proof.
  intros Hcheck Hrest st b st' Hrunning. unfold unless_false, mbind, Run_bind.
  destruct (check st) as [[[|]|code] st1] eqn:Hc; simpl.
  - intros Hr. destruct (Hcheck _ _ _ Hrunning Hc) as [(extra & He & Ht & _) Hrun1].
    destruct (Hrest _ _ _ Hrun1 Hr) as [Hv Hidle]. split; [|done].
    apply (verdict_reported_after_true _ st st1); [|done].
    by rewrite He, (Ht eq_refl), app_nil_r.
  - intros [= <- <-]. by apply Hcheck.
  - discriminate.
Qed.

Lemma final_unless_false (check rest : Run bool) :
  sound_check check -> final_check rest -> final_check (unless_false check rest).
Proof.
  intros Hcheck Hrest st b st' Hrunning. unfold unless_false, mbind, Run_bind.
  destruct (check st) as [[[|]|code] st1] eqn:Hc; simpl.
  - intros Hr. destruct (Hcheck _ _ _ Hrunning Hc) as [(extra & He & Ht & _) Hrun1].
    destruct (Hrest _ _ _ Hrun1 Hr) as [Hv Hidle]. split; [|done].
    apply (verdict_reported_after_true _ st st1); [|done].
    by rewrite He, (Ht eq_refl), app_nil_r.
  - intros [= <- <-]. destruct (Hcheck _ _ _ Hrunning Hc) as [Hv Hidle]. auto.
  - discriminate.
Qed.

(** Queuing a success message and ending the line with Success. *)
Lemma final_success (m : message) :
  final_check (QueueSuccessMessage m ;; End Success ;; mret true).
Proof.
  intros st b st' Hrunning Hrun.
  assert ((QueueSuccessMessage m ;; End Success ;; mret true) st
          = (Returned true, (End Success (QueueMessage success m st).2).2)) as Heq.
  { unfold QueueSuccessMessage.
    rewrite (bind_step (QueueMessage success m) _ st tt eq_refl).
    by rewrite (bind_step (End Success) _ _ tt (End_returns _ _)). }
  rewrite Heq in Hrun. injection Hrun as <- <-. split.
  - apply verdict_reported_true.
    change (reported_failures (End Success (QueueMessage success m st).2).2
            = reported_failures st).
    rewrite reported_failures_End, reported_failures_Queue. simpl.
    by rewrite app_nil_r.
  - by apply End_running.
Qed.

End ReportedFailures.

Section CheckReports.

Import Cmd.

Context {RestConfig SubmarinerClient KubeClient : Type}.
Variable smClientset_NewForConfig : RestConfig -> error + SubmarinerClient.
Variable Endpoints_List : SubmarinerClient -> string -> error + list Endpoint.
Variable kubernetes_NewForConfig : RestConfig -> error + KubeClient.
Variable DaemonSets_Get : KubeClient -> string -> string -> error + DaemonSet.
Variable Deployments_Get : KubeClient -> string -> string -> error + Deployment.
Variable Pods_List : KubeClient -> string -> error + list Pod.
Variable IsOverlapping : list string -> string -> error + bool.

Local Abbreviation checkPods :=
  (checkPods kubernetes_NewForConfig DaemonSets_Get Deployments_Get Pods_List).
Local Abbreviation checkOverlappingCIDRs :=
  (checkOverlappingCIDRs smClientset_NewForConfig Endpoints_List IsOverlapping).
Local Abbreviation detect := (detect IsOverlapping).

Lemma sound_CheckDaemonset (k8sClient : KubeClient) (namespace name : string) :
  sound_check (CheckDaemonset DaemonSets_Get k8sClient namespace name).
Proof.
  intros st b st' Hrunning Hrun.
  pose proof (CheckDaemonset_run DaemonSets_Get k8sClient namespace name st) as H.
  destruct (daemonSetReady DaemonSets_Get k8sClient namespace name).
  - rewrite H in Hrun. by apply (sound_ret_true st).
  - destruct H as [m H]. rewrite H in Hrun. by apply (sound_fail m st).
Qed.

Lemma sound_CheckDeployment (k8sClient : KubeClient) (namespace name : string) :
  sound_check (CheckDeployment Deployments_Get k8sClient namespace name).
Proof.
  intros st b st' Hrunning Hrun.
  pose proof (CheckDeployment_run Deployments_Get k8sClient namespace name st) as H.
  destruct (deploymentReady Deployments_Get k8sClient namespace name).
  - rewrite H in Hrun. by apply (sound_ret_true st).
  - destruct H as [m H]. rewrite H in Hrun. by apply (sound_fail m st).
Qed.

Lemma filter_restart_warnings (pods : list Pod) :
  List.filter is_failure (flat_map restart_warnings pods) = [].
Proof.
  induction pods as [|pod rest IH]; [done|].
  cbn [flat_map]. rewrite List.filter_app, IH, app_nil_r.
  unfold restart_warnings.
  induction (List.filter _ (RestartCounts pod)) as [|count counts IHc]; [done|].
  rewrite fmap_cons. simpl. exact IHc.
Qed.

Lemma sound_pods_loop (pods : list Pod) : sound_check (pods_loop pods).
Proof.
  intros st b st' Hrunning Hrun.
  destruct (forallb (λ pod, String.eqb (Phase pod) PodRunning) pods) eqn:Hall.
  - assert (Forall (λ pod, Phase pod = PodRunning) pods) as Hrunning_pods.
    { apply Forall_forall. intros pod Hin.
      rewrite forallb_forall in Hall. apply String.eqb_eq, Hall.
      by apply list_elem_of_In. }
    rewrite (pods_loop_running _ _ Hrunning_pods) in Hrun. inversion Hrun; subst.
    split; [|done]. apply verdict_reported_true.
    by rewrite reported_failures_enqueue, filter_restart_warnings, app_nil_r.
  - assert (∃ before pod after, pods = before ++ pod :: after
              ∧ Forall (λ pod, Phase pod = PodRunning) before
              ∧ Phase pod ≠ PodRunning) as (before & pod & after & -> & Hbefore & Hpod).
    { clear Hrun. induction pods as [|pod rest IH]; [done|].
      simpl in Hall. destruct (String.eqb (Phase pod) PodRunning) eqn:Hphase.
      - destruct (IH Hall) as (before & pod' & after & -> & Hb & Hp).
        exists (pod :: before), pod', after. split; [done|]. split; [|done].
        constructor; [by apply String.eqb_eq|done].
      - exists [], pod, rest. split; [done|]. split; [constructor|].
        by apply String.eqb_neq. }
    rewrite (pods_loop_stops _ _ _ _ Hbefore Hpod) in Hrun.
    pose proof (running_enqueue (flat_map restart_warnings before) st Hrunning)
      as Hrunning'.
    destruct (sound_fail _ _ _ _ Hrunning' Hrun) as [Hv Hidle]. split.
    + apply (verdict_reported_after_true _ st
               (enqueue (flat_map restart_warnings before) st)); [|done].
      by rewrite reported_failures_enqueue, filter_restart_warnings, app_nil_r.
    + assert (b = false) as ->; [|done].
      rewrite fail_run in Hrun. by injection Hrun.
Qed.

Lemma sound_checkPodsStatus (k8sClient : KubeClient) (namespace : string) :
  sound_check (checkPodsStatus Pods_List k8sClient namespace).
Proof.
  unfold checkPodsStatus. destruct (Pods_List k8sClient namespace).
  - apply sound_fail.
  - apply sound_pods_loop.
Qed.

Lemma checkPods_reports (item : restConfig RestConfig)
    (submariner : Submariner) (operatorNamespace : string)
    (st st' : Status) (b : bool) :
  checkPods item submariner operatorNamespace st = (Returned b, st') ->
  idle st' ∧ verdict_reported b st st'.
Proof.
  unfold Cmd.checkPods.
  rewrite (bind_step (Start _) _ st tt eq_refl).
  pose proof (reported_failures_Start
                (Sprintf "Checking Submariner pods in %q"
                   [ArgString (clusterName item)]) st) as Hstart.
  pose proof (running_Start
                (Sprintf "Checking Submariner pods in %q"
                   [ArgString (clusterName item)]) st) as Hrunning.
  revert Hstart Hrunning.
  generalize ((Start (Sprintf "Checking Submariner pods in %q"
                        [ArgString (clusterName item)]) st).2).
  intros st1 Hstart Hrunning.
  destruct (kubernetes_NewForConfig (config item)) as [err|k8sClient]; [done|].
  erewrite bind_Returned by reflexivity.
  intros Hrun.
  assert (final_check
    (unless_false (CheckDaemonset DaemonSets_Get k8sClient operatorNamespace
                     "submariner-gateway") (
     unless_false (CheckDaemonset DaemonSets_Get k8sClient operatorNamespace
                     "submariner-routeagent") (
     unless_false (if Spec_ServiceDiscoveryEnabled submariner then
                     unless_false (CheckDeployment Deployments_Get k8sClient
                                     operatorNamespace "submariner-lighthouse-agent") (
                     unless_false (CheckDeployment Deployments_Get k8sClient
                                     operatorNamespace "submariner-lighthouse-coredns") (
                     mret true))
                   else mret true) (
     unless_false (if negb (String.eqb (Spec_GlobalCIDR submariner) "") then
                     CheckDaemonset DaemonSets_Get k8sClient operatorNamespace
                       "submariner-globalnet"
                   else mret true) (
     unless_false (checkPodsStatus Pods_List k8sClient operatorNamespace) (
     QueueSuccessMessage (literal "All Submariner pods are up and running") ;;
     End Success ;;
     mret true))))))) as Hfinal.
  { apply final_unless_false; [apply sound_CheckDaemonset|].
    apply final_unless_false; [apply sound_CheckDaemonset|].
    apply final_unless_false.
    { destruct (Spec_ServiceDiscoveryEnabled submariner); [|apply sound_ret_true].
      apply sound_unless_false; [apply sound_CheckDeployment|].
      apply sound_unless_false; [apply sound_CheckDeployment|].
      apply sound_ret_true. }
    apply final_unless_false.
    { destruct (negb _); [apply sound_CheckDaemonset|apply sound_ret_true]. }
    apply final_unless_false; [apply sound_checkPodsStatus|].
    apply final_success. }
  destruct (Hfinal _ _ _ Hrunning Hrun) as [Hv Hidle]. split; [done|].
  by apply (verdict_reported_after_true _ st st1).
Qed.

(** X16: whenever the pod check of a cluster returns, no status line is
    in progress and no message is left queued; it returns false exactly
    when it has added at least one failure message to the report, and
    true exactly when it has added none. *)
Theorem X16_checkPods_reports_its_verdict (item : restConfig RestConfig)
    (submariner : Submariner) (operatorNamespace : string)
    (st st' : Status) (b : bool) :
  checkPods item submariner operatorNamespace st = (Returned b, st') ->
  idle st' ∧ verdict_reported b st st'.
Proof. apply checkPods_reports. Qed.

Lemma filter_failures_all (issues : list Issue) :
  Forall (λ i, is_failure i = true) issues -> List.filter is_failure issues = issues.
Proof.
  induction 1 as [|i rest Hi _ IH]; [done|]. simpl. by rewrite Hi, IH.
Qed.

Lemma checkOverlappingCIDRs_reports (item : restConfig RestConfig)
    (submariner : Submariner) (st st' : Status) (b : bool) :
  checkOverlappingCIDRs item submariner st = (Returned b, st') ->
  idle st'
  ∧ (∃ extra, reported_failures st' = reported_failures st ++ extra
       ∧ (b = true <-> extra = [] ∧ existsb is_failure (leftover st) = false))
  ∧ (∀ submarinerClient items,
       smClientset_NewForConfig (config item) = inr submarinerClient ->
       Endpoints_List submarinerClient (Submariner_Namespace submariner) = inr items ->
       reported_failures st' = reported_failures st ++ detect items).
Proof.
  unfold Cmd.checkOverlappingCIDRs.
  destruct (smClientset_NewForConfig (config item)) as [err|client]; [done|].
  erewrite bind_Returned by reflexivity.
  set (start := if negb (String.eqb (Spec_GlobalCIDR submariner) "")
                then Start _ else Start _).
  assert (∃ title, start = Start title) as [title ->].
  { unfold start. destruct (negb _); eauto. }
  rewrite (bind_step (Start title) _ st tt eq_refl).
  pose proof (reported_failures_Start title st) as Hstart.
  pose proof (running_Start title st) as Hrunning.
  destruct (Start_leftover title st) as (_ & _ & Hqueue).
  revert Hstart Hrunning Hqueue. generalize ((Start title st).2).
  intros st1 Hstart Hrunning Hqueue.
  destruct (Endpoints_List client (Submariner_Namespace submariner))
    as [err|items] eqn:Hlist.
  { intros Hrun. destruct (sound_fail _ _ _ _ Hrunning Hrun) as [Hv Hidle].
    rewrite fail_run in Hrun. injection Hrun as <- Hst'.
    split; [exact Hidle|]. split.
    - destruct Hv as (extra & He & _ & Hne). exists extra.
      split; [by rewrite He, Hstart|]. split; [done|].
      intros [Hnil _]. by destruct (Hne eq_refl).
    - intros ? ? [= <-] Hlist'. congruence. }
  erewrite bind_Returned by apply sources_loop_run.
  erewrite bind_Returned by reflexivity.
  rewrite queue_enqueue, Hqueue, <- detect_pairs.
  pose proof (detect_failures IsOverlapping items) as Hall.
  pose proof (reported_failures_enqueue (detect items) st1) as Hrf.
  rewrite (filter_failures_all _ Hall), Hstart in Hrf.
  pose proof (running_enqueue (detect items) st1 Hrunning) as Hrunning'.
  rewrite existsb_app.
  destruct (existsb is_failure (leftover st) || existsb is_failure (detect items))
    eqn:Hex.
  - rewrite (bind_step (End Failure) _ _ tt (End_returns _ _)).
    intros [= <- <-].
    split; [by apply End_running|].
    assert (reported_failures (End Failure (enqueue (detect items) st1)).2
            = reported_failures st ++ detect items) as Hfinal.
    { by rewrite reported_failures_End. }
    split.
    + exists (detect items). split; [exact Hfinal|]. split; [done|].
      intros [Hnil Hleft]. rewrite Hnil, Hleft in Hex. done.
    + intros ? ? [= <-] Hlist'. rewrite Hlist in Hlist'.
      injection Hlist' as <-. exact Hfinal.
  - apply orb_false_iff in Hex as [Hleft Hdetect].
    apply existsb_failure_detect in Hdetect.
    set (note := if negb (String.eqb (Spec_GlobalCIDR submariner) "")
                 then QueueSuccessMessage _ else QueueSuccessMessage _).
    assert (∃ m, note = QueueMessage success m) as [m ->].
    { unfold note. destruct (negb _); eauto. }
    rewrite (bind_step (QueueMessage success m) _ _ tt eq_refl).
    rewrite (bind_step (End Success) _ _ tt (End_returns _ _)).
    intros [= <- <-].
    split; [by apply End_running|].
    assert (reported_failures
              (End Success (QueueMessage success m (enqueue (detect items) st1)).2).2
            = reported_failures st ++ detect items) as Hfinal.
    { rewrite reported_failures_End, reported_failures_Queue, Hrf. simpl.
      by rewrite app_nil_r. }
    split.
    + exists (detect items). split; [exact Hfinal|]. done.
    + intros ? ? [= <-] Hlist'. rewrite Hlist in Hlist'.
      injection Hlist' as <-. exact Hfinal.
Qed.

(** From an idle reporter the overlap check reports its verdict. *)
Lemma checkOverlappingCIDRs_reports_idle (item : restConfig RestConfig)
    (submariner : Submariner) (st st' : Status) (b : bool) :
  idle st -> checkOverlappingCIDRs item submariner st = (Returned b, st') ->
  idle st' ∧ verdict_reported b st st'.
Proof.
  intros Hidle Hrun.
  destruct (checkOverlappingCIDRs_reports _ _ _ _ _ Hrun)
    as (Hidle' & (extra & He & Hb) & _).
  split; [exact Hidle'|]. exists extra. split; [exact He|].
  rewrite (leftover_idle _ Hidle) in Hb. split.
  - intros Htrue. by apply Hb.
  - intros -> Hnil. assert (false = true) as Habsurd by (by apply Hb).
    discriminate.
Qed.

(** X17: whenever the overlap check of a cluster returns, no status line
    is in progress and no message is left queued. It returns true
    exactly when it has added no failure message to the report and no
    failure message had been left queued outside a status line when it
    was called. When the endpoints can be listed, the failure messages
    it adds are the issues of the detector, in order. *)
Theorem X17_overlap_check_reports_its_verdict (item : restConfig RestConfig)
    (submariner : Submariner) (st st' : Status) (b : bool) :
  checkOverlappingCIDRs item submariner st = (Returned b, st') ->
  idle st'
  ∧ (∃ extra, reported_failures st' = reported_failures st ++ extra
       ∧ (b = true <-> extra = [] ∧ existsb is_failure (leftover st) = false))
  ∧ (∀ submarinerClient items,
       smClientset_NewForConfig (config item) = inr submarinerClient ->
       Endpoints_List submarinerClient (Submariner_Namespace submariner) = inr items ->
       reported_failures st' = reported_failures st ++ detect items).
Proof. apply checkOverlappingCIDRs_reports. Qed.

End CheckReports.

(** * The exit status and the report *)

Section ValidateReports.

Import Cmd.

Context {RestConfig SubmarinerClient KubeClient : Type}.
Variable OperatorNamespace : string.
Variable submMissingMessage : string.
Variable getMultipleRestConfigs :
  string -> list string -> error + list (restConfig RestConfig).
Variable getSubmarinerResource : RestConfig -> option Submariner.
Variable smClientset_NewForConfig : RestConfig -> error + SubmarinerClient.
Variable Endpoints_List : SubmarinerClient -> string -> error + list Endpoint.
Variable kubernetes_NewForConfig : RestConfig -> error + KubeClient.
Variable DaemonSets_Get : KubeClient -> string -> string -> error + DaemonSet.
Variable Deployments_Get : KubeClient -> string -> string -> error + Deployment.
Variable Pods_List : KubeClient -> string -> error + list Pod.
Variable IsOverlapping : list string -> string -> error + bool.

Local Abbreviation checkPods :=
  (checkPods kubernetes_NewForConfig DaemonSets_Get Deployments_Get Pods_List).
Local Abbreviation checkOverlappingCIDRs :=
  (checkOverlappingCIDRs smClientset_NewForConfig Endpoints_List IsOverlapping).
Local Abbreviation validate_loop :=
  (validate_loop OperatorNamespace submMissingMessage getSubmarinerResource
     smClientset_NewForConfig Endpoints_List kubernetes_NewForConfig
     DaemonSets_Get Deployments_Get Pods_List IsOverlapping).
Local Abbreviation validateSubmarinerDeployment :=
  (validateSubmarinerDeployment OperatorNamespace submMissingMessage
     getMultipleRestConfigs getSubmarinerResource
     smClientset_NewForConfig Endpoints_List kubernetes_NewForConfig
     DaemonSets_Get Deployments_Get Pods_List IsOverlapping).

(** A client of the context cannot be built. *)
Local Abbreviation no_client := (λ item : restConfig RestConfig,
  (∃ err, kubernetes_NewForConfig (config item) = inl err)
  ∨ (∃ err, smClientset_NewForConfig (config item) = inl err)).

(** What the loop has reported when it ends: nothing when it ends with
    true, a failure when it went from true to false; it ends the process
    only when a client cannot be built, and then with status 1. *)
Local Abbreviation loop_reported :=
  (λ (configs : list (restConfig RestConfig)) (v : bool) (st : Status)
     (o : Outcome bool) (st' : Status),
   match o with
   | Returned v' =>
     ∃ extra, reported_failures st' = reported_failures st ++ extra
       ∧ (v' = true -> v = true ∧ extra = [])
       ∧ (v = true -> v' = false -> extra ≠ [])
   | Exited code => code = 1%Z ∧ ∃ item, item ∈ configs ∧ no_client item
   end).

Lemma loop_reported_cons (item : restConfig RestConfig)
    (configs : list (restConfig RestConfig)) (v v1 : bool) (st st1 : Status)
    (o : Outcome bool) (st' : Status) (extra1 : list Issue) :
  reported_failures st1 = reported_failures st ++ extra1 ->
  (v1 = true -> v = true ∧ extra1 = []) ->
  (v = true -> v1 = false -> extra1 ≠ []) ->
  loop_reported configs v1 st1 o st' ->
  loop_reported (item :: configs) v st o st'.
Proof.
  intros Hrf Htrue Hfalse Hloop. destruct o as [v'|code].
  - destruct Hloop as (extra & He & Ht & Hf).
    exists (extra1 ++ extra). split; [by rewrite He, Hrf, app_assoc|]. split.
    + intros Hv'. destruct (Ht Hv') as [Hv1 ->]. destruct (Htrue Hv1) as [Hv ->].
      done.
    + intros Hv Hv'. destruct v1.
      * destruct (Htrue eq_refl) as [_ ->]. simpl. by apply Hf.
      * intros Hnil. apply app_eq_nil in Hnil as [Hnil _]. by apply (Hfalse Hv).
  - destruct Hloop as (Hcode & item' & Hin & Hno). split; [exact Hcode|].
    exists item'. split; [|done]. by apply list_elem_of_further.
Qed.

Lemma validate_loop_reported (configs : list (restConfig RestConfig)) (v : bool)
    (st : Status) :
  loop_reported configs v st (validate_loop configs v st).1 (validate_loop configs v st).2.
Proof.
  revert v st. induction configs as [|item rest IH]; intros v st.
  - simpl. exists []. rewrite app_nil_r. split; [done|]. split; [done|]. congruence.
  - cbn [Cmd.validate_loop].
    rewrite (bind_step (Start _) _ st tt eq_refl).
    pose proof (reported_failures_Start
                  (Sprintf "Retrieving Submariner resource from %q"
                     [ArgString (clusterName item)]) st) as Hstart.
    pose proof (running_Start
                  (Sprintf "Retrieving Submariner resource from %q"
                     [ArgString (clusterName item)]) st) as Hrunning.
    revert Hstart Hrunning.
    generalize ((Start (Sprintf "Retrieving Submariner resource from %q"
                          [ArgString (clusterName item)]) st).2).
    intros st1 Hstart Hrunning.
    destruct (getSubmarinerResource (config item)) as [submariner|].
    + rewrite (bind_step (End Success) _ st1 tt (End_returns _ _)).
      pose proof (reported_failures_End Success st1) as Hend.
      destruct (End_running Success st1 Hrunning) as [_ Hidle].
      rewrite Hstart in Hend. revert Hend Hidle.
      generalize ((End Success st1).2). intros st2 Hend Hidle.
      destruct v; cbn [and_then].
      * destruct (checkPods item submariner OperatorNamespace st2)
          as [[b1|code] st3] eqn:Hpods.
        -- erewrite bind_Returned by exact Hpods.
           destruct (checkPods_reports kubernetes_NewForConfig DaemonSets_Get
                       Deployments_Get Pods_List _ _ _ _ _ _ Hpods)
             as [Hidle3 (extra1 & He1 & Ht1 & Hf1)].
           destruct b1; cbn [and_then].
           ++ rewrite (Ht1 eq_refl), app_nil_r in He1.
              destruct (checkOverlappingCIDRs item submariner st3)
                as [[b2|code] st4] eqn:Hoverlap.
              ** erewrite bind_Returned by exact Hoverlap.
                 destruct (checkOverlappingCIDRs_reports_idle smClientset_NewForConfig
                             Endpoints_List IsOverlapping _ _ _ _ _ Hidle3 Hoverlap)
                   as [_ (extra2 & He2 & Ht2 & Hf2)].
                 apply (loop_reported_cons item rest true b2 st st4 _ _ extra2).
                 --- by rewrite He2, He1, Hend.
                 --- intros ->. split; [done|]. by apply Ht2.
                 --- intros _ ->. by apply Hf2.
                 --- apply IH.
              ** erewrite bind_Exited by exact Hoverlap. cbn [fst snd].
                 pose proof (checkOverlappingCIDRs_outcome smClientset_NewForConfig
                               Endpoints_List IsOverlapping item submariner st3)
                   as Hout.
                 rewrite Hoverlap in Hout. cbn [fst] in Hout.
                 destruct (smClientset_NewForConfig (config item)) as [err|client]
                   eqn:Hclient.
                 --- injection Hout as ->. split; [done|].
                     exists item. split; [apply list_elem_of_here|].
                     right. by exists err.
                 --- by destruct (Endpoints_List _ _).
           ++ erewrite bind_Returned by reflexivity.
              apply (loop_reported_cons item rest true false st st3 _ _ extra1).
              ** by rewrite He1, Hend.
              ** done.
              ** intros _ _. by apply Hf1.
              ** apply IH.
        -- erewrite bind_Exited by exact Hpods. cbn [fst snd].
           pose proof (checkPods_outcome kubernetes_NewForConfig DaemonSets_Get
                         Deployments_Get Pods_List item submariner
                         OperatorNamespace st2) as Hout.
           rewrite Hpods in Hout. cbn [fst] in Hout.
           destruct (kubernetes_NewForConfig (config item)) as [err|client]
             eqn:Hclient; [|done].
           injection Hout as ->. split; [done|].
           exists item. split; [apply list_elem_of_here|]. left. by exists err.
      * erewrite bind_Returned by reflexivity. cbn [and_then].
        erewrite bind_Returned by reflexivity.
        apply (loop_reported_cons item rest false false st st2 _ _ []).
        -- by rewrite Hend, app_nil_r.
        -- done.
        -- done.
        -- apply IH.
    + rewrite (bind_step (QueueWarningMessage _) _ st1 tt eq_refl).
      rewrite (bind_step (End Success) _ _ tt (End_returns _ _)).
      apply (loop_reported_cons item rest v v st
               (End Success (QueueWarningMessage (literal submMissingMessage) st1).2).2
               _ _ []).
      * unfold QueueWarningMessage.
        rewrite reported_failures_End, reported_failures_Queue, Hstart. done.
      * done.
      * congruence.
      * apply IH.
Qed.

(** X18: the exit status agrees with the report. When the command exits
    with status 0 it has reported no failure message; when it exits with
    another status it has reported at least one failure message, or a
    client of one of the contexts could not be built. *)
Theorem X18_exit_status_agrees_with_report (kubeConfig : string)
    (kubeContexts : list string) (configs : list (restConfig RestConfig))
    (st : Status) :
  getMultipleRestConfigs kubeConfig kubeContexts = inr configs ->
  let run := validateSubmarinerDeployment kubeConfig kubeContexts st in
  (exitStatus run.1 = 0%Z -> reported_failures run.2 = reported_failures st)
  ∧ (exitStatus run.1 ≠ 0%Z ->
     (∃ extra, extra ≠ []
        ∧ reported_failures run.2 = reported_failures st ++ extra)
     ∨ (∃ item, item ∈ configs ∧ no_client item)).
Proof.
  intros Hconfigs run. subst run.
  unfold Cmd.validateSubmarinerDeployment. rewrite Hconfigs.
  erewrite bind_Returned by reflexivity.
  pose proof (validate_loop_reported configs true st) as Hloop.
  destruct (validate_loop configs true st) as [[[|]|code] st'] eqn:Hrun;
    cbn [fst snd] in Hloop.
  - erewrite bind_Returned by exact Hrun.
    cbn [negb mret Run_ret os_Exit fst snd exitStatus].
    destruct Hloop as (extra & He & Ht & _). destruct (Ht eq_refl) as [_ ->].
    split; [|done]. intros _. by rewrite He, app_nil_r.
  - erewrite bind_Returned by exact Hrun.
    cbn [negb mret Run_ret os_Exit fst snd exitStatus].
    destruct Hloop as (extra & He & _ & Hf).
    split; [done|]. intros _. left. exists extra. split; [by apply Hf|done].
  - erewrite bind_Exited by exact Hrun. cbn [fst snd exitStatus].
    destruct Hloop as [-> Hno].
    split; [done|]. intros _. by right.
Qed.

Lemma validate_loop_absent (configs : list (restConfig RestConfig)) (v : bool)
    (st : Status) :
  (∀ item, item ∈ configs -> getSubmarinerResource (config item) = None) ->
  idle st ->
  validate_loop configs v st
  = (Returned v,
     {| current := None; queue := [];
        report :=
          report st
          ++ ((λ item : restConfig RestConfig,
                 {| line_title :=
                      Some (Sprintf "Retrieving Submariner resource from %q"
                              [ArgString (clusterName item)]);
                    line_result := Success;
                    line_issues := [ {| severity := warning;
                                        text := literal submMissingMessage |} ] |})
              <$> configs) |}).
Proof.
  revert st. induction configs as [|item rest IH]; intros st Habsent [Hcur Hqueue].
  - simpl. rewrite app_nil_r. destruct st. simpl in *. by subst.
  - cbn [Cmd.validate_loop].
    rewrite (Habsent item (list_elem_of_here _ _)).
    rewrite (bind_step (Start _) _ st tt eq_refl).
    rewrite (bind_step (QueueWarningMessage _) _ _ tt eq_refl).
    rewrite (bind_step (End Success) _ _ tt (End_returns _ _)).
    unfold Start, End, QueueWarningMessage, QueueMessage.
    rewrite Hcur. cbn [fst snd current queue report]. rewrite Hqueue.
    rewrite IH.
    + f_equal. f_equal. cbn [report]. by rewrite <- app_assoc.
    + intros item' Hin. by apply Habsent, list_elem_of_further.
    + done.
Qed.

(** X19: when none of the contexts has a Submariner resource, the command
    runs no check and returns, that is, exits with status 0; started with
    an idle reporter it adds to the report one Success line for each
    context, in order, each with the one warning that Submariner is
    missing. *)
Theorem X19_contexts_without_resource (kubeConfig : string)
    (kubeContexts : list string) (configs : list (restConfig RestConfig))
    (st : Status) :
  getMultipleRestConfigs kubeConfig kubeContexts = inr configs ->
  (∀ item, item ∈ configs -> getSubmarinerResource (config item) = None) ->
  idle st ->
  validateSubmarinerDeployment kubeConfig kubeContexts st
  = (Returned tt,
     {| current := None; queue := [];
        report :=
          report st
          ++ ((λ item : restConfig RestConfig,
                 {| line_title :=
                      Some (Sprintf "Retrieving Submariner resource from %q"
                              [ArgString (clusterName item)]);
                    line_result := Success;
                    line_issues := [ {| severity := warning;
                                        text := literal submMissingMessage |} ] |})
              <$> configs) |}).
Proof.
  intros Hconfigs Habsent Hidle.
  unfold Cmd.validateSubmarinerDeployment. rewrite Hconfigs.
  erewrite bind_Returned by reflexivity.
  erewrite bind_Returned by (by apply validate_loop_absent).
  done.
Qed.

End ValidateReports.

Lemma X16_checkPods_reports_its_verdict_witness :
  Cmd.idle (Examples.checkPods (Examples.context "east")
              (Examples.submariner_of "east") "submariner-operator"
              Cmd.initialStatus).2.
Proof.
  refine (proj1 (X16_checkPods_reports_its_verdict (λ c : string, inr c)
    Examples.DaemonSets_Get Examples.Deployments_Get (λ _ _, inr [])
    (Examples.context "east") (Examples.submariner_of "east") "submariner-operator"
    Cmd.initialStatus
    (Examples.checkPods (Examples.context "east")
       (Examples.submariner_of "east") "submariner-operator" Cmd.initialStatus).2
    false _)).
  vm_compute. reflexivity.
Defined.

Lemma X17_overlap_check_reports_its_verdict_witness :
  Cmd.idle (Examples.checkOverlappingCIDRs (Examples.context "west")
              (Examples.submariner_of "west") Cmd.initialStatus).2.
Proof.
  refine (proj1 (X17_overlap_check_reports_its_verdict (λ c : string, inr c)
    (λ _ _, inr []) Examples.IsOverlapping
    (Examples.context "west") (Examples.submariner_of "west")
    Cmd.initialStatus
    (Examples.checkOverlappingCIDRs (Examples.context "west")
       (Examples.submariner_of "west") Cmd.initialStatus).2
    true _)).
  vm_compute. reflexivity.
Defined.

Lemma X18_exit_status_agrees_with_report_witness :
  Cmd.reported_failures
    (Examples.validateSubmarinerDeployment "" ["west"] Cmd.initialStatus).2
  = Cmd.reported_failures Cmd.initialStatus.
Proof.
  refine (proj1 (X18_exit_status_agrees_with_report
    "submariner-operator" "Submariner is not installed"
    (λ _ contexts, inr (Examples.context <$> contexts))
    (λ c, Some (Examples.submariner_of c))
    (λ c, inr c) (λ _ _, inr [])
    (λ c, inr c) Examples.DaemonSets_Get Examples.Deployments_Get (λ _ _, inr [])
    Examples.IsOverlapping
    "" ["west"] (Examples.context <$> ["west"]) Cmd.initialStatus eq_refl) _).
  vm_compute. reflexivity.
Defined.

Lemma X19_contexts_without_resource_witness :
  (Cmd.validateSubmarinerDeployment (KubeClient := string)
     "submariner-operator" "Submariner is not installed"
     (λ _ contexts, inr (Examples.context <$> contexts))
     (λ _, None)
     (λ c, inr c) (λ _ _, inr [])
     (λ c, inr c) Examples.DaemonSets_Get Examples.Deployments_Get (λ _ _, inr [])
     Examples.IsOverlapping "" ["east"; "west"] Cmd.initialStatus).1
  = Cmd.Returned tt.
Proof.
  refine (f_equal fst (X19_contexts_without_resource
    "submariner-operator" "Submariner is not installed"
    (λ _ contexts, inr (Examples.context <$> contexts))
    (λ _, None)
    (λ c, inr c) (λ _ _, inr [])
    (λ c, inr c) Examples.DaemonSets_Get Examples.Deployments_Get (λ _ _, inr [])
    Examples.IsOverlapping
    "" ["east"; "west"] (Examples.context <$> ["east"; "west"]) Cmd.initialStatus
    eq_refl _ _)).
  - intros item _. reflexivity.
  - split; reflexivity.
Defined.
